(** * EmbedTSDB: a shallow embedding of the storage core

    The development follows the Go sources:
    - [label.go]            metric-name marshalling        (module [Labels])
    - [bstream.go]          bit-stream writer and reader   (module [Bstream])
    - [memory_partition.go] in-memory partition and series (module [MemPart])
    - [partition_list.go]   linked list of partitions      (module [PartList])
    - [disk_partition.go]   queries on a flushed partition (module [DiskPart])

    Go values are modelled as follows.  A [string] is a sequence of bytes
    (Rocq's [string], a list of 8-bit characters); [int64] timestamps are
    integers in [Z] (the code compares them; where it subtracts them, in
    [active], the wrap-around is written out); fixed-width unsigned
    arithmetic ([uint8], [uint16], [uint64], [byte]) is written with its
    wrap-around; a run-time panic (index or slice bounds out of range) is the
    result [None]. *)

From Stdlib Require Import ZArith List String Ascii Bool Lia Permutation Sorted.
From stdpp Require Import gmap strings list fin_maps sorting.
From Equations Require Import Equations.

Local Open Scope Z_scope.

(** * Part I: the program *)

(** ** Go run-time and standard-library primitives *)

Module Go.

(** [sort.Slice(x, less)] sorts [x] in place given a [less] function.  The
    Go documentation promises a sorted permutation and no stability; the
    contract is kept abstract, so that everything proved below holds for
    whatever algorithm the Go release in use picks. *)
Class SortSlice := {
  sort_Slice : ∀ A : Type, (A → A → bool) → list A → list A;
  sort_Slice_perm : ∀ A (less : A → A → bool) (x : list A),
      sort_Slice A less x ≡ₚ x;
  sort_Slice_sorted : ∀ A (less : A → A → bool) (x : list A),
      (∀ a b, less a b = true → less b a = false) →
      (∀ a b c, less b a = false → less c b = false → less c a = false) →
      StronglySorted (λ a b, less b a = false) (sort_Slice A less x)
}.
Global Arguments sort_Slice {_ _} _ _.

(** Go's [insertionSortLessFunc], the algorithm [sort.Slice] runs on a slice
    of at most 12 elements:
<<
    for i := a + 1; i < b; i++ {
      for j := i; j > a && less(data[j], data[j-1]); j-- { swap(j, j-1) }
    }
>>
    [sorted_rev] is the already sorted prefix [data[a:i]], last element
    first; [insertBack] is the inner loop, which walks [data[i]] towards
    the front while it is less than its left neighbour. *)
Fixpoint insertBack {A} (less : A → A → bool) (x : A) (sorted_rev : list A)
  : list A :=
  match sorted_rev with
  | [] => [x]
  | y :: ys => if less x y then y :: insertBack less x ys else x :: y :: ys
  end.

Definition insertionSort {A} (less : A → A → bool) (data : list A) : list A :=
  rev (fold_left (λ sorted_rev x, insertBack less x sorted_rev) data []).

(** [len(x)] of a slice. *)
Definition len {A} (x : list A) : Z := Z.of_nat (length x).

(** [x[i]] with Go's bounds check. *)
Definition index {A} (x : list A) (i : Z) : option A :=
  if (i <? 0) then None else x !! Z.to_nat i.

(** The slice expression [x[lo:hi]].  Go checks [0 <= lo <= hi <= cap(x)];
    the model has no spare capacity, so the upper bound is [len(x)]. *)
Definition slice {A} (x : list A) (lo hi : Z) : option (list A) :=
  if (0 <=? lo) && (lo <=? hi) && (hi <=? len x)
  then Some (take (Z.to_nat (hi - lo)) (drop (Z.to_nat lo) x))
  else None.

(** [sort.Search(n, f)]: binary search for the least [i] in [[0, n]] with
    [f i]; [f] may panic.
<<
    i, j := 0, n
    for i < j {
      h := int(uint(i+j) >> 1)
      if !f(h) { i = h + 1 } else { j = h }
    }
    return i
>>  *)
Equations? searchLoop (f : Z → option bool) (i j : Z) : option Z
  by wf (Z.to_nat (j - i)) lt :=
  searchLoop f i j with Z_lt_dec i j := {
    | right _ => Some i
    | left _ with Z_le_dec 0 i := {
        | right _ => None
        | left _ with f ((i + j) / 2) := {
            | None => None
            | Some false => searchLoop f ((i + j) / 2 + 1) j
            | Some true => searchLoop f i ((i + j) / 2) } } }.
Proof.
  all: assert (i <= (i + j) / 2 < j)
    by (split; [apply Z.div_le_lower_bound | apply Z.div_lt_upper_bound]; lia);
    lia.
Qed.

Definition sort_Search (n : Z) (f : Z → option bool) : option Z :=
  searchLoop f 0 n.

End Go.

(** ** label.go *)

Module Labels.
Import Go.

Definition maxLabelNameLen : Z := 256.
Definition maxLabelValueLen : Z := 16 * 1024.

(** [len(s)] of a string, and the slice expression [s[:n]]. *)
Definition len (s : string) : Z := Z.of_nat (String.length s).
Definition prefix (s : string) (n : Z) : string := substring 0 (Z.to_nat n) s.

Record Label := mkLabel { Name : string; Value : string }.

(** Modelled from the spec: [encoding.MarshalUint16], whose source file is
    not part of the tree; the spec writes its output as [u16_be], the two
    bytes of the number, high byte first. *)
Definition byte_chr (z : Z) : ascii := ascii_of_N (Z.to_N (z mod 256)).

Definition MarshalUint16 (dst : string) (u : Z) : string :=
  dst +:+ String (byte_chr (u / 256)) (String (byte_chr u) "").

(** The conversion [uint16(n)] of an [int]. *)
Definition uint16 (n : Z) : Z := n mod 65536.

Definition invalid (name value : string) : bool :=
  bool_decide (name = "") || bool_decide (value = "").

(** The body of the first loop: a valid label is truncated in place. *)
Definition truncate (l : Label) : Label :=
  if invalid (Name l) (Value l) then l
  else
    let name := if decide (maxLabelNameLen < len (Name l))
                then prefix (Name l) maxLabelNameLen else Name l in
    let value := if decide (maxLabelValueLen < len (Value l))
                 then prefix (Value l) maxLabelValueLen else Value l in
    mkLabel name value.

(** The body of the second loop. *)
Definition emit (out : string) (l : Label) : string :=
  if invalid (Name l) (Value l) then out
  else
    let out := MarshalUint16 out (uint16 (len (Name l))) in
    let out := out +:+ Name l in
    let out := MarshalUint16 out (uint16 (len (Value l))) in
    out +:+ Value l.

Section WithSort.
Context `{SortSlice}.

(** [marshalMetricName] returns the key and leaves its effect in the
    backing array of [labels], which the caller shares: the second
    component is the content of the caller's slice after the call.
    (The [size] the first loop adds up is never read and is left out.) *)
Definition marshalMetricName (metric : string) (labels : list Label)
  : string * list Label :=
  if decide (length labels = 0%nat) then (metric, labels)
  else
    let labels := sort_Slice (λ a b, String.ltb (Name a) (Name b)) labels in
    let labels := truncate <$> labels in
    let out := MarshalUint16 "" (uint16 (len metric)) in
    let out := out +:+ metric in
    (fold_left emit labels out, labels).

(** The key alone, as the partitions use it. *)
Definition metricKey (metric : string) (labels : list Label) : string :=
  (marshalMetricName metric labels).1.
End WithSort.

End Labels.

(** ** bstream.go *)

Module Bstream.
Import Go.

(** Unsigned fixed-width arithmetic.  A shift by the width or more gives 0. *)
Definition wrap8 (z : Z) : Z := z mod 2 ^ 8.
Definition wrap64 (z : Z) : Z := z mod 2 ^ 64.
Definition shl8 (x c : Z) : Z := if c <? 8 then wrap8 (Z.shiftl x c) else 0.
Definition shr8 (x c : Z) : Z := if c <? 8 then Z.shiftr x c else 0.
Definition shl64 (x c : Z) : Z := if c <? 64 then wrap64 (Z.shiftl x c) else 0.
Definition shr64 (x c : Z) : Z := if c <? 64 then Z.shiftr x c else 0.

(** [x[i] = v] and [x[i] |= v], with the bounds check. *)
Definition setAt (x : list Z) (i v : Z) : option (list Z) :=
  _ ← Go.index x i; Some (<[Z.to_nat i := v]> x).

Definition orAt (x : list Z) (i v : Z) : option (list Z) :=
  old ← Go.index x i; Some (<[Z.to_nat i := Z.lor old v]> x).

(** [stream] holds bytes, [count] (a [uint8]) the number of bits still free
    in the last byte. *)
Record bstream := mkBstream { stream : list Z; count : Z }.

Definition bytes (b : bstream) : list Z := stream b.

(** [reset]: the stream is cut to length 0; the bytes of the old storage are
    out of reach, a later [append] writes over them. *)
Definition reset (b : bstream) : bstream := mkBstream (take 0 (stream b)) 0.

(** The common prologue of [writeBit] and [writeByte]. *)
Definition grow (b : bstream) : bstream :=
  if count b =? 0 then mkBstream (stream b ++ [0]) 8 else b.

Definition writeBit (b : bstream) (bit : bool) : option bstream :=
  let b := grow b in
  let i := len (stream b) - 1 in
  s ← (if bit then orAt (stream b) i (shl8 1 (wrap8 (count b - 1)))
       else Some (stream b));
  Some (mkBstream s (wrap8 (count b - 1))).

Definition writeByte (b : bstream) (byt : Z) : option bstream :=
  let b := grow b in
  let i := len (stream b) - 1 in
  s ← orAt (stream b) i (shr8 byt (wrap8 (8 - count b)));
  let s := s ++ [0] in
  let i := i + 1 in
  s ← setAt s i (shl8 byt (count b));
  Some (mkBstream s (count b)).

#[local] Opaque writeBit writeByte shl64 shr64 wrap8.

(** The first loop of [writeBits]: whole bytes. *)
Equations? writeBitsBytes (b : bstream) (u nbits : Z) : option (bstream * Z * Z)
  by wf (Z.to_nat nbits) lt :=
  writeBitsBytes b u nbits with Z_le_dec 8 nbits := {
    | right _ => Some (b, u, nbits)
    | left _ with writeByte b (wrap8 (shr64 u 56)) := {
        | None => None
        | Some b' => writeBitsBytes b' (shl64 u 8) (nbits - 8) } }.
Proof. lia. Qed.

(** The second loop: the remaining bits, one at a time. *)
Equations? writeBitsTail (b : bstream) (u nbits : Z) : option bstream
  by wf (Z.to_nat nbits) lt :=
  writeBitsTail b u nbits with Z_lt_dec 0 nbits := {
    | right _ => Some b
    | left _ with writeBit b (shr64 u 63 =? 1) := {
        | None => None
        | Some b' => writeBitsTail b' (shl64 u 1) (nbits - 1) } }.
Proof. lia. Qed.

#[local] Transparent writeBit writeByte shl64 shr64 wrap8.

Definition writeBits (b : bstream) (u nbits : Z) : option bstream :=
  let u := shl64 u (wrap64 (64 - wrap64 nbits)) in
  '(b, u, nbits) ← writeBitsBytes b u nbits;
  writeBitsTail b u nbits.

Record bstreamReader := mkReader {
  r_stream : list Z;
  streamOffset : Z;
  buffer : Z;
  valid : Z
}.

Definition newBReader (b : list Z) : bstreamReader := mkReader b 0 0 0.

(** A byte of the stream; every use below is under a guard that keeps the
    index within bounds. *)
Definition byteAt (s : list Z) (i : Z) : Z := default 0 (Go.index s i).

(** [binary.BigEndian.Uint64(s[off:])]. *)
Definition bigEndianUint64 (s : list Z) (off : Z) : Z :=
  Z.lor (byteAt s (off + 7))
  (Z.lor (shl64 (byteAt s (off + 6)) 8)
  (Z.lor (shl64 (byteAt s (off + 5)) 16)
  (Z.lor (shl64 (byteAt s (off + 4)) 24)
  (Z.lor (shl64 (byteAt s (off + 3)) 32)
  (Z.lor (shl64 (byteAt s (off + 2)) 40)
  (Z.lor (shl64 (byteAt s (off + 1)) 48)
         (shl64 (byteAt s off) 56))))))).

(** The loop of the slow path, [todo] iterations from index [i] on. *)
Fixpoint loadBytes (s : list Z) (off nbytes : Z) (todo : nat) (i buf : Z) : Z :=
  match todo with
  | O => buf
  | S todo =>
      loadBytes s off nbytes todo (i + 1)
        (Z.lor buf (shl64 (byteAt s (off + i)) (wrap64 (8 * (nbytes - i - 1)))))
  end.

Definition loadNextBuffer (b : bstreamReader) (nbits : Z) : bool * bstreamReader :=
  let s := r_stream b in
  if len s <=? streamOffset b then (false, b)
  else if streamOffset b + 8 <? len s then
    (true, mkReader s (streamOffset b + 8) (bigEndianUint64 s (streamOffset b)) 64)
  else
    let nbytes := wrap8 (nbits / 8 + 1) in
    let nbytes := if len s <? streamOffset b + nbytes
                  then len s - streamOffset b else nbytes in
    let buf := loadBytes s (streamOffset b) nbytes (Z.to_nat nbytes) 0 0 in
    (true, mkReader s (streamOffset b + nbytes) buf (wrap8 (nbytes * 8))).

(** A read returns the value, or [None] for [io.EOF], and the reader as the
    call leaves it. *)
Definition readBitsFast (b : bstreamReader) (nbits : Z)
  : option Z * bstreamReader :=
  if valid b <? nbits then (None, b)
  else
    let bitmask := wrap64 (shl64 1 nbits - 1) in
    let v := wrap8 (valid b - nbits) in
    (Some (Z.land (shr64 (buffer b) v) bitmask),
     mkReader (r_stream b) (streamOffset b) (buffer b) v).

Definition readBits (b : bstreamReader) (nbits : Z) : option Z * bstreamReader :=
  let '(ok, b) := if valid b =? 0 then loadNextBuffer b nbits else (true, b) in
  if negb ok then (None, b)
  else if nbits <=? valid b then readBitsFast b nbits
  else
    let bitmask := wrap64 (shl64 1 (valid b) - 1) in
    let nbits := wrap8 (nbits - valid b) in
    let v := shl64 (Z.land (buffer b) bitmask) nbits in
    let b := mkReader (r_stream b) (streamOffset b) (buffer b) 0 in
    let '(ok, b) := loadNextBuffer b nbits in
    if negb ok then (None, b)
    else
      let bitmask := wrap64 (shl64 1 nbits - 1) in
      let v := Z.lor v (Z.land (shr64 (buffer b) (wrap8 (valid b - nbits))) bitmask) in
      (Some v, mkReader (r_stream b) (streamOffset b) (buffer b)
                        (wrap8 (valid b - nbits))).

(** [readBitFast]: the bit under the mask [1 << valid]. *)
Definition readBitFast (b : bstreamReader) : option bool * bstreamReader :=
  if valid b =? 0 then (None, b)
  else
    let v := wrap8 (valid b - 1) in
    let bitmask := shl64 1 v in
    (Some (negb (Z.land (buffer b) bitmask =? 0)),
     mkReader (r_stream b) (streamOffset b) (buffer b) v).

Definition readBit (b : bstreamReader) : option bool * bstreamReader :=
  let '(ok, b) := if valid b =? 0 then loadNextBuffer b 1 else (true, b) in
  if negb ok then (None, b) else readBitFast b.

(** [ReadByte]: the low byte of [readBits(8)]. *)
Definition ReadByte (b : bstreamReader) : option Z * bstreamReader :=
  let '(v, b) := readBits b 8 in
  match v with
  | None => (None, b)
  | Some v => (Some (wrap8 v), b)
  end.

(** Writing a sequence of (value, width) pairs, and reading widths back. *)
Fixpoint writeAll (b : bstream) (ps : list (Z * Z)) : option bstream :=
  match ps with
  | [] => Some b
  | (u, n) :: ps => b ← writeBits b u n; writeAll b ps
  end.

Fixpoint readAll (r : bstreamReader) (ns : list Z) : option (list Z) :=
  match ns with
  | [] => Some []
  | n :: ns =>
      let '(v, r) := readBits r n in
      v ← v; vs ← readAll r ns; Some (v :: vs)
  end.

End Bstream.

(** ** memory_partition.go *)

Module MemPart.
Import Go.

Definition error : Type := string.

Inductive TimestampPrecision := Nanoseconds | Microseconds | Milliseconds | Seconds.

(** [Value] is a [float64]; the partition never looks at it, and the model
    keeps its bit pattern. *)
Record DataPoint := mkPoint { Timestamp : Z; Value : Z }.

(** [Row] embeds a [DataPoint]. *)
Record Row := mkRow {
  Metric : string;
  Labels : list Labels.Label;
  Point : DataPoint
}.

(** A [time.Time] is kept as its [UnixNano], as an integer without bound
    (the wrap-around of [UnixNano] outside the years 1678 to 2262 is not
    modelled); integer division in Go truncates, [Unix] is the number of
    whole seconds. *)
Definition toUnix (t : Z) (precision : TimestampPrecision) : Z :=
  match precision with
  | Nanoseconds => t
  | Microseconds => Z.quot t 1000
  | Milliseconds => Z.quot t 1000000
  | Seconds => t / 1000000000
  end.

(** *** memoryMetric

    The series hold pointers to points that nothing writes to after the
    insert, so the lists hold the points themselves.  The counters are
    [int64]s that count elements held in memory; they cannot wrap. *)
Record memoryMetric := mkMetric {
  name : string;
  size : Z;
  minTimestamp : Z;
  maxTimestamp : Z;
  points : list DataPoint;
  outOfOrderPoints : list DataPoint
}.

(** The three ways [insertPoint] ends. *)
Definition appendFirst (m : memoryMetric) (point : DataPoint) : memoryMetric :=
  mkMetric (name m) (size m + 1) (Timestamp point) (Timestamp point)
           (points m ++ [point]) (outOfOrderPoints m).

Definition appendInOrder (m : memoryMetric) (point : DataPoint) : memoryMetric :=
  mkMetric (name m) (size m + 1) (minTimestamp m) (Timestamp point)
           (points m ++ [point]) (outOfOrderPoints m).

Definition appendOutOfOrder (m : memoryMetric) (point : DataPoint) : memoryMetric :=
  mkMetric (name m) (size m) (minTimestamp m) (maxTimestamp m)
           (points m) (outOfOrderPoints m ++ [point]).

(** The fast path: [Some (Some m')] when it returned, [Some None] when it
    fell through to the slow path. *)
Definition insertPointFast (m : memoryMetric) (point : DataPoint)
  : option (option memoryMetric) :=
  if 0 <? size m then
    lastTimestamp ←
      (if 0 <? len (points m)
       then Timestamp <$> index (points m) (len (points m) - 1)
       else Some 0);
    if lastTimestamp <? Timestamp point then
      if 0 <? len (points m) then
        last ← index (points m) (len (points m) - 1);
        if Timestamp last <? Timestamp point
        then Some (Some (appendInOrder m point))
        else Some None
      else Some None
    else Some None
  else Some None.

Definition insertPointSlow (m : memoryMetric) (point : DataPoint)
  : option memoryMetric :=
  if size m =? 0 then Some (appendFirst m point)
  else
    let currentSize := size m in
    if (0 <? currentSize) && (0 <? len (points m)) then
      last ← index (points m) (currentSize - 1);
      if Timestamp last <? Timestamp point
      then Some (appendInOrder m point)
      else Some (appendOutOfOrder m point)
    else Some (appendOutOfOrder m point).

Definition insertPoint (m : memoryMetric) (point : DataPoint)
  : option memoryMetric :=
  fast ← insertPointFast m point;
  match fast with
  | Some m' => Some m'
  | None => insertPointSlow m point
  end.

Definition selectPoints (m : memoryMetric) (start end_ : Z)
  : option (list DataPoint) :=
  if end_ <=? minTimestamp m then Some []
  else
    startIdx ←
      (if start <=? minTimestamp m then Some 0
       else sort_Search (size m)
              (λ i, p ← index (points m) i; Some (start <=? Timestamp p)));
    endIdx ←
      (if maxTimestamp m <? end_ then Some (size m)
       else sort_Search (size m)
              (λ i, p ← index (points m) i; Some (end_ <=? Timestamp p)));
    slice (points m) startIdx endIdx.

Section Encoder.
Context `{SortSlice}.

(** The [seriesEncoder] the flush hands over: a state and [encodePoint],
    which returns the new state and the error, if any. *)
Variable Encoder : Type.
Variable encodePoint : Encoder → DataPoint → Encoder * option error.

(** The first loop of [encodeAllPoints], on what is left of the two
    slices from [oi] and [pi] on; it leaves by an error or when one of them
    is used up. *)
Equations? mergeLoop (enc : Encoder) (ooo pts : list DataPoint)
  : Encoder * option error * list DataPoint * list DataPoint
  by wf (length ooo + length pts)%nat lt :=
  mergeLoop enc (o :: ooo) (p :: pts) with Z_lt_dec (Timestamp o) (Timestamp p) := {
    | left _ with encodePoint enc o := {
        | (enc', Some err) => (enc', Some err, ooo, p :: pts)
        | (enc', None) => mergeLoop enc' ooo (p :: pts) }
    | right _ with encodePoint enc p := {
        | (enc', Some err) => (enc', Some err, o :: ooo, pts)
        | (enc', None) => mergeLoop enc' (o :: ooo) pts } };
  mergeLoop enc ooo pts := (enc, None, ooo, pts).
Proof. all: simpl; lia. Qed.

(** The second and the third loop. *)
Fixpoint drainLoop (enc : Encoder) (pts : list DataPoint)
  : Encoder * option error :=
  match pts with
  | [] => (enc, None)
  | p :: pts =>
      match encodePoint enc p with
      | (enc', Some err) => (enc', Some err)
      | (enc', None) => drainLoop enc' pts
      end
  end.

(** [encodeAllPoints] returns the series, whose out-of-order slice it has
    sorted in place, the encoder and the error. *)
Definition encodeAllPoints (m : memoryMetric) (encoder : Encoder)
  : memoryMetric * Encoder * option error :=
  let ooo := sort_Slice (λ a b, Timestamp a <? Timestamp b) (outOfOrderPoints m) in
  let m := mkMetric (name m) (size m) (minTimestamp m) (maxTimestamp m)
                    (points m) ooo in
  match mergeLoop encoder ooo (points m) with
  | (enc, Some err, _, _) => (m, enc, Some err)
  | (enc, None, ooo, pts) =>
      match drainLoop enc ooo with
      | (enc, Some err) => (m, enc, Some err)
      | (enc, None) =>
          match drainLoop enc pts with
          | (enc, err) => (m, enc, err)
          end
      end
  end.

End Encoder.

(** *** memoryPartition *)

Section Partition.
Context `{SortSlice}.

(** The write-ahead log behind the [wal] interface, and the wall clock:
    [clock k] is the [k]-th reading of [time.Now()]. *)
Variable WAL : Type.
Variable wal_append : WAL → Z → list Row → WAL * option error.
Variable clock : nat → Z.

Definition operationInsert : Z := 1.

(** [metrics] is the [sync.Map] from marshalled metric name to series;
    [once] tells whether the [sync.Once] has fired. *)
Record memoryPartition := mkPartition {
  numPoints : Z;
  minT : Z;
  maxT : Z;
  metrics : gmap string memoryMetric;
  wal : WAL;
  partitionDuration : Z;
  timestampPrecision : TimestampPrecision;
  once : bool
}.

(** [partitionDuration] is a [time.Duration], a number of nanoseconds.  For
    [Seconds] the code truncates [Duration.Seconds()], a [float64]; the
    whole seconds stand for it here (the [float64] may round a duration just
    below a whole second up to it).  A precision other than the four named
    ones, which the code treats as [Nanoseconds], is not modelled. *)
Definition newMemoryPartition (wal : WAL) (partitionDuration : Z)
    (precision : TimestampPrecision) : memoryPartition :=
  let d := match precision with
           | Nanoseconds => partitionDuration
           | Microseconds => Z.quot partitionDuration 1000
           | Milliseconds => Z.quot partitionDuration 1000000
           | Seconds => Z.quot partitionDuration 1000000000
           end in
  mkPartition 0 0 0 ∅ wal d precision false.

Definition minTimestampOf (m : memoryPartition) : Z := minT m.
Definition maxTimestampOf (m : memoryPartition) : Z := maxT m.

(** [getMetric]: the series of that name and the map, in which a missing
    series has been stored. *)
Definition getMetric (ms : gmap string memoryMetric) (name : string)
  : memoryMetric * gmap string memoryMetric :=
  match ms !! name with
  | Some mt => (mt, ms)
  | None => let mt := mkMetric name 0 0 0 [] [] in (mt, <[name := mt]> ms)
  end.

(** The minimum the [sync.Once] stores. *)
Definition batchMin (first : Row) (rows : list Row) : Z :=
  foldl (λ min row, if Timestamp (Point row) <? min
                    then Timestamp (Point row) else min)
        (Timestamp (Point first)) rows.

(** The state the loop of [insertRows] carries. *)
Record loopState := mkLoop {
  l_tick : nat;
  l_metrics : gmap string memoryMetric;
  l_outdated : list Row;
  l_maxTimestamp : Z;
  l_rowsNum : Z
}.

(** One turn of the loop. *)
Definition insertRow (minT : Z) (precision : TimestampPrecision)
    (st : loopState) (row : Row) : option loopState :=
  if Timestamp (Point row) <? minT then
    Some (mkLoop (l_tick st) (l_metrics st) (l_outdated st ++ [row])
                 (l_maxTimestamp st) (l_rowsNum st))
  else
    let '(ts, tick) :=
      if Timestamp (Point row) =? 0
      then (toUnix (clock (l_tick st)) precision, S (l_tick st))
      else (Timestamp (Point row), l_tick st) in
    let maxTimestamp := if l_maxTimestamp st <? ts then ts else l_maxTimestamp st in
    let name := Labels.metricKey (Metric row) (Labels row) in
    let '(mt, ms) := getMetric (l_metrics st) name in
    mt ← insertPoint mt (mkPoint ts (Value (Point row)));
    Some (mkLoop tick (<[name := mt]> ms) (l_outdated st)
                 maxTimestamp (l_rowsNum st + 1)).

Fixpoint insertLoop (minT : Z) (precision : TimestampPrecision)
    (st : loopState) (rows : list Row) : option loopState :=
  match rows with
  | [] => Some st
  | row :: rows =>
      st ← insertRow minT precision st row; insertLoop minT precision st rows
  end.

(** What [insertRows] returns: the outdated rows, or an error. *)
Inductive result :=
| Ok (outdatedRows : list Row)
| Err (err : error).

(** [insertRows], started at clock reading [tick]: [None] is a panic,
    otherwise the next clock reading, the partition and the result. *)
Definition insertRows (tick : nat) (m : memoryPartition) (rows : list Row)
  : option (nat * memoryPartition * result) :=
  match rows with
  | [] => Some (tick, m, Err "no rows given")
  | first :: _ =>
      match wal_append (wal m) operationInsert rows with
      | (w, Some err) =>
          Some (tick,
                mkPartition (numPoints m) (minT m) (maxT m) (metrics m) w
                  (partitionDuration m) (timestampPrecision m) (once m),
                Err ("failed to write to WAL: " +:+ err))
      | (w, None) =>
          let minT := if once m then minT m else batchMin first rows in
          st ← insertLoop minT (timestampPrecision m)
                 (mkLoop tick (metrics m) [] (Timestamp (Point first)) 0) rows;
          let maxT := if maxT m <? l_maxTimestamp st
                      then l_maxTimestamp st else maxT m in
          Some (l_tick st,
                mkPartition (numPoints m + l_rowsNum st) minT maxT
                  (l_metrics st) w (partitionDuration m)
                  (timestampPrecision m) true,
                Ok (l_outdated st))
      end
  end.

(** [selectDataPoints] returns the points (its error is always nil) and the
    partition, in which [getMetric] may have stored an empty series. *)
Definition selectDataPoints (m : memoryPartition) (metric : string)
    (labels : list Labels.Label) (start end_ : Z)
  : option (list DataPoint * memoryPartition) :=
  let name := Labels.metricKey metric labels in
  let '(mt, ms) := getMetric (metrics m) name in
  pts ← selectPoints mt start end_;
  Some (pts,
        mkPartition (numPoints m) (minT m) (maxT m) ms (wal m)
          (partitionDuration m) (timestampPrecision m) (once m)).

(** [size()] *)
Definition sizeOf (m : memoryPartition) : Z := numPoints m.

(** [active()]: the subtraction and the addition are on [int64], and wrap
    around. *)
Definition wrapInt64 (z : Z) : Z := (z + 2 ^ 63) mod 2 ^ 64 - 2 ^ 63.

Definition active (m : memoryPartition) : bool :=
  wrapInt64 (wrapInt64 (maxTimestampOf m - minTimestampOf m) + 1)
  <? partitionDuration m.

(** [clean()] has nothing to do: the result is nil. *)
Definition clean (m : memoryPartition) : memoryPartition * option error :=
  (m, None).

(** [expired()] *)
Definition expired (m : memoryPartition) : bool := false.

End Partition.

Global Arguments sizeOf {_} _.
Global Arguments active {_} _.
Global Arguments clean {_} _.
Global Arguments expired {_} _.
Global Arguments mkPartition {_} _ _ _ _ _ _ _ _.
Global Arguments numPoints {_} _.
Global Arguments minT {_} _.
Global Arguments maxT {_} _.
Global Arguments metrics {_} _.
Global Arguments wal {_} _.
Global Arguments partitionDuration {_} _.
Global Arguments timestampPrecision {_} _.
Global Arguments once {_} _.
Global Arguments newMemoryPartition {_} _ _ _.
Global Arguments minTimestampOf {_} _.
Global Arguments maxTimestampOf {_} _.
Global Arguments insertRows {_ _} _ _ _ _ _.
Global Arguments selectDataPoints {_ _} _ _ _ _ _.
Global Arguments encodeAllPoints {_ _} _ _ _.

End MemPart.

(** ** partition_list.go *)

Module PartList.

Definition error : Type := string.

(** The part of the [partition] interface the list calls. *)
Class Partition (P : Type) := {
  minTimestamp : P → Z;
  clean : P → option error
}.

(** A node lives in the heap, at an address. *)
Definition loc : Type := positive.

Record partitionNode (P : Type) := mkNode { val : P; next : option loc }.
Global Arguments mkNode {_} _ _.
Global Arguments val {_} _.
Global Arguments next {_} _.

Record partitionListImpl := mkList {
  numPartitions : Z;
  head : option loc;
  tail : option loc;
  headCache : option loc
}.

Section WithPartition.
Context {P : Type} `{Partition P}.

(** The heap of nodes, the list, and the partitions [clean] was called on,
    in the order of the calls. *)
Record state := mkState {
  heap : gmap loc (partitionNode P);
  lst : partitionListImpl;
  cleaned : list P
}.

Definition newPartitionList : state := mkState ∅ (mkList 0 None None None) [].

Definition samePartitions (x y : P) : bool :=
  minTimestamp x =? minTimestamp y.

Definition size (st : state) : Z := numPartitions (lst st).

(** [&partitionNode{...}]: the node is stored at an address not in use. *)
Definition alloc (st : state) (node : partitionNode P) : loc * state :=
  let l := fresh (dom (heap st)) in
  (l, mkState (<[l := node]> (heap st)) (lst st) (cleaned st)).

(** [iterator.current]: the dummy node of [newIterator], which is no node of
    the heap, a node, or nil. *)
Inductive cursor :=
| CDummy (next : option loc)
| CNode (l : loc)
| CNil.

Definition cursorOf (p : option loc) : cursor :=
  match p with Some l => CNode l | None => CNil end.

Definition newIterator (st : state) : cursor := CDummy (head (lst st)).

(** [iterator.next()]; [None] is a nil dereference. *)
Definition iteratorNext (st : state) (it : cursor) : option (bool * cursor) :=
  match it with
  | CNil => Some (false, CNil)
  | CDummy nx => Some (bool_decide (is_Some nx), cursorOf nx)
  | CNode l =>
      node ← heap st !! l;
      Some (bool_decide (is_Some (next node)), cursorOf (next node))
  end.

(** [iterator.currentNode()] *)
Definition currentNode (it : cursor) : option loc :=
  match it with CNode l => Some l | _ => None end.

(** [iterator.value()]: nil on a nil cursor; the dummy node holds no
    partition. *)
Definition iteratorValue (st : state) (it : cursor) : option (option P) :=
  match it with
  | CNil => Some None
  | CDummy _ => Some None
  | CNode l => node ← heap st !! l; Some (Some (val node))
  end.

Definition setHead (st : state) (node : option loc) : state :=
  mkState (heap st)
          (mkList (numPartitions (lst st)) node (tail (lst st)) node)
          (cleaned st).

Definition setTail (st : state) (node : option loc) : state :=
  mkState (heap st)
          (mkList (numPartitions (lst st)) (head (lst st)) node
                  (headCache (lst st)))
          (cleaned st).

Definition storeHeadCache (st : state) (node : option loc) : state :=
  mkState (heap st)
          (mkList (numPartitions (lst st)) (head (lst st)) (tail (lst st)) node)
          (cleaned st).

Definition addNumPartitions (st : state) (d : Z) : state :=
  mkState (heap st)
          (mkList (numPartitions (lst st) + d) (head (lst st))
                  (tail (lst st)) (headCache (lst st)))
          (cleaned st).

(** [node.setNext(nx)] *)
Definition setNext (st : state) (node : loc) (nx : option loc) : option state :=
  n ← heap st !! node;
  Some (mkState (<[node := mkNode (val n) nx]> (heap st)) (lst st) (cleaned st)).

(** [p.clean()] *)
Definition callClean (st : state) (p : P) : state * option error :=
  (mkState (heap st) (lst st) (cleaned st ++ [p]), clean p).

(** [getHead]; the result is nil ([None]) on a list of size 0. *)
Definition getHead (st : state) : option (state * option P) :=
  if size st <=? 0 then Some (st, None)
  else
    match headCache (lst st) with
    | Some headNode => node ← heap st !! headNode; Some (st, Some (val node))
    | None =>
        match head (lst st) with
        | Some hd =>
            let st := storeHeadCache st (Some hd) in
            node ← heap st !! hd; Some (st, Some (val node))
        | None => Some (st, None)
        end
    end.

Definition insert (st : state) (partition : P) : state :=
  let node := mkNode partition None in
  let head := head (lst st) in
  let node := match head with
              | Some _ => mkNode (val node) head
              | None => node
              end in
  let '(node, st) := alloc st node in
  let st := setHead st (Some node) in
  addNumPartitions st 1.

(** The [switch] of [remove]. *)
Definition unlink (st : state) (prev next : option loc) : option state :=
  match prev, next with
  | None, _ => Some (setHead st next)
  | Some pv, None =>
      st ← setNext st pv None;
      Some (storeHeadCache (setTail st prev) None)
  | Some pv, Some _ => setNext st pv next
  end.

(** The loop of [remove]; [fuel] bounds the number of its turns, and [None]
    stands for a run without result: a nil dereference, or a walk longer
    than [fuel]. *)
Fixpoint removeLoop (fuel : nat) (st : state) (target : P)
    (prev : option loc) (it : cursor) : option (state * option error) :=
  match fuel with
  | O => None
  | S fuel =>
      '(ok, it) ← iteratorNext st it;
      if negb ok then Some (st, Some "the given partition was not found")
      else
        current ← currentNode it;
        node ← heap st !! current;
        if negb (samePartitions (val node) target)
        then removeLoop fuel st target (Some current) it
        else
          '(_, it) ← iteratorNext st it;
          let next := currentNode it in
          st ← unlink st prev next;
          let st := addNumPartitions st (-1) in
          let '(st, err) := callClean st (val node) in
          Some (st,
                (λ e, "failed to clean resources managed by partition to be removed: "
                      +:+ e) <$> err)
  end.

Definition remove (fuel : nat) (st : state) (target : P)
  : option (state * option error) :=
  if size st <=? 0 then Some (st, Some "empty partition")
  else removeLoop fuel st target None (newIterator st).

(** The [switch] of [swap]. *)
Definition relink (st : state) (prev next : option loc) (newNode : loc)
  : option state :=
  match prev, next with
  | None, _ => Some (setHead st (Some newNode))
  | Some pv, None =>
      st ← setNext st pv (Some newNode);
      Some (setTail st (Some newNode))
  | Some pv, Some _ => setNext st pv (Some newNode)
  end.

(** The loop of [swap], with [fuel] as in [removeLoop]. *)
Fixpoint swapLoop (fuel : nat) (st : state) (old new : P)
    (prev : option loc) (it : cursor) : option (state * option error) :=
  match fuel with
  | O => None
  | S fuel =>
      '(ok, it) ← iteratorNext st it;
      if negb ok then Some (st, Some "the given partition was not found")
      else
        current ← currentNode it;
        node ← heap st !! current;
        if negb (samePartitions (val node) old)
        then swapLoop fuel st old new (Some current) it
        else
          let '(newNode, st) := alloc st (mkNode new (next node)) in
          '(_, it) ← iteratorNext st it;
          let next := currentNode it in
          st ← relink st prev next newNode;
          Some (st, None)
  end.

Definition swap (fuel : nat) (st : state) (old new : P)
  : option (state * option error) :=
  if size st <=? 0 then Some (st, Some "empty partition")
  else swapLoop fuel st old new None (newIterator st).

End WithPartition.

Global Arguments state _ : clear implicits.

End PartList.


(** ** disk_partition.go *)

Module DiskPart.
Import Go.

(** The errors of [selectDataPoints]: the sentinel [ErrNoDataPoints], an
    error of a callee, and the sites where [fmt.Errorf] wraps one with
    [%w], each with what its message is built from. *)
Inductive error :=
| ErrNoDataPoints
| Callee (msg : string)
| Expired (cause : error)
| FailedToSeek (cause : error)
| FailedToGenerateDecoder (name dirPath : string) (cause : error)
| FailedToDecodePoint (name dirPath : string) (cause : error).

Record diskMetric := mkDiskMetric {
  Name : string;
  Offset : Z;
  MinTimestamp : Z;
  MaxTimestamp : Z;
  NumDataPoints : Z
}.

(** [meta]; [CreatedAt] is a time, kept as its [UnixNano]. *)
Record meta := mkMeta {
  metaMinTimestamp : Z;
  metaMaxTimestamp : Z;
  metaNumDataPoints : Z;
  Metrics : gmap string diskMetric;
  CreatedAt : Z
}.

(** The partition: the file descriptor is left out, nothing below reads
    it. *)
Record diskPartition := mkDisk {
  dirPath : string;
  d_meta : meta;
  mappedFile : list Z;
  retention : Z
}.

Definition minTimestamp (d : diskPartition) : Z := metaMinTimestamp (d_meta d).
Definition maxTimestamp (d : diskPartition) : Z := metaMaxTimestamp (d_meta d).
Definition size (d : diskPartition) : Z := metaNumDataPoints (d_meta d).
Definition active (d : diskPartition) : bool := false.

(** [insertRows]: no row is taken. *)
Definition insertRows (d : diskPartition) (rows : list MemPart.Row)
  : option (list MemPart.Row) * option string :=
  (None, Some "can't insert rows into disk partition").

(** [time.Since(t)] at the time [now]: a [Duration] that is off the range
    of [int64] is the largest or the least one. *)
Definition since (now t : Z) : Z := Z.max (- 2 ^ 63) (Z.min (2 ^ 63 - 1) (now - t)).

(** [expired()], at the time [now]. *)
Definition expired (d : diskPartition) (now : Z) : bool :=
  retention d <? since now (CreatedAt (d_meta d)).

Section Select.
Context `{SortSlice}.

(** The series decoder, whose source file is not part of the tree:
    [newSeriesDecoder] over the bytes of the mapped file from the offset
    on, and [decodePoint], which hands out the next point or an error. *)
Variable Decoder : Type.
Variable newSeriesDecoder : list Z → Decoder + string.
Variable decodePoint : Decoder → Decoder * (MemPart.DataPoint + string).

(** The loop of [selectDataPoints], [todo] turns of it. *)
Fixpoint decodeLoop (d : diskPartition) (name : string) (start end_ : Z)
    (todo : nat) (decoder : Decoder) (points : list MemPart.DataPoint)
  : list MemPart.DataPoint + error :=
  match todo with
  | O => inl points
  | S todo =>
      let '(decoder, r) := decodePoint decoder in
      match r with
      | inr err => inr (FailedToDecodePoint name (dirPath d) (Callee err))
      | inl point =>
          if MemPart.Timestamp point <? start
          then decodeLoop d name start end_ todo decoder points
          else if end_ <=? MemPart.Timestamp point then inl points
          else decodeLoop d name start end_ todo decoder (points ++ [point])
      end
  end.

(** [selectDataPoints] at the time [now]; [Seek] from the start of a
    [bytes.Reader] fails on a negative offset only.  The points returned
    are copies, with the timestamps and the values of those decoded. *)
Definition selectDataPoints (d : diskPartition) (now : Z) (metric : string)
    (labels : list Labels.Label) (start end_ : Z)
  : list MemPart.DataPoint + error :=
  if expired d now then inr (Expired ErrNoDataPoints)
  else
    let name := Labels.metricKey metric labels in
    match Metrics (d_meta d) !! name with
    | None => inr ErrNoDataPoints
    | Some mt =>
        if Offset mt <? 0
        then inr (FailedToSeek (Callee "bytes.Reader.Seek: negative position"))
        else
          match newSeriesDecoder (drop (Z.to_nat (Offset mt)) (mappedFile d)) with
          | inr err => inr (FailedToGenerateDecoder name (dirPath d) (Callee err))
          | inl decoder =>
              match decodeLoop d name start end_
                      (Z.to_nat (NumDataPoints mt)) decoder [] with
              | inr err => inr err
              | inl points =>
                  inl ((λ p, MemPart.mkPoint (MemPart.Timestamp p)
                                             (MemPart.Value p)) <$> points)
              end
          end
    end.

End Select.

End DiskPart.

(** * Part II: properties *)

(** ** Byte-wise string order *)

Section StringOrder.

Lemma ascii_compare_trans a b c :
  Ascii.compare a b = Lt → Ascii.compare b c = Lt → Ascii.compare a c = Lt.
Proof.
  unfold Ascii.compare. rewrite !N.compare_lt_iff. apply N.lt_trans.
Qed.

Lemma ascii_compare_refl c : Ascii.compare c c = Eq.
Proof. unfold Ascii.compare. apply N.compare_refl. Qed.

Lemma string_compare_refl s : String.compare s s = Eq.
Proof. induction s; simpl; [done|]. by rewrite ascii_compare_refl. Qed.

Lemma string_compare_trans s1 : ∀ s2 s3,
  String.compare s1 s2 = Lt → String.compare s2 s3 = Lt →
  String.compare s1 s3 = Lt.
Proof.
  induction s1 as [|a s1 IH]; intros [|b s2] [|c s3]; simpl; try done.
  destruct (Ascii.compare a b) eqn:Hab; try done;
    destruct (Ascii.compare b c) eqn:Hbc; try done; intros H1 H2.
  - apply Ascii.compare_eq_iff in Hab, Hbc. subst.
    rewrite ascii_compare_refl. eauto.
  - apply Ascii.compare_eq_iff in Hab. subst. by rewrite Hbc.
  - apply Ascii.compare_eq_iff in Hbc. subst. by rewrite Hab.
  - by rewrite (ascii_compare_trans _ _ _ Hab Hbc).
Qed.

Lemma string_ltb_asym s1 s2 : String.ltb s1 s2 = true → String.ltb s2 s1 = false.
Proof.
  unfold String.ltb. rewrite (String.compare_antisym s1 s2).
  by destruct (String.compare s2 s1).
Qed.

Lemma string_ltb_irrefl s : String.ltb s s = false.
Proof.
  unfold String.ltb. by rewrite string_compare_refl.
Qed.

Lemma string_ltb_trans s1 s2 s3 :
  String.ltb s1 s2 = true → String.ltb s2 s3 = true → String.ltb s1 s3 = true.
Proof.
  unfold String.ltb.
  destruct (String.compare s1 s2) eqn:H12; try done.
  destruct (String.compare s2 s3) eqn:H23; try done.
  by rewrite (string_compare_trans _ _ _ H12 H23).
Qed.

Lemma string_ltb_total s1 s2 :
  String.ltb s1 s2 = false → String.ltb s2 s1 = false → s1 = s2.
Proof.
  unfold String.ltb. rewrite (String.compare_antisym s1 s2).
  destruct (String.compare s2 s1) eqn:E; try done.
  apply String.compare_eq_iff in E. done.
Qed.

(** "not less" is transitive. *)
Lemma string_ltb_negtrans a b c :
  String.ltb b a = false → String.ltb c b = false → String.ltb c a = false.
Proof.
  intros Hba Hcb. destruct (String.ltb c a) eqn:Hca; [|done].
  destruct (String.ltb a b) eqn:Hab.
  - by rewrite (string_ltb_trans _ _ _ Hca Hab) in Hcb.
  - rewrite (string_ltb_total _ _ Hab Hba) in Hca. congruence.
Qed.

End StringOrder.

(** ** Insertion sort meets the contract of [sort.Slice] *)

Section InsertionSort.
Context {A : Type} (less : A → A → bool).

Lemma insertBack_perm x l : Go.insertBack less x l ≡ₚ x :: l.
Proof.
  induction l as [|y l IH]; simpl; [done|].
  destruct (less x y); [|done]. rewrite IH. apply perm_swap.
Qed.

Lemma insertionSort_perm l : Go.insertionSort less l ≡ₚ l.
Proof.
  unfold Go.insertionSort. etrans; [symmetry; apply Permutation_rev|].
  assert (G : ∀ acc, fold_left (λ s x, Go.insertBack less x s) l acc ≡ₚ l ++ acc).
  { induction l as [|x l IH]; intros acc; simpl; [done|].
    rewrite IH, insertBack_perm. by rewrite Permutation_middle. }
  rewrite G, app_nil_r. reflexivity.
Qed.

Hypothesis less_asym : ∀ a b, less a b = true → less b a = false.
Hypothesis less_negtrans :
  ∀ a b c, less b a = false → less c b = false → less c a = false.

(** The prefix, read backwards, is descending. *)
Let desc (a b : A) : Prop := less a b = false.

Lemma insertBack_sorted x l :
  StronglySorted desc l → StronglySorted desc (Go.insertBack less x l).
Proof.
  induction 1 as [|y l Hl IH Hy]; simpl.
  - repeat constructor.
  - destruct (less x y) eqn:Hxy.
    + constructor; [done|].
      rewrite insertBack_perm. constructor; [by apply less_asym | done].
    + constructor; [by constructor|].
      constructor; [done|].
      eapply Forall_impl; [exact Hy|]. intros z Hz. unfold desc in *. eauto.
Qed.

Lemma StronglySorted_rev_flip (R : relation A) l :
  StronglySorted R l → StronglySorted (flip R) (rev l).
Proof.
  induction 1 as [|y l Hl IH Hy]; simpl; [constructor|].
  apply StronglySorted_app_2; [|done | repeat constructor].
  intros x1 x2 Hx1 ->%list_elem_of_singleton.
  rewrite List.Forall_forall in Hy. apply Hy, in_rev. by apply list_elem_of_In.
Qed.

Lemma insertionSort_sorted l :
  StronglySorted (λ a b, less b a = false) (Go.insertionSort less l).
Proof.
  unfold Go.insertionSort.
  apply (StronglySorted_rev_flip desc).
  assert (G : ∀ acc, StronglySorted desc acc →
    StronglySorted desc (fold_left (λ s x, Go.insertBack less x s) l acc)).
  { induction l as [|x l IH]; intros acc Hacc; simpl; [done|].
    by apply IH, insertBack_sorted. }
  apply G. constructor.
Qed.

End InsertionSort.

(** What [sort.Slice] does on the short slices of the examples below. *)
#[local] Instance insertion_SortSlice : Go.SortSlice := {|
  Go.sort_Slice := @Go.insertionSort;
  Go.sort_Slice_perm := @insertionSort_perm;
  Go.sort_Slice_sorted := λ A less x Hasym Htrans,
      insertionSort_sorted less Hasym Htrans x
|}.

(** ** label.go: the byte layout of a metric key *)

Section StringFacts.

Lemma str_app_nil_l (b : string) : "" +:+ b = b.
Proof. reflexivity. Qed.

Lemma str_app_cons c (a b : string) : String c a +:+ b = String c (a +:+ b).
Proof. reflexivity. Qed.

Lemma str_app_assoc (a b c : string) : (a +:+ b) +:+ c = a +:+ (b +:+ c).
Proof. induction a; rewrite ?str_app_cons, ?str_app_nil_l; congruence. Qed.

Lemma str_app_nil_r (a : string) : a +:+ "" = a.
Proof. induction a; rewrite ?str_app_cons, ?str_app_nil_l; congruence. Qed.

Lemma str_app_inj (a a' b b' : string) :
  String.length a = String.length a' → a +:+ b = a' +:+ b' → a = a' ∧ b = b'.
Proof.
  revert a'. induction a as [|c a IH]; intros [|c' a']; simpl; try done.
  rewrite !str_app_cons. intros [= Hl] [= -> Happ].
  destruct (IH _ Hl Happ) as [-> ->]. done.
Qed.

Lemma substring_all (n : nat) (s : string) :
  (String.length s ≤ n)%nat → substring 0 n s = s.
Proof.
  revert n. induction s as [|c s IH]; intros [|n]; simpl; try done; try lia.
  intros Hn. rewrite IH; [done | lia].
Qed.

Lemma substring_length_le (n : nat) (s : string) :
  (String.length (substring 0 n s) ≤ n)%nat.
Proof.
  revert n. induction s as [|c s IH]; intros [|n]; simpl; try lia.
  specialize (IH n). lia.
Qed.

End StringFacts.

Section LabelBytes.
Import Labels.

(** A label is valid when neither its name nor its value is empty. *)
Definition valid (l : Label) : Prop := invalid (Name l) (Value l) = false.

(** A label fits when nothing of it would be truncated. *)
Definition fits (l : Label) : Prop :=
  len (Name l) <= maxLabelNameLen ∧ len (Value l) <= maxLabelValueLen.

(** Name order, as the [less] function of [marshalMetricName] has it. *)
Definition lessName (a b : Label) : bool := String.ltb (Name a) (Name b).

(** What the second loop appends for one label, and for all of them. *)
Definition labelBytes (l : Label) : string := emit "" l.

Definition allLabelBytes (ls : list Label) : string :=
  foldr (λ l acc, labelBytes l +:+ acc) "" ls.

Lemma emit_app out l : emit out l = out +:+ labelBytes l.
Proof.
  unfold labelBytes, emit, MarshalUint16.
  destruct (invalid _ _); [by rewrite str_app_nil_r|].
  by rewrite !str_app_assoc, !str_app_nil_l.
Qed.

Lemma fold_emit ls : ∀ out, fold_left emit ls out = out +:+ allLabelBytes ls.
Proof.
  induction ls as [|l ls IH]; intros out; simpl; [by rewrite str_app_nil_r|].
  by rewrite IH, emit_app, str_app_assoc.
Qed.

Lemma allLabelBytes_filter ls : allLabelBytes (filter valid ls) = allLabelBytes ls.
Proof.
  induction ls as [|l ls IH]; [done|].
  rewrite filter_cons. destruct (decide (valid l)) as [Hv|Hv]; simpl; [by rewrite IH|].
  rewrite IH. unfold labelBytes, emit. unfold valid in Hv.
  by destruct (invalid _ _).
Qed.

Lemma truncate_fits l : (valid l → fits l) → truncate l = l.
Proof.
  unfold truncate, valid, fits. destruct (invalid _ _); [done|].
  intros [Hn Hv]; [done|]. destruct l as [n v]; simpl in *.
  unfold len in *. repeat case_decide; try lia. done.
Qed.

Lemma truncate_valid l : valid (truncate l) ↔ valid l.
Proof.
  unfold truncate, valid. destruct (invalid (Name l) (Value l)) eqn:E; [by rewrite E|].
  simpl. split; [done|]. intros _.
  unfold invalid in *. apply orb_false_iff in E as [En Ev].
  apply bool_decide_eq_false in En, Ev.
  destruct l as [[|c n] [|d v]]; simpl in *; try done.
  by repeat case_decide.
Qed.

Lemma lessName_asym a b : lessName a b = true → lessName b a = false.
Proof. apply string_ltb_asym. Qed.

Lemma lessName_negtrans a b c :
  lessName b a = false → lessName c b = false → lessName c a = false.
Proof. apply string_ltb_negtrans. Qed.

Context `{Go.SortSlice}.

Lemma sorted_labels ls :
  StronglySorted (λ a b, lessName b a = false) (Go.sort_Slice lessName ls).
Proof. apply Go.sort_Slice_sorted; [apply lessName_asym | apply lessName_negtrans]. Qed.

(** The key of a non-empty label list, byte for byte. *)
Lemma metricKey_bytes m ls :
  ls ≠ [] →
  metricKey m ls =
    MarshalUint16 "" (uint16 (len m)) +:+ m +:+
    allLabelBytes (truncate <$> Go.sort_Slice lessName ls).
Proof.
  intros Hne. unfold metricKey, marshalMetricName.
  case_decide as Hl; [by destruct ls|]. simpl.
  by rewrite fold_emit, str_app_assoc.
Qed.

Lemma metricKey_nil m : metricKey m [] = m.
Proof. done. Qed.

End LabelBytes.

(** ** label.go: the key determines the metric and the labels *)

Section KeyInjective.
Import Labels.

Lemma byte_chr_inj (u v : Z) : byte_chr u = byte_chr v → u mod 256 = v mod 256.
Proof.
  unfold byte_chr. intros Heq.
  assert (Hu := Z.mod_pos_bound u 256 eq_refl).
  assert (Hv := Z.mod_pos_bound v 256 eq_refl).
  apply (f_equal N_of_ascii) in Heq.
  rewrite !N_ascii_embedding in Heq by lia. lia.
Qed.

Lemma MarshalUint16_inj (u v : Z) (a b : string) :
  0 <= u < 65536 → 0 <= v < 65536 →
  MarshalUint16 "" u +:+ a = MarshalUint16 "" v +:+ b → u = v ∧ a = b.
Proof.
  unfold MarshalUint16. rewrite !str_app_nil_l, !str_app_cons, !str_app_nil_l.
  intros Hu Hv [= Hhi%byte_chr_inj Hlo%byte_chr_inj ->]. split; [|done].
  rewrite (Z.div_mod u 256), (Z.div_mod v 256) by lia.
  rewrite !Z.mod_small in Hhi by (split; [apply Z.div_pos | apply Z.div_lt_upper_bound]; lia).
  lia.
Qed.

Lemma len_nonneg s : 0 <= len s.
Proof. unfold len. lia. Qed.

Lemma len_inj_length s t : len s = len t → String.length s = String.length t.
Proof. unfold len. lia. Qed.

Lemma uint16_small s : len s < 65536 → uint16 (len s) = len s.
Proof. intros Hn. unfold uint16. apply Z.mod_small. pose proof (len_nonneg s). lia. Qed.

Lemma uint16_range (n : Z) : 0 <= uint16 n < 65536.
Proof. unfold uint16. apply Z.mod_pos_bound. lia. Qed.

Lemma labelBytes_valid l :
  valid l →
  labelBytes l =
    MarshalUint16 "" (uint16 (len (Name l))) +:+ Name l +:+
    MarshalUint16 "" (uint16 (len (Value l))) +:+ Value l.
Proof.
  unfold valid, labelBytes, emit, MarshalUint16. intros ->.
  by rewrite !str_app_assoc, !str_app_nil_l.
Qed.

Lemma fits_lengths l :
  fits l → len (Name l) < 65536 ∧ len (Value l) < 65536.
Proof. unfold fits, maxLabelNameLen, maxLabelValueLen. lia. Qed.

Lemma labelBytes_inj l l' r r' :
  valid l → valid l' → fits l → fits l' →
  labelBytes l +:+ r = labelBytes l' +:+ r' → l = l' ∧ r = r'.
Proof.
  intros Hv Hv' [Hn Hvl]%fits_lengths [Hn' Hvl']%fits_lengths.
  rewrite !labelBytes_valid, !str_app_assoc by done.
  intros [Hln Hrest]%MarshalUint16_inj; try apply uint16_range.
  rewrite !uint16_small in Hln by done.
  apply str_app_inj in Hrest as [Hname Hrest]; [|by apply len_inj_length].
  apply MarshalUint16_inj in Hrest as [Hlv Hrest]; try apply uint16_range.
  rewrite !uint16_small in Hlv by done.
  apply str_app_inj in Hrest as [Hvalue Hrest]; [|by apply len_inj_length].
  destruct l, l'; simpl in *. by subst.
Qed.

Lemma labelBytes_nonempty l r : valid l → labelBytes l +:+ r ≠ "".
Proof.
  intros Hv. rewrite labelBytes_valid by done. unfold MarshalUint16.
  by rewrite !str_app_nil_l, !str_app_cons.
Qed.

Lemma allLabelBytes_inj ls : ∀ ls',
  Forall (λ l, valid l ∧ fits l) ls → Forall (λ l, valid l ∧ fits l) ls' →
  allLabelBytes ls = allLabelBytes ls' → ls = ls'.
Proof.
  induction ls as [|l ls IH]; intros [|l' ls'] Hls Hls'; simpl; try done.
  - intros Heq. symmetry in Heq. apply labelBytes_nonempty in Heq; [done|].
    by apply Forall_cons in Hls' as [[? _] _].
  - intros Heq. apply labelBytes_nonempty in Heq; [done|].
    by apply Forall_cons in Hls as [[? _] _].
  - apply Forall_cons in Hls as [[Hv Hf] Hls].
    apply Forall_cons in Hls' as [[Hv' Hf'] Hls'].
    intros [-> Hrest]%labelBytes_inj; try done. f_equal. by apply IH.
Qed.

(** Two name-sorted lists with the same elements and no repeated name are the
    same list: with distinct names the outcome of [sort.Slice] does not depend
    on the order of its input, nor on the sorting algorithm. *)
Lemma sorted_names_unique (l1 : list Label) : ∀ l2,
  StronglySorted (λ a b, lessName b a = false) l1 →
  StronglySorted (λ a b, lessName b a = false) l2 →
  l1 ≡ₚ l2 → NoDup (Name <$> l1) → l1 = l2.
Proof.
  induction l1 as [|x l1 IH]; intros l2 H1 H2 Hp Hnd.
  - by apply Permutation_nil_l in Hp.
  - destruct l2 as [|y l2]; [by apply Permutation_nil_r in Hp|].
    apply StronglySorted_inv in H1 as [H1 Hx].
    apply StronglySorted_inv in H2 as [H2 Hy].
    apply NoDup_cons in Hnd as [Hxn Hnd].
    assert (x = y) as ->.
    { assert (Hxin : x ∈ y :: l2) by (rewrite <- Hp; left).
      assert (Hyin : y ∈ x :: l1) by (rewrite Hp; left).
      apply elem_of_cons in Hxin as [?|Hxin]; [done|].
      apply elem_of_cons in Hyin as [?|Hyin]; [done|].
      rewrite List.Forall_forall in Hx, Hy.
      apply list_elem_of_In in Hxin, Hyin.
      specialize (Hx _ Hyin). specialize (Hy _ Hxin). simpl in *.
      exfalso. apply Hxn. rewrite (string_ltb_total _ _ Hy Hx).
      apply list_elem_of_fmap. exists y. split; [done|]. by apply list_elem_of_In. }
    f_equal. apply IH; try done. by apply Permutation_cons_inv in Hp.
Qed.

Lemma StronglySorted_filter {A} (R : relation A) (P : A → Prop)
    `{∀ x, Decision (P x)} l :
  StronglySorted R l → StronglySorted R (filter P l).
Proof.
  induction 1 as [|x l Hl IH Hx]; [constructor|].
  rewrite filter_cons. case_decide; [|done].
  constructor; [done|]. rewrite List.Forall_forall in *.
  intros y Hy%list_elem_of_In%list_elem_of_filter. apply Hx, list_elem_of_In, Hy.
Qed.

End KeyInjective.

(** ** label.go: identity of series keys (C1) and the in-place effect (C10) *)

Section MetricKey.
Import Labels.
Context `{Go.SortSlice}.

Lemma filter_truncate (ls : list Label) :
  filter valid (truncate <$> ls) = truncate <$> filter valid ls.
Proof.
  induction ls as [|l ls IH]; [done|]. rewrite fmap_cons, !filter_cons.
  destruct (decide (valid l)) as [Hv|Hv].
  - rewrite decide_True by (by apply truncate_valid). by rewrite fmap_cons, IH.
  - rewrite decide_False by (by rewrite truncate_valid). done.
Qed.

Lemma sorted_valid_perm (ls : list Label) :
  filter valid (Go.sort_Slice lessName ls) ≡ₚ filter valid ls.
Proof. by rewrite Go.sort_Slice_perm. Qed.

(** With distinct names among the valid labels, the valid labels come out of
    the sort in one order only. *)
Lemma sorted_valid_unique (L1 L2 : list Label) :
  filter valid L1 ≡ₚ filter valid L2 →
  NoDup (Name <$> filter valid L1) →
  filter valid (Go.sort_Slice lessName L1) = filter valid (Go.sort_Slice lessName L2).
Proof.
  intros Hp Hnd. apply sorted_names_unique.
  - apply StronglySorted_filter, sorted_labels.
  - apply StronglySorted_filter, sorted_labels.
  - by rewrite !sorted_valid_perm.
  - by rewrite sorted_valid_perm.
Qed.

Lemma truncate_fits_all (ls : list Label) :
  Forall (λ l, valid l → fits l) ls → truncate <$> ls = ls.
Proof.
  induction 1 as [|l ls Hl Hls IH]; [done|].
  by rewrite fmap_cons, IH, truncate_fits.
Qed.

Lemma key_bytes_of_valid (ls : list Label) :
  allLabelBytes (truncate <$> Go.sort_Slice lessName ls) =
  allLabelBytes (truncate <$> filter valid (Go.sort_Slice lessName ls)).
Proof. by rewrite <- filter_truncate, allLabelBytes_filter. Qed.

End MetricKey.

(** C1, as amended.  For metric names shorter than 65536 bytes and label lists
    that are both empty or both non-empty, whose valid labels (non-empty name
    and value) have pairwise distinct names, names of at most 256 bytes and
    values of at most 16384 bytes: the keys are equal if and only if the
    metrics are equal and the lists hold the same valid labels; and the key of
    a list equals the key of each of its permutations. *)
Theorem metricKey_identity `{Go.SortSlice} (m1 m2 : string) (L1 L2 : list Labels.Label) :
  (L1 = [] ↔ L2 = []) →
  Labels.len m1 < 65536 → Labels.len m2 < 65536 →
  Forall (λ l, valid l → fits l) L1 → Forall (λ l, valid l → fits l) L2 →
  NoDup (Labels.Name <$> filter valid L1) → NoDup (Labels.Name <$> filter valid L2) →
  (Labels.metricKey m1 L1 = Labels.metricKey m2 L2 ↔
     m1 = m2 ∧ ∀ l, valid l → (l ∈ L1 ↔ l ∈ L2))
  ∧ (∀ P, P ≡ₚ L1 → Labels.metricKey m1 P = Labels.metricKey m1 L1).
Proof.
  intros Hnil Hm1 Hm2 Hf1 Hf2 Hnd1 Hnd2. split; [split|].
  - (* equal keys: same metric, same valid labels *)
    intros Hkey. destruct (decide (L1 = [])) as [E1|N1].
    { pose proof (proj1 Hnil E1) as E2. subst. by rewrite !metricKey_nil in Hkey. }
    assert (N2 : L2 ≠ []) by (intros E2; by apply N1, Hnil).
    rewrite !metricKey_bytes in Hkey by done.
    apply MarshalUint16_inj in Hkey as [Hlen Hkey]; try apply uint16_range.
    rewrite !uint16_small in Hlen by done.
    apply str_app_inj in Hkey as [-> Hkey]; [|by apply len_inj_length].
    split; [done|].
    rewrite !truncate_fits_all in Hkey
      by (by rewrite Go.sort_Slice_perm).
    rewrite <- (allLabelBytes_filter (Go.sort_Slice _ L1)),
            <- (allLabelBytes_filter (Go.sort_Slice _ L2)) in Hkey.
    apply allLabelBytes_inj in Hkey.
    + intros l Hl.
      rewrite <- (Go.sort_Slice_perm _ lessName L1), <- (Go.sort_Slice_perm _ lessName L2).
      split; intros Hin.
      * assert (l ∈ filter valid (Go.sort_Slice lessName L1))
          by (by apply list_elem_of_filter).
        rewrite Hkey in *. by eapply list_elem_of_filter.
      * assert (l ∈ filter valid (Go.sort_Slice lessName L2))
          by (by apply list_elem_of_filter).
        rewrite <- Hkey in *. by eapply list_elem_of_filter.
    + apply Forall_forall. intros l [Hv Hin]%list_elem_of_filter. split; [done|].
      rewrite Go.sort_Slice_perm in Hin. rewrite Forall_forall in Hf1. eauto.
    + apply Forall_forall. intros l [Hv Hin]%list_elem_of_filter. split; [done|].
      rewrite Go.sort_Slice_perm in Hin. rewrite Forall_forall in Hf2. eauto.
  - (* same metric, same valid labels: equal keys *)
    intros [-> Hsame]. destruct (decide (L1 = [])) as [E1|N1].
    { pose proof (proj1 Hnil E1) as E2. by subst. }
    assert (N2 : L2 ≠ []) by (intros E2; by apply N1, Hnil).
    rewrite !metricKey_bytes by done. do 2 f_equal.
    rewrite !key_bytes_of_valid. do 2 f_equal.
    apply sorted_valid_unique; [|done].
    apply NoDup_Permutation.
    + by apply NoDup_fmap_1 in Hnd1.
    + by apply NoDup_fmap_1 in Hnd2.
    + intros l. rewrite !list_elem_of_filter.
      split; intros [Hv Hin]; (split; [done|]); by apply (Hsame l Hv).
  - (* permutations *)
    intros P HP. destruct (decide (L1 = [])) as [->|N1].
    { by apply Permutation_nil_r in HP as ->. }
    assert (NP : P ≠ []) by (intros ->; by apply Permutation_nil_l in HP).
    rewrite !metricKey_bytes by done. do 2 f_equal.
    rewrite !key_bytes_of_valid. do 2 f_equal.
    apply sorted_valid_unique; by rewrite HP.
Qed.

Lemma metricKey_identity_witness :
  let L1 := [Labels.mkLabel "host" "a"; Labels.mkLabel "region" "b"] in
  let L2 := [Labels.mkLabel "region" "b"; Labels.mkLabel "host" "a"] in
  (Labels.metricKey "cpu" L1 = Labels.metricKey "cpu" L2 ↔
     "cpu" = "cpu" ∧ ∀ l, valid l → (l ∈ L1 ↔ l ∈ L2))
  ∧ (∀ P, P ≡ₚ L1 → Labels.metricKey "cpu" P = Labels.metricKey "cpu" L1).
Proof.
  intros L1 L2.
  apply (metricKey_identity (H := insertion_SortSlice) "cpu" "cpu" L1 L2).
  - split; intros; discriminate.
  - reflexivity.
  - reflexivity.
  - repeat (constructor; [intros _; split; vm_compute; discriminate|]); constructor.
  - repeat (constructor; [intros _; split; vm_compute; discriminate|]); constructor.
  - vm_compute. repeat constructor; rewrite ?elem_of_cons, ?elem_of_nil; intuition discriminate.
  - vm_compute. repeat constructor; rewrite ?elem_of_cons, ?elem_of_nil; intuition discriminate.
Defined.

(** C1 fails as stated.  With no labels the key is the bare metric name, so
    an empty list and a list holding only an invalid label give different
    keys for one label set; and [sort.Slice] keeps two labels of one name in
    the order it met them, so a permutation changes the key. *)
Lemma metricKey_identity_counterexample :
  let none := [] in
  let blank := [Labels.mkLabel "" ""] in
  let a1 := Labels.mkLabel "a" "1" in
  let a2 := Labels.mkLabel "a" "2" in
  (Labels.metricKey "m" none ≠ Labels.metricKey "m" blank
   ∧ ∀ l, valid l → (l ∈ none ↔ l ∈ blank))
  ∧ ([a2; a1] ≡ₚ [a1; a2]
     ∧ Labels.metricKey "m" [a2; a1] ≠ Labels.metricKey "m" [a1; a2]).
Proof.
  repeat split; try discriminate.
  - intros Hin. by apply elem_of_nil in Hin.
  - intros ->%list_elem_of_singleton. discriminate.
  - apply perm_swap.
Qed.

(** The keys of the counterexample, spelled out. *)
Example metricKey_no_labels : Labels.metricKey "m" [] = "m".
Proof. reflexivity. Qed.

Example metricKey_blank_label :
  Labels.metricKey "m" [Labels.mkLabel "" ""] = String "000" (String "001" "m").
Proof. reflexivity. Qed.

Example metricKey_two_labels :
  Labels.metricKey "m" [Labels.mkLabel "b" "2"; Labels.mkLabel "a" "1"] =
  String "000" (String "001" ("m" +:+
    String "000" (String "001" ("a" +:+ String "000" (String "001" ("1" +:+
    String "000" (String "001" ("b" +:+ String "000" (String "001" "2"))))))))).
Proof. reflexivity. Qed.

(** C10, as amended.  After the call the caller's slice holds its labels
    sorted by name, each valid label (non-empty name and value) cut to the
    first 256 bytes of its name and the first 16384 bytes of its value; a
    label with an empty name or an empty value is moved by the sort but never
    truncated. *)
Theorem marshalMetricName_mutates_labels `{Go.SortSlice}
    (metric : string) (labels : list Labels.Label) :
  ∃ sorted,
    sorted ≡ₚ labels
    ∧ StronglySorted (λ a b, String.ltb (Labels.Name b) (Labels.Name a) = false) sorted
    ∧ (Labels.marshalMetricName metric labels).2 = Labels.truncate <$> sorted
    ∧ ∀ l, (valid l →
              Labels.Name (Labels.truncate l)
                = Labels.prefix (Labels.Name l) Labels.maxLabelNameLen
              ∧ Labels.Value (Labels.truncate l)
                = Labels.prefix (Labels.Value l) Labels.maxLabelValueLen
              ∧ Labels.len (Labels.Name (Labels.truncate l)) <= Labels.maxLabelNameLen
              ∧ Labels.len (Labels.Value (Labels.truncate l)) <= Labels.maxLabelValueLen)
           ∧ (¬ valid l → Labels.truncate l = l).
Proof.
  exists (Go.sort_Slice lessName labels). split; [apply Go.sort_Slice_perm|].
  split; [apply sorted_labels|]. split.
  - unfold Labels.marshalMetricName. case_decide as Hl; [|done].
    destruct labels; [|done]. simpl.
    pose proof (Go.sort_Slice_perm _ lessName (@nil Labels.Label)) as Hp.
    by apply Permutation_nil_r in Hp as ->.
  - intros l. unfold valid, Labels.truncate.
    destruct (Labels.invalid _ _); split; try done. intros _. simpl.
    unfold Labels.prefix, Labels.len.
    pose proof (substring_length_le (Z.to_nat Labels.maxLabelNameLen) (Labels.Name l)).
    pose proof (substring_length_le (Z.to_nat Labels.maxLabelValueLen) (Labels.Value l)).
    unfold Labels.maxLabelNameLen, Labels.maxLabelValueLen in *.
    repeat case_decide; repeat split; try done.
    all: try (symmetry; apply substring_all).
    all: lia.
Qed.

(** C10 fails as stated: a name of 257 bytes on a label with an empty value
    is still 257 bytes long after the call. *)
Lemma marshalMetricName_long_invalid_label :
  let long := string_of_list_ascii (replicate 257 "a"%char) in
  let labels := [Labels.mkLabel long ""] in
  Labels.len long = 257
  ∧ (Labels.marshalMetricName "m" labels).2 = labels.
Proof. split; vm_compute; reflexivity. Qed.

(** ** bstream.go: arithmetic of the bit operations *)

Section BitArith.

Lemma pow2_pos (k : Z) : 0 <= k → 0 < 2 ^ k.
Proof. intros. by apply Z.pow_pos_nonneg. Qed.

Lemma pow2_split (a b : Z) : 0 <= a <= b → 2 ^ b = 2 ^ (b - a) * 2 ^ a.
Proof. intros. rewrite <- Z.pow_add_r by lia. f_equal. lia. Qed.

(** Two numbers with no bit in common: [|] adds them. *)
Lemma lor_disjoint (q b k : Z) :
  0 <= k → 0 <= b < 2 ^ k → Z.lor (q * 2 ^ k) b = q * 2 ^ k + b.
Proof.
  intros Hk Hb. rewrite <- Z.add_lor_land.
  assert (Z.land (q * 2 ^ k) b = 0) as ->; [|lia].
  apply Z.bits_inj'. intros n Hn. rewrite Z.land_spec, Z.bits_0.
  destruct (Z.lt_ge_cases n k).
  - by rewrite Z.mul_pow2_bits_low.
  - rewrite <- (Z.mod_small b (2 ^ k)) by done.
    rewrite Z.mod_pow2_bits_high by lia. apply andb_false_r.
Qed.

Lemma div_high (hi lo k : Z) :
  0 <= k → 0 <= lo < 2 ^ k → (hi * 2 ^ k + lo) / 2 ^ k = hi.
Proof.
  intros Hk Hlo. symmetry. apply (Z.div_unique _ _ _ lo); [by left | lia].
Qed.

Lemma mod_low (hi lo k : Z) :
  0 <= k → 0 <= lo < 2 ^ k → (hi * 2 ^ k + lo) mod 2 ^ k = lo.
Proof.
  intros Hk Hlo. symmetry. apply (Z.mod_unique _ _ hi); [by left | lia].
Qed.

Lemma div_mul_pow2 (w a b : Z) :
  0 <= a <= b → (w * 2 ^ a) / 2 ^ b = w / 2 ^ (b - a).
Proof.
  intros Hab. rewrite (pow2_split a b) by done.
  apply Z.div_mul_cancel_r; apply Z.neq_sym, Z.lt_neq, pow2_pos; lia.
Qed.

Lemma mod_mul_pow2 (w a b : Z) :
  0 <= a <= b → (w * 2 ^ a) mod 2 ^ b = (w mod 2 ^ (b - a)) * 2 ^ a.
Proof.
  intros Hab. rewrite (pow2_split a b) by done.
  apply Z.mul_mod_distr_r; apply Z.neq_sym, Z.lt_neq, pow2_pos; lia.
Qed.

Lemma div_pow2_bound (w n k : Z) :
  0 <= k <= n → 0 <= w < 2 ^ n → 0 <= w / 2 ^ k < 2 ^ (n - k).
Proof.
  intros Hk Hw. pose proof (pow2_pos k). split.
  - apply Z.div_pos; lia.
  - apply Z.div_lt_upper_bound; [lia|]. rewrite Z.mul_comm, <- pow2_split; lia.
Qed.

Lemma mod_pow2_bound (w k : Z) : 0 <= k → 0 <= w mod 2 ^ k < 2 ^ k.
Proof. intros. apply Z.mod_pos_bound, pow2_pos. lia. Qed.

(** The mask [(1 << n) - 1], for [n] up to the width, keeps the low [n]
    bits. *)
Lemma land_mask64 (x n : Z) :
  0 <= n <= 64 → 0 <= x < 2 ^ 64 →
  Z.land x (Bstream.wrap64 (Bstream.shl64 1 n - 1)) = x mod 2 ^ n.
Proof.
  intros Hn Hx. unfold Bstream.shl64, Bstream.wrap64.
  destruct (Z.ltb_spec n 64).
  - rewrite Z.shiftl_mul_pow2, Z.mul_1_l by lia.
    assert (2 ^ n < 2 ^ 64) by (apply Z.pow_lt_mono_r; lia).
    pose proof (pow2_pos n).
    rewrite (Z.mod_small (2 ^ n)), (Z.mod_small (2 ^ n - 1)) by lia.
    rewrite <- Z.land_ones by lia. by rewrite Z.ones_equiv, <- Z.sub_1_r.
  - assert (n = 64) as -> by lia.
    change ((0 - 1) mod 2 ^ 64) with (Z.ones 64).
    rewrite Z.land_ones by lia. done.
Qed.

Lemma shr64_div (x c : Z) : 0 <= c < 64 → Bstream.shr64 x c = x / 2 ^ c.
Proof.
  intros Hc. unfold Bstream.shr64. destruct (Z.ltb_spec c 64); [|lia].
  apply Z.shiftr_div_pow2. lia.
Qed.

Lemma shl64_mul (x c : Z) :
  0 <= c < 64 → Bstream.shl64 x c = (x * 2 ^ c) mod 2 ^ 64.
Proof.
  intros Hc. unfold Bstream.shl64, Bstream.wrap64.
  destruct (Z.ltb_spec c 64); [|lia]. by rewrite Z.shiftl_mul_pow2 by lia.
Qed.

End BitArith.

(** ** bstream.go: what the writer has written *)

Section Writer.
Import Go Bstream.

(** The bytes of a stream read as one big-endian number. *)
Definition be (l : list Z) : Z := foldl (λ a x, a * 256 + x) 0 l.

Definition isBytes (l : list Z) : Prop := Forall (λ x, 0 <= x < 256) l.

(** The writer holds the number [V] in its first [bitlen] bits; the [count]
    free bits of the last byte are zero. *)
Definition bitlen (b : bstream) : Z := 8 * len (stream b) - count b.

Definition written (b : bstream) (V : Z) : Prop :=
  isBytes (stream b) ∧ 0 <= count b <= 8 ∧ (stream b = [] → count b = 0)
  ∧ be (stream b) = V * 2 ^ count b.

Lemma be_snoc l x : be (l ++ [x]) = be l * 256 + x.
Proof. unfold be. by rewrite foldl_app. Qed.

Lemma len_app {A} (l k : list A) : len (l ++ k) = len l + len k.
Proof. unfold len. rewrite length_app. lia. Qed.

Lemma len_nonneg' {A} (l : list A) : 0 <= len l.
Proof. unfold len. lia. Qed.

Lemma be_app l k : be (l ++ k) = be l * 2 ^ (8 * len k) + be k.
Proof.
  induction k as [|x k IH] using rev_ind.
  - rewrite app_nil_r. change (be []) with 0. change (len []) with 0. simpl. lia.
  - rewrite app_assoc, !be_snoc, IH, len_app.
    change (len [x]) with 1. pose proof (len_nonneg' k).
    replace (8 * (len k + 1)) with (8 * len k + 8) by lia.
    rewrite Z.pow_add_r by lia. change (2 ^ 8) with 256. lia.
Qed.

Lemma be_bound l : isBytes l → 0 <= be l < 2 ^ (8 * len l).
Proof.
  induction l as [|x l IH] using rev_ind; intros Hl.
  - by vm_compute.
  - apply Forall_app in Hl as [Hl Hx%Forall_inv].
    specialize (IH Hl). rewrite be_snoc, len_app. change (len [x]) with 1.
    pose proof (len_nonneg' l).
    replace (8 * (len l + 1)) with (8 * len l + 8) by lia.
    rewrite Z.pow_add_r by lia. change (2 ^ 8) with 256. lia.
Qed.

Lemma index_last {A} (init : list A) (B : A) :
  Go.index (init ++ [B]) (len (init ++ [B]) - 1) = Some B.
Proof.
  unfold Go.index. rewrite len_app. change (len [B]) with 1.
  pose proof (len_nonneg' init).
  destruct (Z.ltb_spec (len init + 1 - 1) 0); [lia|].
  apply list_lookup_middle. unfold len. lia.
Qed.

Lemma insert_last (init : list Z) (B v : Z) :
  <[Z.to_nat (len (init ++ [B]) - 1) := v]> (init ++ [B]) = init ++ [v].
Proof.
  rewrite len_app. change (len [B]) with 1.
  replace (Z.to_nat (len init + 1 - 1)) with (length init + 0)%nat
    by (unfold len; lia).
  by rewrite insert_app_r.
Qed.

Lemma orAt_last init B v :
  orAt (init ++ [B]) (len (init ++ [B]) - 1) v = Some (init ++ [Z.lor B v]).
Proof. unfold orAt. rewrite index_last. simpl. by rewrite insert_last. Qed.

Lemma setAt_last init B v :
  setAt (init ++ [B]) (len (init ++ [B]) - 1) v = Some (init ++ [v]).
Proof. unfold setAt. rewrite index_last. simpl. by rewrite insert_last. Qed.

(** After the prologue the last byte exists, is a multiple of [2 ^ count],
    and [count] is between 1 and 8. *)
Lemma grow_written b V :
  written b V →
  ∃ init q,
    stream (grow b) = init ++ [q * 2 ^ count (grow b)]
    ∧ isBytes init ∧ 0 <= q * 2 ^ count (grow b) < 256
    ∧ 1 <= count (grow b) <= 8
    ∧ be init * 256 + q * 2 ^ count (grow b) = V * 2 ^ count (grow b)
    ∧ bitlen (grow b) = bitlen b.
Proof.
  intros (Hb & Hc & Hnil & Hbe). unfold grow, bitlen.
  destruct (Z.eqb_spec (count b) 0) as [E|E]; simpl.
  - exists (stream b), 0. rewrite E in Hbe. simpl in *.
    rewrite len_app. change (len [0]) with 1. repeat split; try done; lia.
  - destruct (stream b) as [|x l] eqn:Es using rev_ind; [by specialize (Hnil eq_refl)|].
    clear IHl. apply Forall_app in Hb as [Hl Hx%Forall_inv].
    rewrite be_snoc in Hbe.
    assert (Hp : 256 = 2 ^ (8 - count b) * 2 ^ count b)
      by (rewrite <- (pow2_split (count b) 8); [done | lia]).
    exists l, (V - be l * 2 ^ (8 - count b)).
    assert (x = (V - be l * 2 ^ (8 - count b)) * 2 ^ count b) as Hx'
      by (rewrite Z.mul_sub_distr_r, <- Z.mul_assoc, <- Hp; lia).
    rewrite <- Hx'. repeat split; try done; lia.
Qed.

Lemma wrap8_small x : 0 <= x < 256 → wrap8 x = x.
Proof. intros. unfold wrap8. by apply Z.mod_small. Qed.

Lemma shr8_div x c : 0 <= c < 8 → shr8 x c = x / 2 ^ c.
Proof.
  intros. unfold shr8. destruct (Z.ltb_spec c 8); [|lia].
  apply Z.shiftr_div_pow2. lia.
Qed.

Lemma shl8_mul x c : 0 <= c < 8 → shl8 x c = (x * 2 ^ c) mod 256.
Proof.
  intros. unfold shl8, wrap8. destruct (Z.ltb_spec c 8); [|lia].
  by rewrite Z.shiftl_mul_pow2 by lia.
Qed.

(** Case analysis on the number of free bits, which makes every power of two
    a numeral. *)
Ltac free_bits c :=
  let H := fresh "Hcases" in
  assert (c = 1 ∨ c = 2 ∨ c = 3 ∨ c = 4 ∨ c = 5 ∨ c = 6 ∨ c = 7 ∨ c = 8)
    as H by lia;
  repeat (destruct H as [H|H]); subst c.

Lemma writeBit_written b V bit :
  written b V →
  ∃ b', writeBit b bit = Some b'
        ∧ written b' (2 * V + Z.b2z bit) ∧ bitlen b' = bitlen b + 1.
Proof.
  intros Hw.
  destruct (grow_written b V Hw) as (init & q & Hs & Hinit & Hq & Hc & Hbe & Hlen).
  unfold writeBit. destruct (grow b) as [s c]. unfold bitlen in *. simpl in *.
  subst s. rewrite len_app in Hlen. change (len [_]) with 1 in Hlen.
  rewrite (wrap8_small (c - 1)) by lia.
  assert (Hlast : 0 <= 2 ^ (c - 1) < 2 ^ c)
    by (split; [apply Z.pow_nonneg; lia | apply Z.pow_lt_mono_r; lia]).
  destruct bit; simpl.
  - rewrite orAt_last. simpl. eexists. split; [done|].
    rewrite shl8_mul, Z.mul_1_l by lia.
    rewrite (Z.mod_small (2 ^ (c - 1))), lor_disjoint; try lia.
    2:{ split; [lia|]. change 256 with (2 ^ 8). apply Z.pow_lt_mono_r; lia. }
    unfold written, bitlen in *. simpl. rewrite be_snoc, !len_app in *.
    change (len [_]) with 1 in *.
    repeat split; try lia.
    + apply Forall_app. split; [done|]. constructor; [|constructor].
      free_bits c; simpl in *; lia.
    + intros [_ ?]%app_nil; done.
    + free_bits c; simpl in *; lia.
  - eexists. split; [done|].
    unfold written, bitlen in *. simpl. rewrite be_snoc, !len_app in *.
    change (len [_]) with 1 in *.
    repeat split; try lia.
    + apply Forall_app. split; [done|]. by constructor.
    + intros [_ ?]%app_nil; done.
    + free_bits c; simpl in *; lia.
Qed.

Lemma writeByte_written b V byt :
  0 <= byt < 256 → written b V →
  ∃ b', writeByte b byt = Some b'
        ∧ written b' (256 * V + byt) ∧ bitlen b' = bitlen b + 8.
Proof.
  intros Hbyt Hw.
  destruct (grow_written b V Hw) as (init & q & Hs & Hinit & Hq & Hc & Hbe & Hlen).
  unfold writeByte. destruct (grow b) as [s c]. unfold bitlen in *. simpl in *.
  subst s. rewrite len_app in Hlen. change (len [_]) with 1 in Hlen.
  rewrite (wrap8_small (8 - c)) by lia.
  rewrite orAt_last. simpl.
  rewrite shr8_div by lia.
  assert (Hhi : 0 <= byt / 2 ^ (8 - c) < 2 ^ c).
  { pose proof (div_pow2_bound byt 8 (8 - c)) as Hd.
    replace (8 - (8 - c)) with c in Hd by lia. apply Hd; [lia|done]. }
  rewrite lor_disjoint by lia.
  replace (len (init ++ [q * 2 ^ c]) - 1 + 1)
    with (len ((init ++ [q * 2 ^ c + byt / 2 ^ (8 - c)]) ++ [0]) - 1)
    by (rewrite !len_app; change (len [_]) with 1; lia).
  rewrite setAt_last. simpl. eexists. split; [done|].
  assert (Hlo : 0 <= shl8 byt c < 256
                ∧ byt / 2 ^ (8 - c) * 256 + shl8 byt c = byt * 2 ^ c).
  { destruct (decide (c = 8)) as [->|].
    - change (shl8 byt 8) with 0. simpl. rewrite Z.div_1_r. lia.
    - rewrite shl8_mul by lia.
      free_bits c; simpl; try done; Z.to_euclidean_division_equations; lia. }
  unfold written, bitlen in *. simpl. rewrite !be_snoc, !len_app in *.
  change (len [_]) with 1 in *.
  repeat split; try lia.
  - apply Forall_app. split; [|constructor; [lia|constructor]].
    apply Forall_app. split; [done|]. constructor; [|constructor].
    free_bits c; simpl in *; Z.to_euclidean_division_equations; lia.
  - intros [_ ?]%app_nil; done.
Qed.

(** The loops of [writeBits].  The word [u] holds the [n] bits still to be
    written, the number [w], at its top: [u = w * 2 ^ (64 - n)]. *)
Lemma top_byte w n :
  8 <= n <= 64 → 0 <= w < 2 ^ n →
  wrap8 (shr64 (w * 2 ^ (64 - n)) 56) = w / 2 ^ (n - 8)
  ∧ 0 <= w / 2 ^ (n - 8) < 256
  ∧ shl64 (w * 2 ^ (64 - n)) 8 = (w mod 2 ^ (n - 8)) * 2 ^ (64 - (n - 8)).
Proof.
  intros Hn Hw.
  assert (Hb : 0 <= w / 2 ^ (n - 8) < 256).
  { pose proof (div_pow2_bound w n (n - 8)) as Hd.
    replace (n - (n - 8)) with 8 in Hd by lia. apply Hd; [lia|done]. }
  repeat split; try lia.
  - rewrite shr64_div, div_mul_pow2 by lia.
    replace (56 - (64 - n)) with (n - 8) by lia. by apply wrap8_small.
  - rewrite shl64_mul by lia.
    rewrite <- Z.mul_assoc, <- Z.pow_add_r by lia.
    rewrite mod_mul_pow2 by lia.
    replace (64 - (64 - n + 8)) with (n - 8) by lia.
    by replace (64 - n + 8) with (64 - (n - 8)) by lia.
Qed.

Lemma top_bit w n :
  1 <= n <= 64 → 0 <= w < 2 ^ n →
  Z.b2z (shr64 (w * 2 ^ (64 - n)) 63 =? 1) = w / 2 ^ (n - 1)
  ∧ shl64 (w * 2 ^ (64 - n)) 1 = (w mod 2 ^ (n - 1)) * 2 ^ (64 - (n - 1)).
Proof.
  intros Hn Hw. split.
  - rewrite shr64_div, div_mul_pow2 by lia.
    replace (63 - (64 - n)) with (n - 1) by lia.
    pose proof (div_pow2_bound w n (n - 1)) as Hd.
    replace (n - (n - 1)) with 1 in Hd by lia. change (2 ^ 1) with 2 in Hd.
    specialize (Hd ltac:(lia) Hw).
    destruct (Z.eqb_spec (w / 2 ^ (n - 1)) 1); simpl; lia.
  - rewrite shl64_mul by lia.
    rewrite <- Z.mul_assoc, <- Z.pow_add_r by lia.
    rewrite mod_mul_pow2 by lia.
    replace (64 - (64 - n + 1)) with (n - 1) by lia.
    by replace (64 - n + 1) with (64 - (n - 1)) by lia.
Qed.

Lemma div_mod_pow2 w k : 0 <= k → w = w / 2 ^ k * 2 ^ k + w mod 2 ^ k.
Proof. intros. pose proof (pow2_pos k). rewrite Z.mul_comm. apply Z.div_mod. lia. Qed.

(** One turn of each loop. *)
Lemma writeBitsBytes_step b u n :
  writeBitsBytes b u n =
    if decide (8 <= n) then
      b' ← writeByte b (wrap8 (shr64 u 56)); writeBitsBytes b' (shl64 u 8) (n - 8)
    else Some (b, u, n).
Proof.
  rewrite writeBitsBytes_equation_1.
  destruct (Z_le_dec 8 n), (decide (8 <= n)); try lia; [|reflexivity].
  unfold writeBitsBytes_unfold_clause_1.
  by destruct (writeByte b (wrap8 (shr64 u 56))).
Qed.

Lemma writeBitsTail_step b u n :
  writeBitsTail b u n =
    if decide (0 < n) then
      b' ← writeBit b (shr64 u 63 =? 1); writeBitsTail b' (shl64 u 1) (n - 1)
    else Some b.
Proof.
  rewrite writeBitsTail_equation_1.
  destruct (Z_lt_dec 0 n), (decide (0 < n)); try lia; [|reflexivity].
  unfold writeBitsTail_unfold_clause_1.
  by destruct (writeBit b (shr64 u 63 =? 1)).
Qed.

Lemma writeBitsBytes_written (m : nat) : ∀ b V w n,
  Z.to_nat n = m → 0 <= n <= 64 → 0 <= w < 2 ^ n → written b V →
  ∃ b' V' w' n',
    writeBitsBytes b (w * 2 ^ (64 - n)) n = Some (b', w' * 2 ^ (64 - n'), n')
    ∧ 0 <= n' < 8 ∧ 0 <= w' < 2 ^ n' ∧ written b' V'
    ∧ V' * 2 ^ n' + w' = V * 2 ^ n + w
    ∧ bitlen b' = bitlen b + (n - n').
Proof.
  induction m as [m IH] using lt_wf_ind. intros b V w n Hm Hn Hw Hb.
  rewrite writeBitsBytes_step. destruct (decide (8 <= n)) as [H8|H8].
  - destruct (top_byte w n) as (-> & Hbyt & Hshl); [lia|done|].
    destruct (writeByte_written b V _ Hbyt Hb) as (b1 & -> & Hb1 & Hl1).
    rewrite Hshl. cbn [mbind option_bind].
    destruct (IH (Z.to_nat (n - 8)) ltac:(lia) b1 (256 * V + w / 2 ^ (n - 8))
                 (w mod 2 ^ (n - 8)) (n - 8))
      as (b' & V' & w' & n' & Hrun & Hn' & Hw' & Hb' & HV & Hl'); try done; try lia.
    { apply mod_pow2_bound. lia. }
    exists b', V', w', n'.
    refine (conj Hrun (conj Hn' (conj Hw' (conj Hb' (conj _ _))))); [|lia].
    rewrite HV, (pow2_split (n - 8) n) by lia.
    replace (n - (n - 8)) with 8 by lia. change (2 ^ 8) with 256.
    pose proof (div_mod_pow2 w (n - 8)). lia.
  - exists b, V, w, n.
    refine (conj eq_refl (conj _ (conj Hw (conj Hb (conj eq_refl _))))); lia.
Qed.

Lemma writeBitsTail_written (m : nat) : ∀ b V w n,
  Z.to_nat n = m → 0 <= n <= 64 → 0 <= w < 2 ^ n → written b V →
  ∃ b', writeBitsTail b (w * 2 ^ (64 - n)) n = Some b'
        ∧ written b' (V * 2 ^ n + w) ∧ bitlen b' = bitlen b + n.
Proof.
  induction m as [m IH] using lt_wf_ind. intros b V w n Hm Hn Hw Hb.
  rewrite writeBitsTail_step. destruct (decide (0 < n)) as [H0|H0].
  - destruct (top_bit w n) as (Hbit & Hshl); [lia|done|].
    destruct (writeBit_written b V (shr64 (w * 2 ^ (64 - n)) 63 =? 1) Hb)
      as (b1 & -> & Hb1 & Hl1). rewrite Hbit in Hb1. rewrite Hshl.
    cbn [mbind option_bind].
    destruct (IH (Z.to_nat (n - 1)) ltac:(lia) b1 (2 * V + w / 2 ^ (n - 1))
                 (w mod 2 ^ (n - 1)) (n - 1))
      as (b' & Hrun & Hb' & Hl'); try done; try lia.
    { apply mod_pow2_bound. lia. }
    exists b'. refine (conj Hrun (conj _ _)); [|lia].
    replace (V * 2 ^ n + w)
      with ((2 * V + w / 2 ^ (n - 1)) * 2 ^ (n - 1) + w mod 2 ^ (n - 1)); [done|].
    rewrite (pow2_split (n - 1) n) by lia.
    replace (n - (n - 1)) with 1 by lia. change (2 ^ 1) with 2.
    pose proof (div_mod_pow2 w (n - 1)). lia.
  - assert (n = 0) as -> by lia.
    assert (w = 0) as -> by (change (2 ^ 0) with 1 in Hw; lia).
    exists b. refine (conj eq_refl (conj _ _)); [|lia].
    replace (V * 2 ^ 0 + 0) with V by lia. done.
Qed.

(** [writeBits(u, n)] appends the [n] bits of [u], most significant first. *)
Lemma writeBits_written b V u n :
  1 <= n <= 64 → 0 <= u < 2 ^ n → written b V →
  ∃ b', writeBits b u n = Some b'
        ∧ written b' (V * 2 ^ n + u) ∧ bitlen b' = bitlen b + n.
Proof.
  intros Hn Hu Hb. unfold writeBits.
  assert (wrap64 n = n) as -> by (apply Z.mod_small; lia).
  assert (wrap64 (64 - n) = 64 - n) as -> by (apply Z.mod_small; lia).
  assert (shl64 u (64 - n) = u * 2 ^ (64 - n)) as ->.
  { rewrite shl64_mul by lia. apply Z.mod_small.
    pose proof (pow2_pos (64 - n)). split; [lia|].
    rewrite (pow2_split (64 - n) 64) by lia.
    replace (64 - (64 - n)) with n by lia. apply Z.mul_lt_mono_pos_r; lia. }
  destruct (writeBitsBytes_written _ b V u n eq_refl) as
    (b1 & V1 & w1 & n1 & -> & Hn1 & Hw1 & Hb1 & HV1 & Hl1); try done; [lia|].
  cbn [mbind option_bind].
  destruct (writeBitsTail_written _ b1 V1 w1 n1 eq_refl) as
    (b' & -> & Hb' & Hl'); try done; [lia|].
  exists b'. rewrite <- HV1. refine (conj eq_refl (conj Hb' _)). lia.
Qed.

End Writer.

(** ** bstream.go: what the reader still has to read *)

Section Reader.
Import Go Bstream.

(** A reader in a sound state. *)
Definition sound (r : bstreamReader) : Prop :=
  isBytes (r_stream r)
  ∧ 0 <= streamOffset r <= len (r_stream r)
  ∧ 0 <= valid r <= 64
  ∧ 0 <= buffer r < 2 ^ 64.

(** The number of bits not yet read, and those bits as one number: the low
    [valid] bits of the buffer followed by the bytes from [streamOffset]. *)
Definition unread (r : bstreamReader) : Z :=
  8 * (len (r_stream r) - streamOffset r).

Definition left (r : bstreamReader) : Z := valid r + unread r.

Definition rest (r : bstreamReader) : Z :=
  (buffer r mod 2 ^ valid r) * 2 ^ unread r
  + be (drop (Z.to_nat (streamOffset r)) (r_stream r)).

Lemma lor_disjoint_mod (a b k : Z) :
  0 <= k → a mod 2 ^ k = 0 → 0 <= b < 2 ^ k → Z.lor a b = a + b.
Proof.
  intros Hk Ha Hb. pose proof (pow2_pos k Hk).
  assert (a = a / 2 ^ k * 2 ^ k) as ->
    by (rewrite (div_mod_pow2 a k) at 1 by done; lia).
  by apply lor_disjoint.
Qed.

(** Taking [n] bits off the top of a window of [v] bits that is followed by
    [R] more bits [T]. *)
Lemma window_top (b v n R T : Z) :
  0 <= n <= v → 0 <= R → 0 <= T < 2 ^ R →
  let W := (b mod 2 ^ v) * 2 ^ R + T in
  (b / 2 ^ (v - n)) mod 2 ^ n = W / 2 ^ (v + R - n)
  ∧ (b mod 2 ^ (v - n)) * 2 ^ R + T = W mod 2 ^ (v + R - n)
  ∧ 0 <= W < 2 ^ (v + R).
Proof.
  intros Hn HR HT W.
  set (k := v - n). set (h := (b / 2 ^ k) mod 2 ^ n). set (l := b mod 2 ^ k).
  pose proof (pow2_pos k ltac:(lia)) as Hk.
  pose proof (pow2_pos n ltac:(lia)) as Hpn.
  pose proof (pow2_pos R HR) as HpR.
  assert (Hm : b mod 2 ^ v = h * 2 ^ k + l).
  { replace v with (k + n) by lia. rewrite Z.pow_add_r by lia.
    rewrite Z.rem_mul_r by lia. unfold h, l. lia. }
  assert (Hl : 0 <= l < 2 ^ k) by (apply mod_pow2_bound; lia).
  assert (Hh : 0 <= h < 2 ^ n) by (apply mod_pow2_bound; lia).
  assert (Hlo : 0 <= l * 2 ^ R + T < 2 ^ (k + R)).
  { rewrite Z.pow_add_r by lia. split; [lia|].
    assert (l * 2 ^ R <= (2 ^ k - 1) * 2 ^ R) by (apply Z.mul_le_mono_nonneg_r; lia).
    lia. }
  assert (HW : W = h * 2 ^ (k + R) + (l * 2 ^ R + T)).
  { unfold W. rewrite Hm, Z.pow_add_r by lia. lia. }
  replace (v + R - n) with (k + R) by lia.
  split; [|split].
  - rewrite HW, div_high; [done | lia | done].
  - rewrite HW, mod_low; [done | lia | done].
  - rewrite HW. replace (v + R) with (n + (k + R)) by lia.
    rewrite (Z.pow_add_r 2 n) by lia.
    assert (h * 2 ^ (k + R) <= (2 ^ n - 1) * 2 ^ (k + R))
      by (apply Z.mul_le_mono_nonneg_r; lia).
    pose proof (pow2_pos (k + R) ltac:(lia)). split; [lia|lia].
Qed.

Lemma isBytes_drop n s : isBytes s → isBytes (drop n s).
Proof. apply Forall_drop. Qed.

Lemma isBytes_take n s : isBytes s → isBytes (take n s).
Proof. apply Forall_take. Qed.

Lemma len_drop {A} (s : list A) (off : Z) :
  0 <= off <= len s → len (drop (Z.to_nat off) s) = len s - off.
Proof. unfold len. rewrite length_drop. lia. Qed.

Lemma len_take {A} (s : list A) (k : Z) :
  0 <= k <= len s → len (take (Z.to_nat k) s) = k.
Proof. unfold len. rewrite length_take. lia. Qed.

(** The first [k] of the remaining bytes, then the others. *)
Lemma be_split (d : list Z) (k : Z) :
  0 <= k <= len d →
  be d = be (take (Z.to_nat k) d) * 2 ^ (8 * (len d - k))
         + be (drop (Z.to_nat k) d).
Proof.
  intros Hk. rewrite <- (take_drop (Z.to_nat k) d) at 1.
  by rewrite be_app, len_drop.
Qed.

Lemma byteAt_drop (s : list Z) (off i : Z) :
  0 <= off → 0 <= i →
  byteAt s (off + i) = default 0 (drop (Z.to_nat off) s !! Z.to_nat i).
Proof.
  intros Hoff Hi. unfold byteAt, Go.index.
  destruct (Z.ltb_spec (off + i) 0); [lia|].
  rewrite lookup_drop. do 2 f_equal. lia.
Qed.

Lemma shl64_byte (x c : Z) :
  0 <= x < 256 → 0 <= c <= 56 → shl64 x c = x * 2 ^ c.
Proof.
  intros Hx Hc. rewrite shl64_mul by lia. apply Z.mod_small.
  pose proof (pow2_pos c ltac:(lia)). split; [lia|].
  rewrite (pow2_split c 64) by lia.
  assert (2 ^ 8 <= 2 ^ (64 - c)) by (apply Z.pow_le_mono_r; lia).
  change (2 ^ 8) with 256 in *.
  apply Z.lt_le_trans with (256 * 2 ^ c); [|apply Z.mul_le_mono_nonneg_r; lia].
  apply Z.mul_lt_mono_pos_r; lia.
Qed.

(** The fast path loads eight bytes. *)
Lemma bigEndianUint64_be (s : list Z) (off : Z) :
  isBytes s → 0 <= off → off + 8 <= len s →
  bigEndianUint64 s off = be (take 8 (drop (Z.to_nat off) s)).
Proof.
  intros Hs Hoff Hlen. unfold bigEndianUint64.
  rewrite <- (Z.add_0_r off) at 8. rewrite !byteAt_drop by lia.
  pose proof (len_drop s off ltac:(lia)) as Hd.
  apply (isBytes_drop (Z.to_nat off)) in Hs.
  destruct (drop (Z.to_nat off) s) as [|x0 [|x1 [|x2 [|x3 [|x4 [|x5 [|x6 [|x7 d]]]]]]]];
    try (unfold len in *; simpl in Hd; lia).
  repeat (apply Forall_cons in Hs as [? Hs]).
  change (take 8 _) with [x0; x1; x2; x3; x4; x5; x6; x7].
  repeat match goal with
  | |- context [default 0 (?l !! Z.to_nat ?k)] =>
      let v := eval cbv in (default 0 (l !! Z.to_nat k)) in
      change (default 0 (l !! Z.to_nat k)) with v
  end.
  rewrite !shl64_byte by lia. unfold be. cbn [foldl].
  rewrite (Z.lor_comm (x1 * _)), (lor_disjoint_mod _ (x1 * _) 56)
    by (simpl; Z.to_euclidean_division_equations; lia).
  rewrite (Z.lor_comm (x2 * _)), (lor_disjoint_mod _ (x2 * _) 48)
    by (simpl; Z.to_euclidean_division_equations; lia).
  rewrite (Z.lor_comm (x3 * _)), (lor_disjoint_mod _ (x3 * _) 40)
    by (simpl; Z.to_euclidean_division_equations; lia).
  rewrite (Z.lor_comm (x4 * _)), (lor_disjoint_mod _ (x4 * _) 32)
    by (simpl; Z.to_euclidean_division_equations; lia).
  rewrite (Z.lor_comm (x5 * _)), (lor_disjoint_mod _ (x5 * _) 24)
    by (simpl; Z.to_euclidean_division_equations; lia).
  rewrite (Z.lor_comm (x6 * _)), (lor_disjoint_mod _ (x6 * _) 16)
    by (simpl; Z.to_euclidean_division_equations; lia).
  rewrite (Z.lor_comm x7), (lor_disjoint_mod _ x7 8)
    by (simpl; Z.to_euclidean_division_equations; lia).
  simpl. lia.
Qed.

(** The slow path loads [nbytes] bytes, one per turn of its loop. *)
Lemma loadBytes_be (s : list Z) (off nbytes : Z) :
  isBytes s → 0 <= off → 0 <= nbytes <= 8 → off + nbytes <= len s →
  ∀ (todo : nat) (i : Z),
    i + Z.of_nat todo = nbytes → 0 <= i →
    loadBytes s off nbytes todo i
      (be (take (Z.to_nat i) (drop (Z.to_nat off) s)) * 2 ^ (8 * (nbytes - i)))
    = be (take (Z.to_nat nbytes) (drop (Z.to_nat off) s)).
Proof.
  intros Hs Hoff Hn Hlen. set (d := drop (Z.to_nat off) s).
  assert (Hd : len d = len s - off) by (apply len_drop; lia).
  induction todo as [|todo IH]; intros i Hi H0; simpl.
  - assert (i = nbytes) as -> by lia. rewrite Z.sub_diag. simpl. lia.
  - rewrite byteAt_drop by lia. fold d.
    destruct (lookup_lt_is_Some_2 d (Z.to_nat i)) as [x Hx];
      [unfold len in *; lia|].
    rewrite Hx. simpl.
    assert (Hxb : 0 <= x < 256).
    { pose proof (isBytes_drop (Z.to_nat off) s Hs) as Hbd. fold d in Hbd.
      unfold isBytes in Hbd. rewrite Forall_lookup in Hbd. exact (Hbd _ _ Hx). }
    assert (wrap64 (8 * (nbytes - i - 1)) = 8 * (nbytes - i - 1)) as ->
      by (apply Z.mod_small; lia).
    rewrite shl64_byte by lia.
    pose proof (pow2_pos (8 * (nbytes - i - 1)) ltac:(lia)).
    assert (Hk : 2 ^ (8 * (nbytes - i)) = 256 * 2 ^ (8 * (nbytes - i - 1))).
    { replace (8 * (nbytes - i)) with (8 + 8 * (nbytes - i - 1)) by lia.
      by rewrite Z.pow_add_r by lia. }
    rewrite lor_disjoint; [|lia|rewrite Hk; nia].
    rewrite <- (IH (i + 1)) by lia. f_equal.
    replace (Z.to_nat (i + 1)) with (S (Z.to_nat i)) by lia.
    rewrite (take_S_r _ _ _ Hx), be_snoc.
    replace (nbytes - (i + 1)) with (nbytes - i - 1) by lia. rewrite Hk. lia.
Qed.

(** Refilling an empty buffer changes nothing of what is left to read, and
    makes at least the requested bits available when the stream has them. *)
Lemma loadNextBuffer_sound (r : bstreamReader) (n : Z) :
  sound r → valid r = 0 → 1 <= n <= 64 → n <= left r →
  ∃ r', loadNextBuffer r n = (true, r')
        ∧ sound r' ∧ r_stream r' = r_stream r
        ∧ left r' = left r ∧ rest r' = rest r ∧ n <= valid r'.
Proof.
  intros (Hs & Hoff & Hv & Hb) Hv0 Hn Hleft.
  unfold left, rest, unread in *. rewrite Hv0 in *.
  change (2 ^ 0) with 1. rewrite Z.mod_1_r.
  unfold loadNextBuffer, sound.
  destruct r as [s off b v]; simpl in *.
  destruct (Z.leb_spec (len s) off); [lia|].
  set (d := drop (Z.to_nat off) s).
  assert (Hd : len d = len s - off) by (apply len_drop; lia).
  destruct (Z.ltb_spec (off + 8) (len s)).
  - eexists. split; [done|]. simpl.
    rewrite bigEndianUint64_be by (done || lia). fold d.
    pose proof (be_bound (take (Z.to_nat 8) d)
                  (isBytes_take _ _ (isBytes_drop _ _ Hs))) as Hb8.
    rewrite (len_take d 8) in Hb8 by lia. change (Z.to_nat 8) with 8%nat in Hb8. change (2 ^ (8 * 8)) with (2 ^ 64) in Hb8.
    rewrite Z.mod_small by done.
    repeat split; try done; try lia.
    assert (drop (Z.to_nat (off + 8)) s = drop (Z.to_nat 8) d) as ->
      by (unfold d; rewrite drop_drop; f_equal; lia).
    rewrite (be_split d 8), Hd by lia.
    replace (len s - (off + 8)) with (len s - off - 8) by lia.
    change (Z.to_nat 8) with 8%nat. lia.
  - assert (Hw : wrap8 (n / 8 + 1) = n / 8 + 1)
      by (apply wrap8_small; Z.to_euclidean_division_equations; lia).
    rewrite Hw.
    set (nbytes := if len s <? off + (n / 8 + 1) then len s - off else n / 8 + 1).
    assert (Hnb : 1 <= nbytes <= 8 ∧ off + nbytes <= len s ∧ n <= 8 * nbytes).
    { unfold nbytes. destruct (Z.ltb_spec (len s) (off + (n / 8 + 1)));
        Z.to_euclidean_division_equations; lia. }
    destruct Hnb as (Hnb & Hfit & Henough).
    eexists. split; [done|]. simpl.
    pose proof (loadBytes_be s off nbytes Hs ltac:(lia) ltac:(lia) Hfit
                  (Z.to_nat nbytes) 0 ltac:(lia) ltac:(lia)) as Hload.
    change (take (Z.to_nat 0) _) with (@nil Z) in Hload.
    change (be []) with 0 in Hload. rewrite Z.mul_0_l in Hload. rewrite Hload.
    fold d.
    pose proof (be_bound (take (Z.to_nat nbytes) d)
                  (isBytes_take _ _ (isBytes_drop _ _ Hs))) as Hbn.
    rewrite (len_take d nbytes) in Hbn by lia.
    rewrite (wrap8_small (nbytes * 8)) by lia.
    replace (nbytes * 8) with (8 * nbytes) by lia.
    rewrite Z.mod_small by done.
    assert (2 ^ (8 * nbytes) <= 2 ^ 64) by (apply Z.pow_le_mono_r; lia).
    repeat split; try done; try lia.
    assert (drop (Z.to_nat (off + nbytes)) s = drop (Z.to_nat nbytes) d) as ->
      by (unfold d; rewrite drop_drop; f_equal; lia).
    rewrite (be_split d nbytes), Hd by lia.
    replace (len s - (off + nbytes)) with (len s - off - nbytes) by lia. lia.
Qed.

Lemma rest_tail_bound (r : bstreamReader) :
  sound r →
  0 <= unread r
  ∧ 0 <= be (drop (Z.to_nat (streamOffset r)) (r_stream r)) < 2 ^ unread r.
Proof.
  intros (Hs & Hoff & Hv & Hb). unfold unread. split; [lia|].
  rewrite <- (len_drop (r_stream r) (streamOffset r)) by done.
  by apply be_bound, isBytes_drop.
Qed.

(** A read served from the buffer alone. *)
Lemma readBitsFast_sound (r : bstreamReader) (n : Z) :
  sound r → 1 <= n <= 64 → n <= valid r →
  ∃ r', readBitsFast r n = (Some (rest r / 2 ^ (left r - n)), r')
        ∧ sound r' ∧ r_stream r' = r_stream r
        ∧ left r' = left r - n ∧ rest r' = rest r mod 2 ^ (left r - n).
Proof.
  intros Hr Hn Hnv. destruct (rest_tail_bound r Hr) as [HR HT].
  destruct Hr as (Hs & Hoff & Hv & Hb).
  unfold readBitsFast. destruct (Z.ltb_spec (valid r) n); [lia|].
  rewrite (wrap8_small (valid r - n)) by lia.
  rewrite shr64_div by lia.
  pose proof (pow2_pos (valid r - n) ltac:(lia)).
  rewrite land_mask64; [|lia|].
  2:{ split; [apply Z.div_pos; lia|].
      apply Z.le_lt_trans with (buffer r); [|lia].
      apply Z.div_le_upper_bound; [lia|]. nia. }
  destruct (window_top (buffer r) (valid r) n (unread r) _ ltac:(lia) HR HT)
    as (Hval & Hrest & _).
  exists (mkReader (r_stream r) (streamOffset r) (buffer r) (valid r - n)).
  split; [|split; [|split; [done|split]]].
  - unfold rest, left. by rewrite Hval.
  - unfold sound. simpl. repeat split; try done; lia.
  - unfold left, unread. simpl. lia.
  - unfold rest, left, unread in *. simpl. by rewrite Hrest.
Qed.

(** [readBits(n)] returns the next [n] bits whenever the stream still holds
    that many, and leaves the others to be read. *)
Lemma readBits_sound (r : bstreamReader) (n : Z) :
  sound r → 1 <= n <= 64 → n <= left r →
  ∃ r', readBits r n = (Some (rest r / 2 ^ (left r - n)), r')
        ∧ sound r' ∧ r_stream r' = r_stream r
        ∧ left r' = left r - n ∧ rest r' = rest r mod 2 ^ (left r - n).
Proof.
  intros Hr Hn Hleft. unfold readBits.
  destruct (Z.eqb_spec (valid r) 0) as [Hv0|Hv0].
  { (* empty buffer: refill, then the buffer serves the read *)
    destruct (loadNextBuffer_sound r n Hr Hv0 Hn Hleft)
      as (r1 & -> & Hr1 & Hs1 & Hl1 & Hrest1 & Hn1). cbn [negb].
    destruct (Z.leb_spec n (valid r1)); [|lia].
    destruct (readBitsFast_sound r1 n Hr1 Hn Hn1)
      as (r' & -> & Hr' & Hs' & Hl' & Hrest').
    exists r'. rewrite <- Hl1, <- Hrest1.
    refine (conj eq_refl (conj Hr' (conj _ (conj Hl' Hrest')))). congruence. }
  cbn [negb]. destruct (Z.leb_spec n (valid r)) as [Hfast|Hcross].
  { by apply readBitsFast_sound. }
  (* the read crosses the end of the buffer *)
  destruct (rest_tail_bound r Hr) as [HR HT].
  pose proof Hr as (Hs & Hoff & Hv & Hb).
  set (v := valid r) in *.
  rewrite (wrap8_small (n - v)) by lia. set (n' := n - v).
  rewrite land_mask64 by lia.
  set (m := buffer r mod 2 ^ v).
  assert (Hm : 0 <= m < 2 ^ v) by (apply mod_pow2_bound; lia).
  pose proof (pow2_pos n' ltac:(lia)) as Hpn'.
  assert (Hshl : shl64 m n' = m * 2 ^ n').
  { rewrite shl64_mul by lia. apply Z.mod_small. split; [lia|].
    apply Z.lt_le_trans with (2 ^ v * 2 ^ n'); [nia|].
    rewrite <- Z.pow_add_r by lia. apply Z.pow_le_mono_r; lia. }
  rewrite Hshl.
  set (r0 := mkReader (r_stream r) (streamOffset r) (buffer r) 0).
  assert (Hr0 : sound r0) by (unfold sound, r0; simpl; repeat split; try done; lia).
  assert (Hl0 : left r0 = unread r) by (unfold left, unread, r0; simpl; lia).
  assert (Hrest0 : rest r0 = be (drop (Z.to_nat (streamOffset r)) (r_stream r))).
  { unfold rest, r0. simpl. change (2 ^ 0) with 1. rewrite Z.mod_1_r. lia. }
  assert (Hn' : 1 <= n' <= 64) by (unfold n'; lia).
  assert (Hn'left : n' <= left r0) by (unfold left in Hleft; fold v in Hleft; lia).
  destruct (loadNextBuffer_sound r0 n' Hr0 eq_refl Hn' Hn'left)
    as (r2 & -> & Hr2 & Hs2 & Hl2 & Hrest2 & Hn2). cbn [negb].
  destruct (readBitsFast_sound r2 n' Hr2 Hn' Hn2)
    as (r' & Hfast & Hr' & Hs' & Hl' & Hrest').
  unfold readBitsFast in Hfast.
  destruct (Z.ltb_spec (valid r2) n'); [lia|].
  injection Hfast as Hval <-.
  rewrite Hval. rewrite Hl2, Hl0, Hrest2, Hrest0 in *.
  set (T := be (drop (Z.to_nat (streamOffset r)) (r_stream r))) in *.
  set (R := unread r) in *.
  pose proof (pow2_pos (R - n') ltac:(lia)) as HpR.
  assert (Hh : 0 <= T / 2 ^ (R - n') < 2 ^ n').
  { pose proof (div_pow2_bound T R (R - n') ltac:(lia) HT) as Hd.
    by replace (R - (R - n')) with n' in Hd by lia. }
  rewrite lor_disjoint by lia.
  assert (Hsplit : rest r =
    (m * 2 ^ n' + T / 2 ^ (R - n')) * 2 ^ (R - n') + T mod 2 ^ (R - n')).
  { unfold rest. fold v m R T. rewrite (pow2_split (R - n') R) at 1 by lia.
    replace (R - (R - n')) with n' by lia.
    pose proof (div_mod_pow2 T (R - n') ltac:(lia)). lia. }
  assert (Hlr : left r - n = R - n') by (unfold left, n'; fold v R; lia).
  rewrite Hlr, Hsplit.
  pose proof (mod_pow2_bound T (R - n') ltac:(lia)).
  eexists. split; [|split; [exact Hr'|split; [exact Hs2|split]]].
  - by rewrite div_high by lia.
  - lia.
  - by rewrite mod_low by lia.
Qed.

End Reader.

(** ** bstream.go: write, then read (C4) *)

Section RoundTrip.
Import Go Bstream.

(** A pair (value, width) as the claim takes it. *)
Definition fitsWidth (p : Z * Z) : Prop := 1 <= p.2 <= 64 ∧ 0 <= p.1 < 2 ^ p.2.

(** The pairs laid out one after the other, as one number of [width] bits. *)
Fixpoint width (ps : list (Z * Z)) : Z :=
  match ps with
  | [] => 0
  | p :: ps => p.2 + width ps
  end.

Fixpoint packed (ps : list (Z * Z)) : Z :=
  match ps with
  | [] => 0
  | p :: ps => p.1 * 2 ^ width ps + packed ps
  end.

Lemma width_nonneg ps : Forall fitsWidth ps → 0 <= width ps.
Proof. induction 1 as [|p ps [Hp _] _ IH]; simpl; lia. Qed.

Lemma packed_bound ps : Forall fitsWidth ps → 0 <= packed ps < 2 ^ width ps.
Proof.
  induction 1 as [|p ps [Hn Hu] Hps IH]; simpl; [lia|].
  pose proof (width_nonneg ps Hps). pose proof (pow2_pos (width ps) ltac:(lia)).
  rewrite Z.pow_add_r by lia.
  assert (p.1 * 2 ^ width ps <= (2 ^ p.2 - 1) * 2 ^ width ps)
    by (apply Z.mul_le_mono_nonneg_r; lia).
  split; [nia|lia].
Qed.

Lemma writeAll_written ps : ∀ b V,
  Forall fitsWidth ps → written b V →
  ∃ w, writeAll b ps = Some w
       ∧ written w (V * 2 ^ width ps + packed ps)
       ∧ bitlen w = bitlen b + width ps.
Proof.
  induction ps as [|[u n] ps IH]; intros b V Hps Hb; simpl.
  - exists b. rewrite Z.mul_1_r, Z.add_0_r.
    refine (conj eq_refl (conj Hb _)). lia.
  - apply Forall_cons in Hps as [[Hn Hu] Hps]. simpl in Hn, Hu.
    destruct (writeBits_written b V u n Hn Hu Hb) as (b1 & -> & Hb1 & Hl1).
    cbn [mbind option_bind].
    destruct (IH b1 _ Hps Hb1) as (w & -> & Hw & Hlw).
    exists w. pose proof (width_nonneg ps Hps).
    refine (conj eq_refl (conj _ _)); [|lia].
    rewrite Z.pow_add_r by lia.
    replace (V * (2 ^ n * 2 ^ width ps) + (u * 2 ^ width ps + packed ps))
      with ((V * 2 ^ n + u) * 2 ^ width ps + packed ps) by lia.
    done.
Qed.

Lemma readAll_sound ps : ∀ r c Y,
  Forall fitsWidth ps → sound r →
  0 <= c → 0 <= Y < 2 ^ c →
  left r = width ps + c → rest r = packed ps * 2 ^ c + Y →
  readAll r (ps.*2) = Some (ps.*1).
Proof.
  induction ps as [|[u n] ps IH]; intros r c Y Hps Hr Hc HY Hleft Hrest; [done|].
  apply Forall_cons in Hps as [[Hn Hu] Hps]. simpl in Hn, Hu, Hleft, Hrest.
  pose proof (width_nonneg ps Hps) as Hw.
  pose proof (packed_bound ps Hps) as Hp.
  pose proof (pow2_pos c Hc).
  rewrite !fmap_cons. cbn [readAll fst snd].
  destruct (readBits_sound r n Hr Hn ltac:(lia)) as (r' & -> & Hr' & _ & Hl' & Hrest').
  assert (Hsplit : rest r = u * 2 ^ (width ps + c) + (packed ps * 2 ^ c + Y))
    by (rewrite Hrest, Z.pow_add_r by lia; lia).
  assert (Hlo : 0 <= packed ps * 2 ^ c + Y < 2 ^ (width ps + c)).
  { rewrite Z.pow_add_r by lia. split; [nia|].
    assert (packed ps * 2 ^ c <= (2 ^ width ps - 1) * 2 ^ c)
      by (apply Z.mul_le_mono_nonneg_r; lia).
    lia. }
  replace (left r - n) with (width ps + c) in * by lia.
  rewrite Hsplit, mod_low in Hrest' by lia.
  rewrite Hsplit, div_high by lia. cbn [mbind option_bind].
  by rewrite (IH r' c Y).
Qed.

End RoundTrip.

(** C4.  Writing pairs [(u, n)] with [1 <= n <= 64] and [u < 2 ^ n] into a
    fresh [bstream] never fails, and reading the widths back in order over the
    resulting bytes yields the values, with no error. *)
Theorem bstream_roundtrip (ps : list (Z * Z)) :
  Forall fitsWidth ps →
  ∃ w, Bstream.writeAll (Bstream.mkBstream [] 0) ps = Some w
       ∧ Bstream.readAll (Bstream.newBReader (Bstream.bytes w)) (ps.*2)
         = Some (ps.*1).
Proof.
  intros Hps.
  assert (H0 : written (Bstream.mkBstream [] 0) 0)
    by (unfold written; simpl; repeat split; try done; constructor).
  destruct (writeAll_written ps _ 0 Hps H0) as (w & Hw & (Hs & Hc & _ & Hbe) & Hl).
  exists w. split; [done|].
  unfold bitlen in Hl. simpl in Hl, Hbe. change (Go.len []) with 0 in Hl.
  apply (readAll_sound ps _ (Bstream.count w) 0); try done; try lia.
  - unfold sound, Bstream.newBReader, Bstream.bytes. simpl.
    pose proof (len_nonneg' (Bstream.stream w)). repeat split; try done; lia.
  - unfold left, unread, Bstream.newBReader, Bstream.bytes. simpl. lia.
  - unfold rest, unread, Bstream.newBReader, Bstream.bytes. simpl.
    change (drop (Z.to_nat 0) ?l) with l. rewrite Hbe.
    change (0 mod 2 ^ 0) with 0. lia.
Qed.

Lemma bstream_roundtrip_witness :
  let ps := [(5, 3); (255, 8); (1, 1); (2 ^ 64 - 1, 64); (12345, 20)] in
  ∃ w, Bstream.writeAll (Bstream.mkBstream [] 0) ps = Some w
       ∧ Bstream.readAll (Bstream.newBReader (Bstream.bytes w)) (ps.*2)
         = Some (ps.*1).
Proof.
  apply bstream_roundtrip.
  repeat (constructor; [split; vm_compute; split; congruence|]). constructor.
Defined.

(** The bytes of a small stream, and the run of [bstream_test.go] cut short. *)
Example bstream_bytes :
  Bstream.writeAll (Bstream.mkBstream [] 0) [(5, 3); (255, 8); (1, 1)]
  = Some (Bstream.mkBstream [191; 240] 4).
Proof. vm_compute. reflexivity. Qed.

Example bstream_read_back :
  Bstream.readAll (Bstream.newBReader [191; 240]) [3; 8; 1] = Some [5; 255; 1].
Proof. vm_compute. reflexivity. Qed.

(** ** memory_partition.go: one series *)

Section Series.
Import Go MemPart.

(** Strictly ascending timestamps. *)
Definition ascending (pts : list DataPoint) : Prop :=
  StronglySorted (λ a b, Timestamp a < Timestamp b) pts.

(** What holds of every series the code builds: [size] counts the in-order
    points, these ascend strictly, and the bounds are those of the first and
    the last of them (0 and 0 for a series without points). *)
Definition seriesOK (mt : memoryMetric) : Prop :=
  size mt = len (points mt)
  ∧ ascending (points mt)
  ∧ minTimestamp mt = from_option Timestamp 0 (head (points mt))
  ∧ maxTimestamp mt = from_option Timestamp 0 (last (points mt))
  ∧ (points mt = [] → outOfOrderPoints mt = []).

Lemma seriesOK_new key : seriesOK (mkMetric key 0 0 0 [] []).
Proof. repeat split; constructor. Qed.

Lemma ascending_snoc pts q p :
  ascending (pts ++ [q]) → Timestamp q < Timestamp p →
  ascending ((pts ++ [q]) ++ [p]).
Proof.
  intros Hs Hlt. apply StronglySorted_app_2; [|done|repeat constructor].
  intros a b Ha ->%list_elem_of_singleton.
  apply elem_of_app in Ha as [Ha| ->%list_elem_of_singleton]; [|done].
  apply StronglySorted_app in Hs as (Hall & _ & _).
  specialize (Hall a q Ha ltac:(by apply list_elem_of_singleton)). simpl in *. lia.
Qed.

Lemma head_snoc {A} (l : list A) x y : head ((l ++ [x]) ++ [y]) = head (l ++ [x]).
Proof. by destruct l. Qed.

(** [insertPoint] as a function of the series it is given. *)
Definition insertPointSpec (mt : memoryMetric) (p : DataPoint) : memoryMetric :=
  match last (points mt) with
  | None => appendFirst mt p
  | Some q => if Timestamp q <? Timestamp p
              then appendInOrder mt p else appendOutOfOrder mt p
  end.

Lemma insertPoint_spec mt p :
  seriesOK mt → insertPoint mt p = Some (insertPointSpec mt p).
Proof.
  intros (Hsize & _ & _ & _ & _). unfold insertPoint, insertPointFast,
    insertPointSlow, insertPointSpec.
  destruct (points mt) as [|q pts _] eqn:E using rev_ind.
  - change (len []) with 0 in *. rewrite Hsize. by simpl.
  - rewrite last_snoc, Hsize, !index_last.
    assert (HL : 0 < len (pts ++ [q]))
      by (rewrite len_app; pose proof (len_nonneg' pts); change (len [q]) with 1; lia).
    destruct (Z.ltb_spec 0 (len (pts ++ [q]))); [|lia].
    destruct (Z.eqb_spec (len (pts ++ [q])) 0); [lia|]. simpl.
    by destruct (Z.ltb_spec (Timestamp q) (Timestamp p)).
Qed.

Lemma insertPoint_ok mt p : seriesOK mt → seriesOK (insertPointSpec mt p).
Proof.
  intros (Hsize & Hasc & Hmin & Hmax & Hooo). unfold insertPointSpec.
  destruct (points mt) as [|q pts _] eqn:E using rev_ind.
  - simpl. unfold seriesOK, appendFirst. simpl. rewrite E. simpl.
    change (len []) with 0 in Hsize. rewrite Hsize.
    repeat split; try done. repeat constructor.
  - rewrite last_snoc in *.
    destruct (Z.ltb_spec (Timestamp q) (Timestamp p)).
    + unfold seriesOK, appendInOrder. simpl. rewrite E, last_snoc, head_snoc.
      rewrite Hsize, !len_app. change (len [_]) with 1.
      repeat split; try done. * by apply ascending_snoc.
      * intros [_ ?]%app_nil. done.
    + unfold seriesOK, appendOutOfOrder. simpl. rewrite E, last_snoc.
      repeat split; try done. intros [_ ?]%app_nil. done.
Qed.

(** The stored points of a series, in order or not. *)
Definition stored (mt : memoryMetric) : list DataPoint :=
  points mt ++ outOfOrderPoints mt.

Lemma stored_insertPoint mt p : stored (insertPointSpec mt p) ≡ₚ p :: stored mt.
Proof.
  unfold insertPointSpec, stored.
  destruct (last (points mt)) as [q|]; [destruct (_ <? _)|]; simpl.
  - rewrite <- app_assoc. simpl. by rewrite <- Permutation_middle.
  - rewrite app_assoc. by rewrite <- Permutation_cons_append.
  - rewrite <- app_assoc. simpl. by rewrite <- Permutation_middle.
Qed.

Lemma name_insertPoint mt p : name (insertPointSpec mt p) = name mt.
Proof.
  unfold insertPointSpec.
  by destruct (last (points mt)) as [q|]; [destruct (_ <? _)|].
Qed.

(** Each insert adds one to [size] plus the length of the out-of-order
    list. *)
Definition held (mt : memoryMetric) : Z := size mt + len (outOfOrderPoints mt).

Lemma held_insertPoint mt p : held (insertPointSpec mt p) = held mt + 1.
Proof.
  unfold insertPointSpec, held.
  destruct (last (points mt)) as [q|]; [destruct (_ <? _)|]; simpl;
    rewrite ?len_app; change (len [p]) with 1; lia.
Qed.

End Series.

(** ** memory_partition.go: binary search and the select window *)

Section Select.
Import Go MemPart.

(** The number of points before time [x]; in an ascending list, the index
    of the first point at or after [x]. *)
Definition before (x : Z) (pts : list DataPoint) : nat :=
  length (filter (λ p, Timestamp p < x) pts).

(** The points in the window [[start, end_)]. *)
Definition inWindow (start end_ : Z) (pts : list DataPoint) : list DataPoint :=
  filter (λ p, start <= Timestamp p < end_) pts.

Lemma before_cons x p pts :
  before x (p :: pts) = if decide (Timestamp p < x) then S (before x pts) else before x pts.
Proof. unfold before. rewrite filter_cons. by case_decide. Qed.

Lemma before_le x pts : (before x pts ≤ length pts)%nat.
Proof. apply length_filter. Qed.

Lemma before_none x pts : Forall (λ q, x <= Timestamp q) pts → before x pts = 0%nat.
Proof.
  induction 1 as [|q pts Hq _ IH]; [done|].
  rewrite before_cons, IH. case_decide; [lia|done].
Qed.

Lemma before_all x pts : Forall (λ q, Timestamp q < x) pts → before x pts = length pts.
Proof.
  induction 1 as [|q pts Hq _ IH]; [done|].
  rewrite before_cons, IH. simpl. case_decide; [done|lia].
Qed.

Lemma ascending_cons_inv p pts :
  ascending (p :: pts) → ascending pts ∧ Forall (λ q, Timestamp p < Timestamp q) pts.
Proof. apply StronglySorted_inv. Qed.

(** In an ascending list the points before [x] are those at the indices
    below [before x]. *)
Lemma lookup_before x pts : ∀ h q,
  ascending pts → pts !! h = Some q →
  (Timestamp q < x ↔ (h < before x pts)%nat).
Proof.
  induction pts as [|p pts IH]; intros h q Hasc Hq; [done|].
  apply ascending_cons_inv in Hasc as [Hasc Hp]. rewrite before_cons.
  case_decide as Hpx.
  - destruct h as [|h]; simpl in Hq.
    + injection Hq as <-. split; [lia|done].
    + rewrite (IH h q Hasc Hq). lia.
  - rewrite before_none.
    2:{ eapply Forall_impl; [exact Hp|]. simpl. intros. lia. }
    split; [|lia]. intros Hqx. destruct h as [|h]; simpl in Hq.
    + injection Hq as <-. lia.
    + rewrite List.Forall_forall in Hp.
      apply list_elem_of_lookup_2, list_elem_of_In, Hp in Hq. lia.
Qed.

(** One turn of the loop of [sort.Search]. *)
Lemma searchLoop_step f i j :
  searchLoop f i j =
    if decide (i < j) then
      if decide (0 <= i) then
        match f ((i + j) / 2) with
        | None => None
        | Some false => searchLoop f ((i + j) / 2 + 1) j
        | Some true => searchLoop f i ((i + j) / 2)
        end
      else None
    else Some i.
Proof.
  rewrite searchLoop_equation_1.
  destruct (Z_lt_dec i j), (decide (i < j)); try lia; [|reflexivity].
  unfold searchLoop_unfold_clause_1.
  destruct (Z_le_dec 0 i), (decide (0 <= i)); try lia; [|reflexivity].
  unfold searchLoop_unfold_clause_1_clause_2.
  by destruct (f ((i + j) / 2)) as [[]|].
Qed.

(** The search of [selectPoints] finds the first point at or after [x]. *)
Lemma searchLoop_before x pts (Hasc : ascending pts) (m : nat) : ∀ i j,
  Z.to_nat (j - i) = m →
  0 <= i <= Z.of_nat (before x pts) → Z.of_nat (before x pts) <= j <= len pts →
  searchLoop (λ i, p ← index pts i; Some (x <=? Timestamp p)) i j
  = Some (Z.of_nat (before x pts)).
Proof.
  induction m as [m IH] using lt_wf_ind. intros i j Hm Hi Hj.
  rewrite searchLoop_step. case_decide as Hij; [|f_equal; lia].
  case_decide; [|lia].
  assert (Hh : i <= (i + j) / 2 < j)
    by (split; [apply Z.div_le_lower_bound | apply Z.div_lt_upper_bound]; lia).
  set (h := (i + j) / 2) in *.
  unfold index at 1. destruct (Z.ltb_spec h 0); [lia|].
  destruct (lookup_lt_is_Some_2 pts (Z.to_nat h)) as [q Hq]; [unfold len in *; lia|].
  rewrite Hq. simpl.
  pose proof (lookup_before x pts _ _ Hasc Hq) as Hb.
  destruct (Z.leb_spec x (Timestamp q)).
  - apply (IH (Z.to_nat (h - i))); lia.
  - apply (IH (Z.to_nat (j - (h + 1)))); lia.
Qed.

Lemma sort_Search_before x pts :
  ascending pts →
  sort_Search (len pts) (λ i, p ← index pts i; Some (x <=? Timestamp p))
  = Some (Z.of_nat (before x pts)).
Proof.
  intros Hasc. unfold sort_Search.
  apply (searchLoop_before x pts Hasc _ 0 (len pts) eq_refl).
  - lia.
  - pose proof (before_le x pts). unfold len. lia.
Qed.

Lemma inWindow_cons start end_ p pts :
  inWindow start end_ (p :: pts) =
    if decide (start <= Timestamp p < end_)
    then p :: inWindow start end_ pts else inWindow start end_ pts.
Proof. unfold inWindow. by rewrite filter_cons. Qed.

(** In an ascending list the window is the run between the two indices. *)
Lemma window_between start end_ pts :
  ascending pts → start <= end_ →
  take (before end_ pts - before start pts) (drop (before start pts) pts)
  = inWindow start end_ pts.
Proof.
  intros Hasc Hse. induction pts as [|p pts IH]; [done|].
  apply ascending_cons_inv in Hasc as [Hasc Hp]. specialize (IH Hasc).
  rewrite inWindow_cons, !before_cons.
  destruct (decide (Timestamp p < start)).
  - rewrite decide_True by lia. rewrite decide_False by lia. simpl. exact IH.
  - rewrite (before_none start pts) in *
      by (eapply Forall_impl; [exact Hp|]; simpl; intros; lia).
    rewrite drop_0, Nat.sub_0_r in *.
    destruct (decide (Timestamp p < end_)).
    + rewrite decide_True by lia. simpl. by rewrite IH.
    + rewrite decide_False by lia.
      rewrite (before_none end_ pts) in *
        by (eapply Forall_impl; [exact Hp|]; simpl; intros; lia).
      simpl in *. done.
Qed.

Lemma before_mono x y pts : x <= y → (before x pts ≤ before y pts)%nat.
Proof.
  intros Hxy. induction pts as [|p pts IH]; [done|].
  rewrite !before_cons. repeat case_decide; lia.
Qed.

Lemma slice_window start end_ pts :
  ascending pts → start <= end_ →
  slice pts (Z.of_nat (before start pts)) (Z.of_nat (before end_ pts))
  = Some (inWindow start end_ pts).
Proof.
  intros Hasc Hse. unfold slice.
  pose proof (before_mono start end_ pts Hse).
  pose proof (before_le end_ pts).
  rewrite !andb_true_intro; [|unfold len; repeat split; lia].
  rewrite <- window_between by done. do 3 f_equal; lia.
Qed.

(** The bounds of a well-formed series bound its points. *)
Lemma series_bounds mt :
  seriesOK mt →
  Forall (λ q, minTimestamp mt <= Timestamp q <= maxTimestamp mt) (points mt).
Proof.
  intros (_ & Hasc & Hmin & Hmax & _).
  destruct (points mt) as [|q pts _] using rev_ind; [constructor|].
  rewrite last_snoc in Hmax. simpl in Hmax.
  apply StronglySorted_app in Hasc as (Hlast & Hasc & _).
  apply Forall_app. split.
  - apply Forall_forall. intros a Ha.
    specialize (Hlast a q Ha ltac:(by apply list_elem_of_singleton)). simpl in Hlast.
    split; [|lia]. rewrite Hmin.
    destruct pts as [|p0 pts]; [by apply elem_of_nil in Ha|]. simpl.
    apply ascending_cons_inv in Hasc as [_ Hp0].
    apply elem_of_cons in Ha as [->|Ha]; [done|].
    rewrite List.Forall_forall in Hp0. apply list_elem_of_In, Hp0 in Ha. lia.
  - constructor; [|constructor]. split; [|lia]. rewrite Hmin.
    destruct pts as [|p0 pts]; simpl; [lia|].
    specialize (Hlast p0 q ltac:(left) ltac:(by apply list_elem_of_singleton)).
    simpl in Hlast. lia.
Qed.

Lemma inWindow_none start end_ pts :
  Forall (λ q, end_ <= Timestamp q) pts → inWindow start end_ pts = [].
Proof.
  induction 1 as [|q pts Hq _ IH]; [done|].
  rewrite inWindow_cons, IH. case_decide; [lia|done].
Qed.

(** [selectPoints] on a well-formed series and a range with [start <= end_]. *)
Lemma selectPoints_window mt start end_ :
  seriesOK mt → start <= end_ →
  selectPoints mt start end_ = Some (inWindow start end_ (points mt)).
Proof.
  intros Hok Hse. pose proof (series_bounds mt Hok) as Hb.
  destruct Hok as (Hsize & Hasc & _). unfold selectPoints.
  destruct (Z.leb_spec end_ (minTimestamp mt)).
  { rewrite inWindow_none; [done|].
    eapply Forall_impl; [exact Hb|]. simpl. intros. lia. }
  assert (Hstart :
    (if start <=? minTimestamp mt then Some 0
     else sort_Search (size mt)
            (λ i, p ← index (points mt) i; Some (start <=? Timestamp p)))
    = Some (Z.of_nat (before start (points mt)))).
  { destruct (Z.leb_spec start (minTimestamp mt)).
    - rewrite before_none; [done|].
      eapply Forall_impl; [exact Hb|]. simpl. intros. lia.
    - rewrite Hsize. by apply sort_Search_before. }
  assert (Hend :
    (if maxTimestamp mt <? end_ then Some (size mt)
     else sort_Search (size mt)
            (λ i, p ← index (points mt) i; Some (end_ <=? Timestamp p)))
    = Some (Z.of_nat (before end_ (points mt)))).
  { destruct (Z.ltb_spec (maxTimestamp mt) end_).
    - rewrite before_all; [by rewrite Hsize|].
      eapply Forall_impl; [exact Hb|]. simpl. intros. lia.
    - rewrite Hsize. by apply sort_Search_before. }
  rewrite Hstart, Hend. simpl. by apply slice_window.
Qed.

End Select.

(** ** memory_partition.go: the partition *)

Section PartitionFacts.
Import Go MemPart.
Context `{SortSlice} {WAL : Type}.
Variable wal_append : WAL → Z → list Row → WAL * option error.
Variable clock : nat → Z.

(** The sum over all series of [size] plus the out-of-order points. *)
Definition total (ms : gmap string memoryMetric) : Z :=
  map_fold (λ _ mt acc, held mt + acc) 0 ms.

(** The sum over all series of [size] alone. *)
Definition totalSize (ms : gmap string memoryMetric) : Z :=
  map_fold (λ _ mt acc, size mt + acc) 0 ms.

Definition allSeries (P : memoryMetric → Prop) (ms : gmap string memoryMetric) : Prop :=
  ∀ k mt, ms !! k = Some mt → P mt.

Definition allStored (Q : DataPoint → Prop) (ms : gmap string memoryMetric) : Prop :=
  ∀ k mt p, ms !! k = Some mt → p ∈ stored mt → Q p.

Lemma total_insert_new ms k v :
  ms !! k = None → total (<[k := v]> ms) = held v + total ms.
Proof. intros Hk. unfold total. rewrite map_fold_insert_L; [done| |done]. intros. lia. Qed.

Lemma total_insert_old ms k v old :
  ms !! k = Some old → total (<[k := v]> ms) = held v + total ms - held old.
Proof.
  intros Hk. rewrite <- insert_delete_eq.
  rewrite total_insert_new by apply lookup_delete_eq.
  unfold total at 2. rewrite (map_fold_delete_L _ _ k old ms); [|intros; lia|done].
  fold (total (delete k ms)). lia.
Qed.

(** The series [getMetric] hands out, and the map it leaves. *)
Definition seriesAt (ms : gmap string memoryMetric) (key : string) : memoryMetric :=
  default (mkMetric key 0 0 0 [] []) (ms !! key).

Lemma getMetric_spec ms key :
  getMetric ms key
  = (seriesAt ms key, if ms !! key is Some _ then ms else <[key := seriesAt ms key]> ms).
Proof. unfold getMetric, seriesAt. by destruct (ms !! key). Qed.

Lemma seriesAt_ok ms key : allSeries seriesOK ms → seriesOK (seriesAt ms key).
Proof.
  intros Hms. unfold seriesAt. destruct (ms !! key) eqn:E; simpl; [by eapply Hms|].
  apply seriesOK_new.
Qed.

Lemma held_seriesAt_new ms key : ms !! key = None → held (seriesAt ms key) = 0.
Proof. intros E. unfold seriesAt. by rewrite E. Qed.

Lemma stored_seriesAt_new ms key : ms !! key = None → stored (seriesAt ms key) = [].
Proof. intros E. unfold seriesAt. by rewrite E. Qed.

(** The map after [getMetric] and a store at the same key. *)
Lemma insert_after_getMetric ms key v :
  <[key := v]> (getMetric ms key).2 = <[key := v]> ms.
Proof.
  rewrite getMetric_spec. simpl. destruct (ms !! key); [done|].
  apply insert_insert_eq.
Qed.

Lemma total_store ms key v :
  total (<[key := v]> ms) = total ms + held v - held (seriesAt ms key).
Proof.
  destruct (ms !! key) as [old|] eqn:E.
  - rewrite (total_insert_old _ _ _ old E). unfold seriesAt. rewrite E. simpl. lia.
  - rewrite (total_insert_new _ _ _ E), (held_seriesAt_new _ _ E). lia.
Qed.

Lemma allSeries_store P ms key v :
  allSeries P ms → P v → allSeries P (<[key := v]> ms).
Proof.
  intros Hms Hv k mt. rewrite lookup_insert. case_decide; [|by apply Hms].
  by intros [= <-].
Qed.

Lemma allStored_store Q ms key v :
  allStored Q ms → (∀ p, p ∈ stored v → Q p) → allStored Q (<[key := v]> ms).
Proof.
  intros Hms Hv k mt p. rewrite lookup_insert. case_decide; [|by apply Hms].
  intros [= <-]. apply Hv.
Qed.

Lemma stored_seriesAt Q ms key p :
  allStored Q ms → p ∈ stored (seriesAt ms key) → Q p.
Proof.
  intros Hms. unfold seriesAt. destruct (ms !! key) eqn:E; simpl; [by eapply Hms|].
  by intros ?%elem_of_nil.
Qed.

End PartitionFacts.

Section InsertRows.
Import Go MemPart.
Context `{SortSlice} {WAL : Type}.
Variable wal_append : WAL → Z → list Row → WAL * option error.
Variable clock : nat → Z.

(** The timestamp a row is stored with, and the clock reading after it. *)
Definition stamp (precision : TimestampPrecision) (tick : nat) (row : Row) : Z * nat :=
  if Timestamp (Point row) =? 0
  then (toUnix (clock tick) precision, S tick)
  else (Timestamp (Point row), tick).

(** One turn of the loop of [insertRows], as a function. *)
Definition insertRowSpec (minT : Z) (precision : TimestampPrecision)
    (st : loopState) (row : Row) : loopState :=
  if decide (Timestamp (Point row) < minT) then
    mkLoop (l_tick st) (l_metrics st) (l_outdated st ++ [row])
           (l_maxTimestamp st) (l_rowsNum st)
  else
    let ts := (stamp precision (l_tick st) row).1 in
    let key := Labels.metricKey (Metric row) (Labels row) in
    mkLoop (stamp precision (l_tick st) row).2
           (<[key := insertPointSpec (seriesAt (l_metrics st) key)
                       (mkPoint ts (Value (Point row)))]> (l_metrics st))
           (l_outdated st)
           (Z.max (l_maxTimestamp st) ts)
           (l_rowsNum st + 1).

Lemma insertRow_spec minT precision st row :
  allSeries seriesOK (l_metrics st) →
  insertRow clock minT precision st row = Some (insertRowSpec minT precision st row).
Proof.
  intros Hms. unfold insertRow, insertRowSpec, stamp.
  destruct (Z.ltb_spec (Timestamp (Point row)) minT); case_decide; try lia; [done|].
  set (key := Labels.metricKey (Metric row) (Labels row)).
  destruct (Timestamp (Point row) =? 0); simpl.
  all: pose proof (insert_after_getMetric (l_metrics st) key) as Hins.
  all: rewrite getMetric_spec in *; simpl in *.
  all: rewrite insertPoint_spec by (by apply seriesAt_ok); simpl.
  all: rewrite Hins; do 2 f_equal.
  all: match goal with |- context [?a <? ?b] => destruct (Z.ltb_spec a b) end; lia.
Qed.

Lemma insertLoop_spec minT precision rows : ∀ st,
  allSeries seriesOK (l_metrics st) →
  insertLoop clock minT precision st rows
  = Some (foldl (insertRowSpec minT precision) st rows)
  ∧ allSeries seriesOK (l_metrics (foldl (insertRowSpec minT precision) st rows)).
Proof.
  induction rows as [|row rows IH]; intros st Hms; [done|]. simpl.
  rewrite insertRow_spec by done. simpl. apply IH.
  unfold insertRowSpec. case_decide; [done|]. simpl.
  apply allSeries_store; [done|]. by apply insertPoint_ok, seriesAt_ok.
Qed.

Lemma toUnix_nonneg t precision : 0 <= t → 0 <= toUnix t precision.
Proof.
  intros Ht. destruct precision; simpl; try done.
  - by apply Z.quot_pos.
  - by apply Z.quot_pos.
  - by apply Z.div_pos.
Qed.

(** What one turn keeps, and what it changes. *)
Lemma insertRowSpec_total minT precision st row :
  let st' := insertRowSpec minT precision st row in
  total (l_metrics st') - l_rowsNum st' = total (l_metrics st) - l_rowsNum st.
Proof.
  unfold insertRowSpec. case_decide; [done|]. simpl.
  rewrite total_store, held_insertPoint. lia.
Qed.

Lemma insertRowSpec_max minT precision st row :
  l_maxTimestamp st <= l_maxTimestamp (insertRowSpec minT precision st row).
Proof. unfold insertRowSpec. case_decide; simpl; lia. Qed.

Lemma insertRowSpec_outdated minT precision st row :
  l_outdated (insertRowSpec minT precision st row)
  = l_outdated st ++ filter (λ r, Timestamp (Point r) < minT) [row].
Proof.
  unfold insertRowSpec. rewrite filter_cons, filter_nil.
  case_decide; simpl; [done|]. by rewrite app_nil_r.
Qed.

Lemma insertRowSpec_stored minT precision st row :
  (∀ k, 0 <= clock k) →
  allStored (λ p, minT <= Timestamp p) (l_metrics st) →
  allStored (λ p, minT <= Timestamp p) (l_metrics (insertRowSpec minT precision st row)).
Proof.
  intros Hclock Hst. unfold insertRowSpec. case_decide as Hout; [done|]. simpl.
  apply allStored_store; [done|]. intros p.
  rewrite stored_insertPoint. intros [->|Hp]%elem_of_cons.
  - simpl. unfold stamp. destruct (Z.eqb_spec (Timestamp (Point row)) 0) as [E|E]; simpl.
    + pose proof (toUnix_nonneg _ precision (Hclock (l_tick st))). lia.
    + lia.
  - exact (stored_seriesAt (λ p, minT <= Timestamp p) _ _ p Hst Hp).
Qed.

Lemma foldl_insertRowSpec minT precision rows : ∀ st,
  let st' := foldl (insertRowSpec minT precision) st rows in
  total (l_metrics st') - l_rowsNum st' = total (l_metrics st) - l_rowsNum st
  ∧ l_maxTimestamp st <= l_maxTimestamp st'
  ∧ l_outdated st' = l_outdated st ++ filter (λ r, Timestamp (Point r) < minT) rows
  ∧ ((∀ k, 0 <= clock k) →
     allStored (λ p, minT <= Timestamp p) (l_metrics st) →
     allStored (λ p, minT <= Timestamp p) (l_metrics st')).
Proof.
  induction rows as [|row rows IH]; intros st; simpl.
  - rewrite app_nil_r. repeat split; (done || lia).
  - destruct (IH (insertRowSpec minT precision st row)) as (Ht & Hm & Ho & Hs).
    pose proof (insertRowSpec_total minT precision st row) as Ht1.
    pose proof (insertRowSpec_max minT precision st row) as Hm1.
    simpl in Ht1. split; [lia|]. split; [lia|]. split.
    + rewrite Ho, insertRowSpec_outdated, <- app_assoc. f_equal.
      rewrite (filter_cons _ row rows), filter_cons, filter_nil.
      by case_decide.
    + intros Hclock Hst. apply Hs; [done|]. by apply insertRowSpec_stored.
Qed.

Lemma batchMin_le first rows : batchMin first rows <= Timestamp (Point first).
Proof.
  unfold batchMin.
  assert (G : ∀ z, foldl (λ min row, if Timestamp (Point row) <? min
                            then Timestamp (Point row) else min) z rows <= z).
  { induction rows as [|r rows IH]; intros z; simpl; [lia|].
    destruct (Z.ltb_spec (Timestamp (Point r)) z); etrans; try apply IH; lia. }
  apply G.
Qed.

End InsertRows.

Section Reachable.
Import Go MemPart.
Context `{SortSlice} {WAL : Type}.
Variable wal_append : WAL → Z → list Row → WAL * option error.
Variable clock : nat → Z.

(** A partition changes by a call of [insertRows] or [selectDataPoints]. *)
Inductive step : memoryPartition WAL → memoryPartition WAL → Prop :=
| step_insert tick m rows tick' m' res :
    insertRows wal_append clock tick m rows = Some (tick', m', res) → step m m'
| step_select m metric labels start end_ pts m' :
    selectDataPoints m metric labels start end_ = Some (pts, m') → step m m'.

(** The partitions the code can build. *)
Definition reachable (m : memoryPartition WAL) : Prop :=
  ∃ wal duration precision,
    rtc step (newMemoryPartition wal duration precision) m.

Definition partOK (m : memoryPartition WAL) : Prop :=
  allSeries seriesOK (metrics m)
  ∧ numPoints m = total (metrics m)
  ∧ minT m <= maxT m
  ∧ (once m = false → allStored (λ _, False) (metrics m)).

(** Once the minimum is fixed, no stored point lies before it. *)
Definition aboveMin (m : memoryPartition WAL) : Prop :=
  once m = true → allStored (λ p, minT m <= Timestamp p) (metrics m).

(** [insertRows] on a batch the log accepts. *)
Lemma insertRows_accepted tick m first rows w :
  allSeries seriesOK (metrics m) →
  wal_append (wal m) operationInsert (first :: rows) = (w, None) →
  let minT' := if once m then minT m else batchMin first (first :: rows) in
  let st := foldl (insertRowSpec clock minT' (timestampPrecision m))
              (mkLoop tick (metrics m) [] (Timestamp (Point first)) 0)
              (first :: rows) in
  insertRows wal_append clock tick m (first :: rows)
  = Some (l_tick st,
          mkPartition (numPoints m + l_rowsNum st) minT'
            (Z.max (maxT m) (l_maxTimestamp st)) (l_metrics st) w
            (partitionDuration m) (timestampPrecision m) true,
          Ok (l_outdated st)).
Proof.
  intros Hms Hwal minT' st. unfold insertRows. rewrite Hwal.
  pose proof (insertLoop_spec clock minT' (timestampPrecision m) (first :: rows)
                (mkLoop tick (metrics m) [] (Timestamp (Point first)) 0) Hms)
    as [Hloop _].
  fold minT'. rewrite Hloop. cbn [mbind option_bind]. fold st. do 4 f_equal.
  destruct (Z.ltb_spec (maxT m) (l_maxTimestamp st)); lia.
Qed.

Lemma insertRows_partOK tick m rows tick' m' res :
  partOK m → insertRows wal_append clock tick m rows = Some (tick', m', res) →
  partOK m'.
Proof.
  intros (Hms & Hnum & Hmm & Hnone) Hrun.
  destruct rows as [|first rows]; [by injection Hrun as _ <- _|].
  destruct (wal_append (wal m) operationInsert (first :: rows)) as [w [err|]] eqn:Hwal.
  { unfold insertRows in Hrun. rewrite Hwal in Hrun. by injection Hrun as _ <- _. }
  rewrite (insertRows_accepted _ _ _ _ w Hms Hwal) in Hrun.
  injection Hrun as _ <- _.
  set (minT' := if once m then minT m else batchMin first (first :: rows)) in *.
  set (st0 := mkLoop tick (metrics m) [] (Timestamp (Point first)) 0).
  destruct (insertLoop_spec clock minT' (timestampPrecision m) (first :: rows) st0 Hms)
    as [_ Hms'].
  destruct (foldl_insertRowSpec clock minT' (timestampPrecision m) (first :: rows) st0)
    as (Ht & Hmax & _ & _).
  unfold partOK. simpl in *. refine (conj Hms' (conj _ (conj _ _))); [lia| |done].
  subst minT'. destruct (once m); [lia|].
  pose proof (batchMin_le first (first :: rows)). lia.
Qed.


(** [selectDataPoints] changes the partition by at most an empty series. *)
Lemma selectDataPoints_spec (m : memoryPartition WAL) metric labels start end_ pts m' :
  selectDataPoints m metric labels start end_ = Some (pts, m') →
  let key := Labels.metricKey metric labels in
  selectPoints (seriesAt (metrics m) key) start end_ = Some pts
  ∧ m' = mkPartition (numPoints m) (minT m) (maxT m)
           (if metrics m !! key is Some _ then metrics m
            else <[key := seriesAt (metrics m) key]> (metrics m))
           (wal m) (partitionDuration m) (timestampPrecision m) (once m).
Proof.
  unfold selectDataPoints. rewrite getMetric_spec. simpl.
  destruct (selectPoints _ _ _) as [pts'|]; simpl; [|done].
  by intros [= <- <-].
Qed.

Lemma select_partOK (m : memoryPartition WAL) metric labels start end_ pts m' :
  partOK m → selectDataPoints m metric labels start end_ = Some (pts, m') →
  partOK m' ∧ (aboveMin m → aboveMin m')
  ∧ once m' = once m ∧ minT m' = minT m.
Proof.
  intros (Hms & Hnum & Hmm & Hnone) [_ ->]%selectDataPoints_spec.
  set (key := Labels.metricKey metric labels).
  unfold partOK, aboveMin. simpl.
  destruct (metrics m !! key) eqn:E; [done|].
  refine (conj (conj _ (conj _ (conj Hmm _))) (conj _ (conj eq_refl eq_refl))).
  - apply allSeries_store; [done|]. by apply seriesAt_ok.
  - rewrite total_insert_new, held_seriesAt_new by done. lia.
  - intros Ho. apply allStored_store; [by apply Hnone|].
    rewrite stored_seriesAt_new by done. by intros p ?%elem_of_nil.
  - intros Ha Ho. apply allStored_store; [by apply Ha|].
    rewrite stored_seriesAt_new by done. by intros p ?%elem_of_nil.
Qed.

Lemma new_partOK (wal : WAL) duration precision :
  partOK (newMemoryPartition wal duration precision)
  ∧ aboveMin (newMemoryPartition wal duration precision).
Proof.
  unfold partOK, aboveMin, allSeries, allStored. simpl.
  repeat split; try done; intros; by rewrite ?lookup_empty in *.
Qed.

Lemma step_partOK m m' : partOK m → step m m' → partOK m'.
Proof.
  intros Hm Hstep.
  destruct Hstep as [tick m rows tick' m' res Hrun | m metric labels s e pts m' Hrun].
  - exact (insertRows_partOK _ _ _ _ _ _ Hm Hrun).
  - exact (proj1 (select_partOK _ _ _ _ _ _ _ Hm Hrun)).
Qed.

Lemma steps_partOK m m' : partOK m → rtc step m m' → partOK m'.
Proof. intros Hm Hsteps. induction Hsteps; eauto using step_partOK. Qed.

Lemma reachable_partOK m : reachable m → partOK m.
Proof.
  intros (w & d & p & Hsteps). eapply steps_partOK; [|done]. apply new_partOK.
Qed.




End Reachable.

(** ** memory_partition.go: the claims on the partition *)

Section PartitionClaims.
Import Go MemPart.
Context `{SortSlice} {WAL : Type}.
Variable wal_append : WAL → Z → list Row → WAL * option error.
Variable clock : nat → Z.



Lemma StronglySorted_weaken {A} (R R' : relation A) l :
  (∀ a b, R a b → R' a b) → StronglySorted R l → StronglySorted R' l.
Proof.
  intros HR. induction 1 as [|x l Hl IH Hx]; constructor; [done|].
  eapply Forall_impl; [exact Hx|]. apply HR.
Qed.

Lemma ascending_inWindow start end_ pts :
  ascending pts → ascending (inWindow start end_ pts).
Proof. apply StronglySorted_filter. Qed.

(** C7, as amended.  In every partition the code can build,
    [minTimestamp() <= maxTimestamp()], and [numPoints] is the sum over the
    series of [size] plus the number of out-of-order points of the series
    ([size] counts the in-order points only). *)
Theorem partition_counting (m : memoryPartition WAL) :
  reachable wal_append clock m →
  minTimestampOf m <= maxTimestampOf m
  ∧ numPoints m = total (metrics m).
Proof. intros (_ & Hnum & Hmm & _)%reachable_partOK. done. Qed.

(** C5.  When the WAL append fails on a non-empty batch, [insertRows] returns
    an error and leaves [minT], [maxT], [numPoints], the [sync.Once] and every
    series as they were. *)
Theorem wal_failure_atomic (tick : nat) (m : memoryPartition WAL)
    (rows : list Row) (w : WAL) (err : error) :
  rows ≠ [] →
  wal_append (wal m) operationInsert rows = (w, Some err) →
  ∃ m' e,
    insertRows wal_append clock tick m rows = Some (tick, m', Err e)
    ∧ minT m' = minT m ∧ maxT m' = maxT m ∧ numPoints m' = numPoints m
    ∧ once m' = once m ∧ metrics m' = metrics m.
Proof.
  intros Hne Hwal. destruct rows as [|first rows]; [done|].
  unfold insertRows. rewrite Hwal. by eexists _, _.
Qed.

(** C3, as amended.  For a query range with [start <= end_],
    [selectDataPoints] returns exactly the points of the in-order list of the
    series with [start <= t < end_], in ascending timestamp order; the result
    is a function of the in-order list alone, whatever the out-of-order list
    holds. *)
Theorem select_window (m : memoryPartition WAL) (metric : string)
    (labels : list Labels.Label) (start end_ : Z) :
  reachable wal_append clock m → start <= end_ →
  let series := seriesAt (metrics m) (Labels.metricKey metric labels) in
  ∃ m',
    selectDataPoints m metric labels start end_
    = Some (inWindow start end_ (points series), m')
    ∧ StronglySorted (λ a b, Timestamp a <= Timestamp b)
        (inWindow start end_ (points series)).
Proof.
  intros (Hms & _)%reachable_partOK Hse series.
  assert (Hok : seriesOK series) by (by apply seriesAt_ok).
  unfold selectDataPoints. rewrite getMetric_spec. fold series. simpl.
  rewrite selectPoints_window by done. simpl. eexists. split; [done|].
  destruct Hok as (_ & Hasc & _).
  eapply StronglySorted_weaken; [|exact (ascending_inWindow start end_ _ Hasc)].
  simpl. intros. lia.
Qed.

(** [insertRows] keeps a minimum that is fixed. *)
Lemma insertRows_once tick (m : memoryPartition WAL) rows tick' m' res :
  insertRows wal_append clock tick m rows = Some (tick', m', res) →
  once m = true → once m' = true ∧ minT m' = minT m.
Proof.
  intros Hrun Honce. destruct rows as [|first rows]; [by injection Hrun as _ <- _|].
  unfold insertRows in Hrun.
  destruct (wal_append (wal m) operationInsert (first :: rows)) as [w [err|]];
    [by injection Hrun as _ <- _|].
  rewrite Honce in Hrun.
  destruct (insertLoop _ _ _ _ _) as [st|]; [|done].
  by injection Hrun as _ <- _.
Qed.



End PartitionClaims.

(** ** memory_partition.go: runs of the partition *)

Section PartitionRuns.
Import MemPart.

(** A log that accepts every batch (the [nopWAL] of the code), a log on a
    full disk, and a clock started late in 2023. *)
Definition nopAppend (w : unit) (op : Z) (rows : list Row) : unit * option error :=
  (w, None).

Definition fullDisk (w : unit) (op : Z) (rows : list Row) : unit * option error :=
  (w, Some "no space left on device").

Definition lateClock (k : nat) : Z := 1700000000000000000 + Z.of_nat k.

Definition fresh : memoryPartition unit :=
  newMemoryPartition tt 3600000000000 Seconds.

Definition row (metric : string) (ts : Z) : Row := mkRow metric [] (mkPoint ts 0).

(** The partition after one accepted batch. *)
Definition after (rows : list Row) : memoryPartition unit :=
  match insertRows (H := insertion_SortSlice) nopAppend lateClock 0 fresh rows with
  | Some (_, m, _) => m
  | None => fresh
  end.

Lemma lateClock_nonneg k : 0 <= lateClock k.
Proof. unfold lateClock. lia. Qed.

Lemma after_reachable rows :
  reachable (H := insertion_SortSlice) nopAppend lateClock (after rows).
Proof.
  exists tt, 3600000000000, Seconds. unfold after. fold fresh.
  destruct (insertRows nopAppend lateClock 0 fresh rows) as [[[t m] res]|] eqn:E.
  - eapply rtc_once, step_insert, E.
  - apply rtc_refl.
Qed.

End PartitionRuns.

Lemma partition_counting_witness :
  let m := after [row "m1" 5; row "m1" 3; row "m2" 4] in
  MemPart.minTimestampOf m <= MemPart.maxTimestampOf m
  ∧ MemPart.numPoints m = total (MemPart.metrics m).
Proof.
  apply (partition_counting (H := insertion_SortSlice) nopAppend lateClock).
  apply after_reachable.
Defined.

(** C7 fails as stated: after the batch (5, 3) for one metric, [numPoints]
    is 2 and the only series has [size] 1, the point 3 being out of order. *)
Lemma partition_counting_counterexample :
  let m := after [row "m1" 5; row "m1" 3] in
  reachable (H := insertion_SortSlice) nopAppend lateClock m
  ∧ MemPart.numPoints m = 2
  ∧ totalSize (MemPart.metrics m) = 1
  ∧ MemPart.metrics m !! "m1"
    = Some (MemPart.mkMetric "m1" 1 5 5 [MemPart.mkPoint 5 0] [MemPart.mkPoint 3 0]).
Proof.
  split; [apply after_reachable|]. vm_compute. done.
Qed.

Lemma wal_failure_atomic_witness :
  ∃ m' e,
    MemPart.insertRows (H := insertion_SortSlice) fullDisk lateClock 0
      (after [row "m1" 5]) [row "m1" 7] = Some (0%nat, m', MemPart.Err e)
    ∧ MemPart.minT m' = MemPart.minT (after [row "m1" 5])
    ∧ MemPart.maxT m' = MemPart.maxT (after [row "m1" 5])
    ∧ MemPart.numPoints m' = MemPart.numPoints (after [row "m1" 5])
    ∧ MemPart.once m' = MemPart.once (after [row "m1" 5])
    ∧ MemPart.metrics m' = MemPart.metrics (after [row "m1" 5]).
Proof.
  apply (wal_failure_atomic (H := insertion_SortSlice) fullDisk lateClock 0
           (after [row "m1" 5]) [row "m1" 7] tt "no space left on device").
  - discriminate.
  - reflexivity.
Defined.

Lemma select_window_witness :
  let m := after [row "m1" 1; row "m1" 2; row "m1" 3] in
  let series := seriesAt (MemPart.metrics m) (Labels.metricKey "m1" []) in
  ∃ m',
    MemPart.selectDataPoints (H := insertion_SortSlice) m "m1" [] 2 4
    = Some (inWindow 2 4 (MemPart.points series), m')
    ∧ StronglySorted (λ a b, MemPart.Timestamp a <= MemPart.Timestamp b)
        (inWindow 2 4 (MemPart.points series)).
Proof.
  apply (select_window (H := insertion_SortSlice) nopAppend lateClock).
  - apply after_reachable.
  - lia.
Defined.

(** C3 fails as stated: on the series 1, 2, 3 the range with start 3 and end
    2 holds no point, and the slice expression [points[2:1]] panics. *)
Lemma select_window_counterexample :
  let m := after [row "m1" 1; row "m1" 2; row "m1" 3] in
  reachable (H := insertion_SortSlice) nopAppend lateClock m
  ∧ MemPart.selectDataPoints (H := insertion_SortSlice) m "m1" [] 3 2 = None.
Proof. split; [apply after_reachable|]. vm_compute. reflexivity. Qed.

(** The scenarios of the specification on one partition. *)
Example select_in_order :
  fst <$> MemPart.selectDataPoints (H := insertion_SortSlice)
            (after [row "m1" 1; row "m1" 2; row "m1" 3]) "m1" [] 1 4
  = Some [MemPart.mkPoint 1 0; MemPart.mkPoint 2 0; MemPart.mkPoint 3 0].
Proof. vm_compute. reflexivity. Qed.

Example select_hides_out_of_order :
  fst <$> MemPart.selectDataPoints (H := insertion_SortSlice)
            (after [row "m1" 5; row "m1" 3]) "m1" [] 1 10
  = Some [MemPart.mkPoint 5 0].
Proof. vm_compute. reflexivity. Qed.




(** Why the clock is taken not to run before the epoch.  With a clock 20
    seconds before it and the minimum at -10, the row of "m2" with timestamp
    -20 is outdated, and the row of "m2" with timestamp 0 is stamped with
    -20 and stored: a later query returns a point with the timestamp and
    the value of the outdated row. *)
Definition earlyClock (k : nat) : Z := -20000000000.

Example outdated_row_and_stamped_row :
  let m0 := MemPart.newMemoryPartition tt 3600000000000 MemPart.Seconds in
  ∃ m m',
    MemPart.insertRows (H := insertion_SortSlice) nopAppend earlyClock 0 m0
      [row "m1" (-10)] = Some (0%nat, m, MemPart.Ok [])
    ∧ MemPart.insertRows (H := insertion_SortSlice) nopAppend earlyClock 0 m
        [row "m2" (-20); row "m2" 0]
      = Some (1%nat, m', MemPart.Ok [row "m2" (-20)])
    ∧ fst <$> MemPart.selectDataPoints (H := insertion_SortSlice) m' "m2" []
                (-30) 0
      = Some [MemPart.mkPoint (-20) 0].
Proof. intros m0. eexists _, _. vm_compute. done. Qed.

Example outdated_row_returned :
  MemPart.insertRows (H := insertion_SortSlice) nopAppend lateClock 0
    (after [row "m1" 100]) [row "m1" 50]
  = Some (0%nat, after [row "m1" 100], MemPart.Ok [row "m1" 50]).
Proof. vm_compute. reflexivity. Qed.

(** C6 fails on the code: in a partition whose minimum is 100, the row with
    timestamp 0 meets the outdated check before the stamping; it is handed
    back as outdated, the clock is not read and no series changes. *)
Theorem zero_timestamp_row_is_outdated :
  MemPart.insertRows (H := insertion_SortSlice) nopAppend lateClock 0
    (after [row "m1" 100]) [row "m1" 0]
  = Some (0%nat, after [row "m1" 100], MemPart.Ok [row "m1" 0]).
Proof. vm_compute. reflexivity. Qed.

(** The stamping is reached when the minimum is not above 0: in a fresh
    partition the batch fixes the minimum at 0 and the row is stamped with
    the clock, in seconds. *)
Example zero_timestamp_row_stamped :
  MemPart.metrics (after [row "m1" 0]) !! "m1"
  = Some (MemPart.mkMetric "m1" 1 1700000000 1700000000
            [MemPart.mkPoint 1700000000 0] []).
Proof. vm_compute. reflexivity. Qed.

(** ** memory_partition.go: the merge at flush time (C9) *)

Section Flush.
Import Go MemPart.
Context `{SortSlice} {Encoder : Type}.
Variable encodePoint : Encoder → DataPoint → Encoder * option error.

(** Non-decreasing timestamps. *)
Definition tsLe (a b : DataPoint) : Prop := Timestamp a <= Timestamp b.

#[global] Instance tsLe_dec a b : Decision (tsLe a b) := Z_le_dec _ _.
#[global] Instance tsLe_total : Total tsLe.
Proof. intros a b. unfold tsLe. lia. Qed.
#[global] Instance tsLe_trans : Transitive tsLe.
Proof. intros a b c. unfold tsLe. lia. Qed.

(** What is left of [encodeAllPoints] after its first loop. *)
Definition finish
    (r : Encoder * option error * list DataPoint * list DataPoint)
  : Encoder * option error :=
  match r with
  | (enc, Some err, _, _) => (enc, Some err)
  | (enc, None, ooo, pts) =>
      match drainLoop Encoder encodePoint enc ooo with
      | (enc, Some err) => (enc, Some err)
      | (enc, None) => drainLoop Encoder encodePoint enc pts
      end
  end.

Lemma drainLoop_nil_after enc l :
  match drainLoop Encoder encodePoint enc l with
  | (enc', Some err) => (enc', Some err)
  | (enc', None) => drainLoop Encoder encodePoint enc' []
  end = drainLoop Encoder encodePoint enc l.
Proof. by destruct (drainLoop _ _ enc l) as [e [err|]]. Qed.

(** The three loops together hand the encoder the merge of the two lists,
    up to the first error. *)
Lemma finish_mergeLoop enc ooo pts :
  finish (mergeLoop Encoder encodePoint enc ooo pts)
  = drainLoop Encoder encodePoint enc (list_merge tsLe pts ooo).
Proof.
  funelim (mergeLoop Encoder encodePoint enc ooo pts).
  - by rewrite list_merge_nil_r.
  - rewrite list_merge_nil_l. unfold finish. apply drainLoop_nil_after.
  - rewrite list_merge_cons, decide_False by (unfold tsLe; lia).
    simpl. by rewrite Heq.
  - rewrite list_merge_cons, decide_False by (unfold tsLe; lia).
    simpl. by rewrite Heq.
  - rewrite list_merge_cons, decide_True by (unfold tsLe; lia).
    simpl. by rewrite Heq.
  - rewrite list_merge_cons, decide_True by (unfold tsLe; lia).
    simpl. by rewrite Heq.
Qed.

Lemma sorted_outOfOrder (ooo : list DataPoint) :
  StronglySorted tsLe (sort_Slice (λ a b, Timestamp a <? Timestamp b) ooo).
Proof.
  eapply StronglySorted_weaken; [|apply sort_Slice_sorted].
  - unfold tsLe. intros a b ?%Z.ltb_ge. done.
  - intros a b ?%Z.ltb_lt. apply Z.ltb_ge. lia.
  - intros a b c ?%Z.ltb_ge ?%Z.ltb_ge. apply Z.ltb_ge. lia.
Qed.

(** When no call fails, the loop hands over every point. *)
Lemma drainLoop_all enc l :
  (∀ e p, (encodePoint e p).2 = None) →
  drainLoop Encoder encodePoint enc l
  = (foldl (λ e p, (encodePoint e p).1) enc l, None).
Proof.
  intros Hok. revert enc. induction l as [|p l IH]; intros enc; [done|]. simpl.
  specialize (Hok enc p). destruct (encodePoint enc p) as [e err]. simpl in *.
  subst err. apply IH.
Qed.

Lemma encodeAllPoints_finish m enc :
  let ooo := sort_Slice (λ a b, Timestamp a <? Timestamp b) (outOfOrderPoints m) in
  encodeAllPoints encodePoint m enc
  = (mkMetric (name m) (size m) (minTimestamp m) (maxTimestamp m) (points m) ooo,
     (finish (mergeLoop Encoder encodePoint enc ooo (points m))).1,
     (finish (mergeLoop Encoder encodePoint enc ooo (points m))).2).
Proof.
  intros ooo. unfold encodeAllPoints, finish. fold ooo. cbn [points].
  destruct (mergeLoop _ _ enc ooo (points m)) as [[[e [err|]] o'] p']; [done|].
  destruct (drainLoop _ _ e o') as [e1 [err1|]]; [done|].
  by destruct (drainLoop _ _ e1 p') as [e2 err2].
Qed.

End Flush.

(** C9.  For a series whose in-order points do not decrease in time,
    [encodeAllPoints] hands the encoder, point by point and up to the first
    error, a sequence that is a permutation of the in-order points with the
    out-of-order points and does not decrease in time; when no call of
    [encodePoint] fails every point of it is handed over and the result is
    nil. *)
Theorem encodeAllPoints_merges `{Go.SortSlice} {Encoder : Type}
    (encodePoint : Encoder → MemPart.DataPoint → Encoder * option MemPart.error)
    (m : MemPart.memoryMetric) (enc : Encoder) :
  StronglySorted tsLe (MemPart.points m) →
  ∃ fed,
    fed ≡ₚ MemPart.points m ++ MemPart.outOfOrderPoints m
    ∧ StronglySorted tsLe fed
    ∧ ((MemPart.encodeAllPoints encodePoint m enc).1.2,
       (MemPart.encodeAllPoints encodePoint m enc).2)
      = MemPart.drainLoop Encoder encodePoint enc fed
    ∧ ((∀ e p, (encodePoint e p).2 = None) →
       (MemPart.encodeAllPoints encodePoint m enc).2 = None
       ∧ (MemPart.encodeAllPoints encodePoint m enc).1.2
         = foldl (λ e p, (encodePoint e p).1) enc fed).
Proof.
  intros Hpts.
  set (ooo := Go.sort_Slice (λ a b, MemPart.Timestamp a <? MemPart.Timestamp b)
                (MemPart.outOfOrderPoints m)).
  exists (list_merge tsLe (MemPart.points m) ooo).
  assert (Hrun :
    ((MemPart.encodeAllPoints encodePoint m enc).1.2,
     (MemPart.encodeAllPoints encodePoint m enc).2)
    = MemPart.drainLoop Encoder encodePoint enc
        (list_merge tsLe (MemPart.points m) ooo)).
  { rewrite encodeAllPoints_finish. simpl. fold ooo.
    rewrite <- finish_mergeLoop. by destruct (finish _ _). }
  split; [|split; [|split; [exact Hrun|]]].
  - rewrite merge_Permutation. unfold ooo. by rewrite Go.sort_Slice_perm.
  - apply Sorted_StronglySorted; [apply _|].
    apply Sorted_list_merge; [apply _| |]; apply StronglySorted_Sorted; [done|].
    apply sorted_outOfOrder.
  - intros Hok. rewrite (drainLoop_all encodePoint _ _ Hok) in Hrun.
    by injection Hrun as -> ->.
Qed.

(** An encoder that keeps what it is given. *)
Definition recorder (enc : list MemPart.DataPoint) (p : MemPart.DataPoint)
  : list MemPart.DataPoint * option MemPart.error := (enc ++ [p], None).

Lemma encodeAllPoints_merges_witness :
  let pt := λ ts, MemPart.mkPoint ts 0 in
  let m := MemPart.mkMetric "m1" 3 1 6 [pt 1; pt 4; pt 6] [pt 5; pt 2; pt 4] in
  ∃ fed,
    fed ≡ₚ MemPart.points m ++ MemPart.outOfOrderPoints m
    ∧ StronglySorted tsLe fed
    ∧ ((MemPart.encodeAllPoints (H := insertion_SortSlice) recorder m []).1.2,
       (MemPart.encodeAllPoints (H := insertion_SortSlice) recorder m []).2)
      = MemPart.drainLoop _ recorder [] fed
    ∧ ((∀ e p, (recorder e p).2 = None) →
       (MemPart.encodeAllPoints (H := insertion_SortSlice) recorder m []).2 = None
       ∧ (MemPart.encodeAllPoints (H := insertion_SortSlice) recorder m []).1.2
         = foldl (λ e p, (recorder e p).1) [] fed).
Proof.
  intros pt m.
  apply (encodeAllPoints_merges (H := insertion_SortSlice) recorder m []).
  unfold tsLe. repeat (constructor; [|repeat (constructor; [simpl; lia|]); constructor]).
  constructor.
Defined.

Example encodeAllPoints_recorded :
  let pt := λ ts, MemPart.mkPoint ts 0 in
  let m := MemPart.mkMetric "m1" 3 1 6 [pt 1; pt 4; pt 6] [pt 5; pt 2; pt 4] in
  (MemPart.encodeAllPoints (H := insertion_SortSlice) recorder m []).1.2
  = [pt 1; pt 2; pt 4; pt 4; pt 5; pt 6].
Proof. vm_compute. reflexivity. Qed.

(** ** partition_list.go: the chain of nodes *)

Section PartListFacts.
Import PartList.
Context {P : Type} `{Partition P}.

(** [seg h from ns to]: following [next] from [from], the heap holds the
    nodes [ns], each with its address and its partition, in this order, and
    the last of them points to [to]. *)
Fixpoint seg (h : gmap loc (partitionNode P)) (from : option loc)
    (ns : list (loc * P)) (to : option loc) : Prop :=
  match ns with
  | [] => from = to
  | n :: ns =>
      from = Some n.1 ∧ ∃ nx, h !! n.1 = Some (mkNode n.2 nx) ∧ seg h nx ns to
  end.

(** The nodes of the list: the segment from [head] to nil; no node occurs
    twice in it. *)
Definition chain (st : state P) (ns : list (loc * P)) : Prop :=
  seg (heap st) (head (lst st)) ns None ∧ NoDup ns.*1.

(** The address a segment starts at. *)
Definition first (ns : list (loc * P)) : option loc :=
  match ns with [] => None | n :: _ => Some n.1 end.

Lemma seg_app h a xs ys c :
  seg h a (xs ++ ys) c ↔ ∃ b, seg h a xs b ∧ seg h b ys c.
Proof.
  revert a. induction xs as [|x xs IH]; intros a; simpl.
  - split; [intros Hs; by exists a|intros (b & -> & Hs); done].
  - split.
    + intros (-> & nx & Hl & (b & H1 & H2)%IH). exists b. eauto.
    + intros (b & (-> & nx & Hl & H1) & H2). split; [done|].
      exists nx. split; [done|]. apply IH. eauto.
Qed.

Lemma seg_frame h l n a xs b :
  l ∉ xs.*1 → seg h a xs b → seg (<[l := n]> h) a xs b.
Proof.
  revert a. induction xs as [|x xs IH]; intros a Hl; simpl; [done|].
  intros (-> & nx & Hx & Hs). split; [done|]. exists nx.
  rewrite fmap_cons, not_elem_of_cons in Hl. destruct Hl as [Hne Hl].
  rewrite lookup_insert_ne by done. eauto.
Qed.

Lemma seg_nil_start h xs b : seg h None xs b → xs = [] ∧ b = None.
Proof. destruct xs; simpl; [done|]. by intros [? _]. Qed.

Lemma seg_first h a xs : seg h a xs None → a = first xs.
Proof. destruct xs; simpl; [done|]. by intros [-> _]. Qed.

Lemma seg_dom h a xs b l : seg h a xs b → l ∈ xs.*1 → is_Some (h !! l).
Proof.
  revert a. induction xs as [|x xs IH]; intros a; simpl.
  - intros _ Hl. by apply elem_of_nil in Hl.
  - intros (-> & nx & Hx & Hs) [->|Hl]%elem_of_cons; [eauto|]. eapply IH; eauto.
Qed.


(** Where a cursor is: the node after it is [from]. *)
Definition at_ (st : state P) (it : cursor) (from : option loc) : Prop :=
  match it with
  | CDummy nx => nx = from
  | CNode l => ∃ p, heap st !! l = Some (mkNode p from)
  | CNil => False
  end.

Lemma iteratorNext_at st it from :
  at_ st it from →
  iteratorNext st it = Some (bool_decide (is_Some from), cursorOf from).
Proof.
  destruct it as [nx|l|]; simpl; [by intros ->| |done].
  intros (p & ->). done.
Qed.

(** [prev] and the cursor after a walk over the nodes [pre]. *)
Fixpoint walked (prev : option loc) (pre : list (loc * P)) : option loc :=
  match pre with [] => prev | n :: pre => walked (Some n.1) pre end.

Fixpoint walkedTo (it : cursor) (pre : list (loc * P)) : cursor :=
  match pre with [] => it | n :: pre => walkedTo (CNode n.1) pre end.

Lemma walked_snoc prev pre n : walked prev (pre ++ [n]) = Some n.1.
Proof. revert prev. induction pre; simpl; auto. Qed.

Lemma walked_last prev pre :
  walked prev pre = match last pre with Some n => Some n.1 | None => prev end.
Proof.
  destruct pre as [|n pre _] using rev_ind; [done|].
  by rewrite walked_snoc, last_snoc.
Qed.

Definition differs (target : P) (n : loc * P) : Prop :=
  minTimestamp n.2 ≠ minTimestamp target.

Lemma samePartitions_differs target n :
  differs target n → samePartitions n.2 target = false.
Proof. unfold differs, samePartitions. intros. by apply Z.eqb_neq. Qed.

(** A turn of the loop of [remove] at a node that does not match. *)
Lemma removeLoop_walk k st target pre from mid prev it :
  at_ st it from → seg (heap st) from pre mid → Forall (differs target) pre →
  removeLoop (length pre + k) st target prev it
  = removeLoop k st target (walked prev pre) (walkedTo it pre)
  ∧ at_ st (walkedTo it pre) mid.
Proof.
  revert from prev it.
  induction pre as [|n pre IH]; intros from prev it Hat Hseg Hdiff.
  - simpl in *. by subst.
  - destruct Hseg as (-> & nx & Hn & Hseg).
    apply Forall_cons in Hdiff as [Hd Hdiff].
    cbn [length Nat.add removeLoop walked walkedTo].
    rewrite (iteratorNext_at _ _ _ Hat). cbn. rewrite Hn. cbn.
    rewrite (samePartitions_differs _ _ Hd). cbn.
    apply (IH nx); [by exists n.2|done|done].
Qed.

Lemma removeLoop_end k st target prev it :
  at_ st it None →
  removeLoop (S k) st target prev it
  = Some (st, Some "the given partition was not found"%string).
Proof. intros Hat. simpl. by rewrite (iteratorNext_at _ _ _ Hat). Qed.

Definition cleanFailed (e : error) : error :=
  ("failed to clean resources managed by partition to be removed: " +:+ e)%string.

Lemma removeLoop_found k st target prev it l p nx :
  at_ st it (Some l) → heap st !! l = Some (mkNode p nx) →
  minTimestamp p = minTimestamp target →
  removeLoop (S k) st target prev it
  = (st' ← unlink st prev nx;
     Some ((callClean (addNumPartitions st' (-1)) p).1, cleanFailed <$> clean p)).
Proof.
  intros Hat Hl Hsame. cbn [removeLoop].
  rewrite (iteratorNext_at _ _ _ Hat). cbn. rewrite Hl. cbn.
  unfold samePartitions. rewrite Hsame, Z.eqb_refl. cbn.
  by destruct nx.
Qed.


(** The pointers after the node between [pre] and [post] is unlinked:
    without a node before it, [head] and the head cache are the next node;
    with one, the [next] of that node is the next node, and when there is
    no next node [tail] is the node before and the head cache is nil. *)
Definition unlinked (st : state P) (pre post : list (loc * P))
    (st' : state P) : Prop :=
  match last pre with
  | None =>
      heap st' = heap st
      ∧ head (lst st') = first post
      ∧ headCache (lst st') = first post
      ∧ tail (lst st') = tail (lst st)
  | Some pv =>
      heap st' = <[pv.1 := mkNode pv.2 (first post)]> (heap st)
      ∧ head (lst st') = head (lst st)
      ∧ tail (lst st') = (if post is [] then Some pv.1 else tail (lst st))
      ∧ headCache (lst st')
        = (if post is [] then None else headCache (lst st))
  end.

(** What [unlink] does to the chain. *)
Lemma unlink_chain st pre l p post :
  chain st (pre ++ (l, p) :: post) →
  ∃ st',
    unlink st (walked None pre) (first post) = Some st'
    ∧ chain st' (pre ++ post)
    ∧ numPartitions (lst st') = numPartitions (lst st)
    ∧ cleaned st' = cleaned st
    ∧ unlinked st pre post st'.
Proof.
  intros [Hseg Hnd]. unfold unlinked.
  apply seg_app in Hseg as (b & Hpre & Hb & nx & Hl & Hpost). simpl in Hb, Hl.
  pose proof (seg_first _ _ _ Hpost) as ->.
  destruct pre as [|pv pre _] using rev_ind.
  - simpl in *. eexists. split; [done|]. split; [|done].
    split; [done|]. by apply NoDup_cons in Hnd as [_ ?].
  - rewrite walked_snoc, last_snoc.
    apply seg_app in Hpre as (c & Hpre & Hc & nx' & Hpv & Hnx').
    simpl in Hnx', Hc. subst nx' b c.
    rewrite <- app_assoc in Hnd. simpl in Hnd.
    rewrite fmap_app, !fmap_cons in Hnd.
    apply NoDup_app in Hnd as (Hnd1 & Hdisj & Hnd2).
    apply NoDup_cons in Hnd2 as [Hpv2 Hnd2].
    apply NoDup_cons in Hnd2 as [Hl2 Hnd2].
    assert (Hfresh1 : pv.1 ∉ pre.*1).
    { intros Hin. apply (Hdisj _ Hin). left. }
    assert (Hfresh2 : pv.1 ∉ post.*1).
    { intros Hin. apply Hpv2. by right. }
    set (h' := <[pv.1 := mkNode pv.2 (first post)]> (heap st)).
    assert (Hchain : seg h' (head (lst st)) ((pre ++ [pv]) ++ post) None).
    { apply seg_app. exists (first post). split.
      - apply seg_app. exists (Some pv.1). split; [by apply seg_frame|].
        simpl. split; [done|]. exists (first post). split; [|done].
        unfold h'. by rewrite lookup_insert_eq.
      - by apply seg_frame. }
    assert (Hnd' : NoDup ((pre ++ [pv]) ++ post).*1).
    { rewrite <- app_assoc. simpl. rewrite fmap_app, fmap_cons.
      apply NoDup_app. split; [done|]. split.
      - intros x Hx Hin. apply (Hdisj _ Hx).
        apply elem_of_cons in Hin as [->|Hin]; [left|by do 2 right].
      - apply NoDup_cons. split; [done|done]. }
    unfold unlink, setNext. rewrite Hpv. cbn.
    destruct post as [|n post]; simpl; eexists; (split; [done|]);
      (split; [by split|done]).
Qed.

Lemma remove_empty st target fuel :
  size st <= 0 →
  remove fuel st target = Some (st, Some "empty partition"%string).
Proof. intros Hsize. unfold remove. by rewrite (proj2 (Z.leb_le _ _) Hsize). Qed.

Lemma remove_missing st ns target fuel :
  chain st ns → (length ns < fuel)%nat → 0 < size st →
  Forall (differs target) ns →
  remove fuel st target
  = Some (st, Some "the given partition was not found"%string).
Proof.
  intros Hchain Hfuel Hsize Hdiff. unfold remove.
  rewrite (proj2 (Z.leb_gt _ _) Hsize).
  replace fuel with (length ns + S (fuel - length ns - 1))%nat by lia.
  destruct (removeLoop_walk (S (fuel - length ns - 1)) st target ns
              (head (lst st)) None None (newIterator st))
    as [-> Hat]; [done|apply Hchain|done|].
  by apply removeLoop_end.
Qed.

Lemma remove_found st pre l p post target fuel :
  chain st (pre ++ (l, p) :: post) →
  (length (pre ++ (l, p) :: post) < fuel)%nat → 0 < size st →
  Forall (differs target) pre → minTimestamp p = minTimestamp target →
  ∃ st',
    remove fuel st target = Some (st', cleanFailed <$> clean p)
    ∧ chain st' (pre ++ post)
    ∧ size st' = size st - 1
    ∧ cleaned st' = cleaned st ++ [p]
    ∧ unlinked st pre post st'.
Proof.
  intros Hchain Hfuel Hsize Hdiff Hsame. unfold remove.
  rewrite (proj2 (Z.leb_gt _ _) Hsize).
  pose proof Hchain as [Hseg _].
  apply seg_app in Hseg as (b & Hpre & Hb & nx & Hl & Hpost).
  simpl in Hb, Hl. subst b. pose proof (seg_first _ _ _ Hpost) as ->.
  rewrite length_app in Hfuel. simpl in Hfuel.
  replace fuel with (length pre + S (fuel - length pre - 1))%nat by lia.
  destruct (removeLoop_walk (S (fuel - length pre - 1)) st target pre
              (head (lst st)) (Some l) None (newIterator st))
    as [-> Hat]; [done|done|done|].
  rewrite (removeLoop_found _ _ _ _ _ l p (first post) Hat Hl Hsame).
  destruct (unlink_chain st pre l p post Hchain)
    as (st' & -> & [Hseg' Hnd'] & Hnum & Hcl & Hrest).
  cbn. eexists. split; [done|]. split; [by split|].
  split; [unfold size; simpl; lia|].
  split; [simpl; by rewrite Hcl|].
  unfold unlinked in *. by destruct (last pre).
Qed.

(** The heap and [head] fix the chain. *)
Lemma seg_unique h a xs : ∀ ys,
  seg h a xs None → seg h a ys None → xs = ys.
Proof.
  revert a. induction xs as [|x xs IH]; intros a ys Hxs Hys.
  - simpl in Hxs. subst a. by destruct (seg_nil_start _ _ _ Hys).
  - destruct Hxs as (-> & nx & Hx & Hxs).
    destruct ys as [|y ys]; [done|].
    destruct Hys as ([= Hxy] & ny & Hy & Hys).
    rewrite Hxy, Hy in Hx. injection Hx as Hv <-.
    f_equal; [|by eapply IH]. destruct x, y; simpl in *. by subst.
Qed.

Lemma chain_unique st ns ns' : chain st ns → chain st ns' → ns = ns'.
Proof. intros [H1 _] [H2 _]. by eapply seg_unique. Qed.

End PartListFacts.

(** The partition of [partition_list_test.go]. *)
Record fakePartition := mkFake { fakeMinT : Z; fakeErr : option PartList.error }.

#[local] Instance fake_Partition : PartList.Partition fakePartition := {|
  PartList.minTimestamp := fakeMinT;
  PartList.clean := fakeErr
|}.

(** The list after inserting the partitions, the first one first. *)
Definition listOf (ps : list fakePartition) : PartList.state fakePartition :=
  foldl PartList.insert PartList.newPartitionList ps.

(** ** partition_list.go: lists built by the operations *)

Section PartListOps.
Import PartList.
Context {P : Type} `{Partition P}.

(** A well-formed list: [numPartitions] is the number of nodes from [head],
    and the head cache is nil or [head]. *)
Definition wellFormed (st : state P) (ns : list (loc * P)) : Prop :=
  chain st ns
  ∧ size st = Z.of_nat (length ns)
  ∧ (headCache (lst st) = None ∨ headCache (lst st) = head (lst st)).

Lemma chain_dom (st : state P) ns l : chain st ns → l ∈ ns.*1 → l ∈ dom (heap st).
Proof.
  intros [Hseg _] Hl. apply elem_of_dom. eapply seg_dom; eauto.
Qed.

Lemma alloc_fresh (st : state P) (node : partitionNode P) :
  (alloc st node).1 ∉ dom (heap st).
Proof. unfold alloc. simpl. apply is_fresh. Qed.

(** [insert] puts a new node before the others. *)
Lemma insert_chain (st : state P) ns p :
  chain st ns →
  ∃ l, (l ∉ dom (heap st))
       ∧ heap (insert st p) = <[l := mkNode p (head (lst st))]> (heap st)
       ∧ lst (insert st p)
         = mkList (numPartitions (lst st) + 1) (Some l) (tail (lst st)) (Some l)
       ∧ cleaned (insert st p) = cleaned st
       ∧ chain (insert st p) ((l, p) :: ns).
Proof.
  intros Hchain.
  set (node := mkNode p (head (lst st))).
  assert (Hins : insert st p
                 = addNumPartitions (setHead (alloc st node).2
                                       (Some (alloc st node).1)) 1).
  { unfold insert, node. by destruct (head (lst st)). }
  exists (alloc st node).1. pose proof (alloc_fresh st node) as Hfresh.
  rewrite Hins. split; [done|]. split; [done|]. split; [done|]. split; [done|].
  destruct Hchain as [Hseg Hnd]. split.
  - simpl. split; [done|]. exists (head (lst st)).
    split; [by rewrite lookup_insert_eq|].
    apply seg_frame; [|done]. intros Hin. apply Hfresh.
    by apply (chain_dom st ns); [split|].
  - rewrite fmap_cons. apply NoDup_cons. split; [|done].
    intros Hin. apply Hfresh. by apply (chain_dom st ns); [split|].
Qed.

Lemma insert_wellFormed (st : state P) ns p :
  wellFormed st ns → ∃ l, wellFormed (insert st p) ((l, p) :: ns).
Proof.
  intros (Hchain & Hsize & Hcache).
  destruct (insert_chain st ns p Hchain) as (l & _ & _ & Hlst & _ & Hch).
  exists l. split; [done|]. unfold size in *. rewrite Hlst. simpl.
  split; [lia|by right].
Qed.

Lemma new_wellFormed : wellFormed newPartitionList [].
Proof. split; [|by split; [|left]]. split; [done|constructor]. Qed.

(** [getHead] on a well-formed list. *)
Lemma getHead_spec (st : state P) ns :
  wellFormed st ns →
  ∃ st',
    getHead st = Some (st', snd <$> hd_error ns)
    ∧ heap st' = heap st ∧ cleaned st' = cleaned st
    ∧ numPartitions (lst st') = numPartitions (lst st)
    ∧ head (lst st') = head (lst st) ∧ tail (lst st') = tail (lst st)
    ∧ (headCache (lst st') = None ∨ headCache (lst st') = head (lst st')).
Proof.
  intros ([Hseg Hnd] & Hsize & Hcache). unfold getHead.
  destruct ns as [|[l p] ns].
  - simpl in Hsize. rewrite (proj2 (Z.leb_le _ _)) by lia. by exists st.
  - simpl in Hsize. rewrite (proj2 (Z.leb_gt _ _)) by lia.
    destruct Hseg as (Hhead & nx & Hl & _). simpl in Hhead, Hl.
    destruct Hcache as [Hc | Hc]; rewrite Hc, ?Hhead; simpl; rewrite Hl; simpl.
    + eexists. split; [done|]. simpl. rewrite Hhead. by repeat split; try right.
    + exists st. rewrite Hhead. repeat split; try done. right. congruence.
Qed.


(** A turn of the loop of [swap] at a node that does not match. *)
Lemma swapLoop_walk k (st : state P) old new pre from mid prev it :
  at_ st it from → seg (heap st) from pre mid → Forall (differs old) pre →
  swapLoop (length pre + k) st old new prev it
  = swapLoop k st old new (walked prev pre) (walkedTo it pre)
  ∧ at_ st (walkedTo it pre) mid.
Proof.
  revert from prev it.
  induction pre as [|n pre IH]; intros from prev it Hat Hseg Hdiff.
  - simpl in *. by subst.
  - destruct Hseg as (-> & nx & Hn & Hseg).
    apply Forall_cons in Hdiff as [Hd Hdiff].
    cbn [length Nat.add swapLoop walked walkedTo].
    rewrite (iteratorNext_at _ _ _ Hat). cbn. rewrite Hn. cbn.
    rewrite (samePartitions_differs _ _ Hd). cbn.
    apply (IH nx); [by exists n.2|done|done].
Qed.

Lemma swap_empty (st : state P) old new fuel :
  size st <= 0 →
  swap fuel st old new = Some (st, Some "empty partition"%string).
Proof. intros Hsize. unfold swap. by rewrite (proj2 (Z.leb_le _ _) Hsize). Qed.

Lemma swap_missing (st : state P) ns old new fuel :
  chain st ns → (length ns < fuel)%nat → 0 < size st →
  Forall (differs old) ns →
  swap fuel st old new
  = Some (st, Some "the given partition was not found"%string).
Proof.
  intros Hchain Hfuel Hsize Hdiff. unfold swap.
  rewrite (proj2 (Z.leb_gt _ _) Hsize).
  replace fuel with (length ns + S (fuel - length ns - 1))%nat by lia.
  destruct (swapLoop_walk (S (fuel - length ns - 1)) st old new ns
              (head (lst st)) None None (newIterator st))
    as [-> Hat]; [done|apply Hchain|done|].
  simpl. by rewrite (iteratorNext_at _ _ _ Hat).
Qed.

(** The pointers after the node between [pre] and [post] is replaced by
    the new node at [l']: without a node before it, [head] and the head
    cache are the new node; with one, the [next] of that node is the new
    node, and when there is no next node [tail] is the new node. *)
Definition swapped (st : state P) (pre post : list (loc * P)) (l' : loc)
    (new : P) (st' : state P) : Prop :=
  let h := <[l' := mkNode new (first post)]> (heap st) in
  match last pre with
  | None =>
      heap st' = h
      ∧ head (lst st') = Some l'
      ∧ headCache (lst st') = Some l'
      ∧ tail (lst st') = tail (lst st)
  | Some pv =>
      heap st' = <[pv.1 := mkNode pv.2 (Some l')]> h
      ∧ head (lst st') = head (lst st)
      ∧ headCache (lst st') = headCache (lst st)
      ∧ tail (lst st') = (if post is [] then Some l' else tail (lst st))
  end.

Lemma swap_found (st : state P) pre l p post old new fuel :
  chain st (pre ++ (l, p) :: post) →
  (length (pre ++ (l, p) :: post) < fuel)%nat → 0 < size st →
  Forall (differs old) pre → minTimestamp p = minTimestamp old →
  ∃ st' l',
    swap fuel st old new = Some (st', None)
    ∧ (l' ∉ dom (heap st))
    ∧ chain st' (pre ++ (l', new) :: post)
    ∧ size st' = size st
    ∧ cleaned st' = cleaned st
    ∧ swapped st pre post l' new st'.
Proof.
  intros Hchain Hfuel Hsize Hdiff Hsame. unfold swap.
  rewrite (proj2 (Z.leb_gt _ _) Hsize).
  pose proof Hchain as [Hseg Hnd].
  apply seg_app in Hseg as (b & Hpre & Hb & nx & Hl & Hpost).
  simpl in Hb, Hl. subst b. pose proof (seg_first _ _ _ Hpost) as ->.
  rewrite length_app in Hfuel. simpl in Hfuel.
  replace fuel with (length pre + S (fuel - length pre - 1))%nat by lia.
  destruct (swapLoop_walk (S (fuel - length pre - 1)) st old new pre
              (head (lst st)) (Some l) None (newIterator st))
    as [-> Hat]; [done|done|done|].
  set (node := mkNode new (first post)).
  set (l' := (alloc st node).1).
  pose proof (alloc_fresh st node) as Hfresh. fold l' in Hfresh.
  assert (Hdom : ∀ x, x ∈ (pre ++ (l, p) :: post).*1 → x ≠ l').
  { intros x Hx ->. apply Hfresh. by apply (chain_dom st _ _ Hchain). }
  assert (Hl' : l ≠ l').
  { apply Hdom. rewrite fmap_app, fmap_cons. apply elem_of_app. right. left. }
  assert (Hpost' : l' ∉ post.*1).
  { intros Hin. apply (Hdom l'); [|done]. rewrite fmap_app, fmap_cons.
    apply elem_of_app. right. by right. }
  assert (Hpre' : l' ∉ pre.*1).
  { intros Hin. apply (Hdom l'); [|done]. rewrite fmap_app.
    apply elem_of_app. by left. }
  rewrite fmap_app, fmap_cons in Hnd.
  apply NoDup_app in Hnd as (Hnd1 & Hdisj & Hnd2).
  apply NoDup_cons in Hnd2 as [Hl2 Hnd2].
  cbn [swapLoop]. rewrite (iteratorNext_at _ _ _ Hat). cbn. rewrite Hl. cbn.
  unfold samePartitions. rewrite Hsame, Z.eqb_refl. cbn.
  fold node. fold l'. rewrite lookup_insert_ne by done. rewrite Hl. cbn.
  set (h := <[l' := node]> (heap st)).
  assert (Hsegpost : seg h (first post) post None) by (by apply seg_frame).
  assert (Hcur : currentNode (cursorOf (first post)) = first post)
    by (by destruct (first post)).
  rewrite Hcur. unfold swapped. fold node. fold h.
  destruct pre as [|pv pre _] using rev_ind.
  - simpl. eexists _, l'. split; [by destruct (first post)|].
    split; [done|]. split; [|done]. split.
    + simpl. split; [done|]. exists (first post). split; [|done].
      unfold h. by rewrite lookup_insert_eq.
    + rewrite fmap_cons. by apply NoDup_cons.
  - rewrite walked_snoc, last_snoc.
    apply seg_app in Hpre as (c & Hpre & Hc & nx' & Hpv & Hnx').
    simpl in Hnx', Hc. subst nx' c.
    rewrite fmap_app, fmap_cons, fmap_nil in Hnd1, Hdisj, Hpre'.
    apply NoDup_app in Hnd1 as (Hnd0 & Hdisj0 & _).
    assert (Hpv1 : pv.1 ∉ pre.*1).
    { intros Hin. apply (Hdisj0 _ Hin). left. }
    assert (Hpv2 : pv.1 ∉ post.*1).
    { intros Hin. apply (Hdisj pv.1); [apply elem_of_app; right; left|by right]. }
    assert (Hpvl' : pv.1 ≠ l').
    { intros E. apply Hpre'. apply elem_of_app. right. rewrite E. left. }
    assert (Hl'pre : l' ∉ pre.*1).
    { intros Hin. apply Hpre'. apply elem_of_app. by left. }
    set (h2 := <[pv.1 := mkNode pv.2 (Some l')]> h).
    assert (Hres : relink (mkState h (lst st) (cleaned st)) (Some pv.1)
                     (first post) l'
                   = Some (match first post with
                           | None => setTail (mkState h2 (lst st) (cleaned st)) (Some l')
                           | Some _ => mkState h2 (lst st) (cleaned st)
                           end)).
    { assert (Hpvh : h !! pv.1 = Some (mkNode pv.2 (Some l))).
      { unfold h. by rewrite lookup_insert_ne. }
      unfold relink, setNext. simpl. rewrite Hpvh. cbn.
      by destruct (first post). }
    unfold alloc in l'. simpl in l'. unfold alloc. simpl. fold l'. fold h.
    unfold relink in Hres. rewrite Hres. cbn.
    assert (Hseg2 : seg h2 (head (lst st)) ((pre ++ [pv]) ++ (l', new) :: post) None).
    { apply seg_app. exists (Some l'). split.
      - apply seg_app. exists (Some pv.1). split.
        + apply seg_frame; [done|]. by apply seg_frame.
        + simpl. split; [done|]. exists (Some l'). split; [|done].
          unfold h2. by rewrite lookup_insert_eq.
      - simpl. split; [done|]. exists (first post). split.
        + unfold h2, h. rewrite lookup_insert_ne by done.
          by rewrite lookup_insert_eq.
        + by apply seg_frame. }
    assert (Hnd' : NoDup ((pre ++ [pv]) ++ (l', new) :: post).*1).
    { rewrite !fmap_app, fmap_cons. simpl.
      apply NoDup_app. split; [|split].
      - apply NoDup_app. split; [done|]. split; [done|]. apply NoDup_singleton.
      - intros x Hx [->|Hin]%elem_of_cons; [done|].
        apply (Hdisj x Hx). by right.
      - by apply NoDup_cons. }
    eexists _, l'. split; [done|]. split; [done|].
    destruct post as [|n post]; simpl; (split; [by split|done]).
Qed.


(** More fuel does not change a result. *)
Lemma removeLoop_mono fuel : ∀ fuel' (st : state P) target prev it r,
  removeLoop fuel st target prev it = Some r → (fuel <= fuel')%nat →
  removeLoop fuel' st target prev it = Some r.
Proof.
  induction fuel as [|fuel IH]; intros fuel' st target prev it r Hrun Hle;
    [done|].
  destruct fuel' as [|fuel']; [lia|]. cbn [removeLoop] in *.
  destruct (iteratorNext st it) as [[ok it']|]; [|done]. cbn in *.
  destruct ok; [|done]. cbn in *.
  destruct (currentNode it') as [current|]; [|done]. cbn in *.
  destruct (heap st !! current) as [node|]; [|done]. cbn in *.
  destruct (samePartitions (val node) target); [done|]. cbn in *.
  apply IH; [done|lia].
Qed.

Lemma swapLoop_mono fuel : ∀ fuel' (st : state P) old new prev it r,
  swapLoop fuel st old new prev it = Some r → (fuel <= fuel')%nat →
  swapLoop fuel' st old new prev it = Some r.
Proof.
  induction fuel as [|fuel IH]; intros fuel' st old new prev it r Hrun Hle;
    [done|].
  destruct fuel' as [|fuel']; [lia|]. cbn [swapLoop] in *.
  destruct (iteratorNext st it) as [[ok it']|]; [|done]. cbn in *.
  destruct ok; [|done]. cbn in *.
  destruct (currentNode it') as [current|]; [|done]. cbn in *.
  destruct (heap st !! current) as [node|]; [|done]. cbn in *.
  destruct (samePartitions (val node) old); [done|]. cbn in *.
  apply IH; [done|lia].
Qed.

(** The first node that matches, if there is one. *)
Lemma first_match (target : P) (ns : list (loc * P)) :
  Forall (differs target) ns
  ∨ ∃ pre l p post,
      ns = pre ++ (l, p) :: post ∧ Forall (differs target) pre
      ∧ minTimestamp p = minTimestamp target.
Proof.
  induction ns as [|[l p] ns IH]; [by left|].
  destruct (decide (minTimestamp p = minTimestamp target)) as [E|E].
  - right. by exists [], l, p, ns.
  - destruct IH as [IH|(pre & l' & p' & post & -> & Hpre & Hsame)].
    + left. by constructor.
    + right. exists ((l, p) :: pre), l', p', post. split; [done|].
      split; [by constructor|done].
Qed.

Lemma remove_wellFormed (st : state P) ns fuel target st' err :
  wellFormed st ns → remove fuel st target = Some (st', err) →
  ∃ ns', wellFormed st' ns'.
Proof.
  intros (Hchain & Hsize & Hcache) Hrun.
  assert (Hbig : remove (fuel + S (length ns)) st target = Some (st', err)).
  { unfold remove in *. destruct (size st <=? 0); [done|].
    eapply removeLoop_mono; [done|lia]. }
  destruct (Z.le_gt_cases (size st) 0) as [Hle|Hgt].
  { rewrite remove_empty in Hbig by done. injection Hbig as <- _.
    by exists ns. }
  destruct (first_match target ns)
    as [Hdiff|(pre & l & p & post & -> & Hdiff & Hsame)].
  { rewrite (remove_missing st ns) in Hbig by (done || lia).
    injection Hbig as <- _. by exists ns. }
  destruct (remove_found st pre l p post target (fuel + S (length (pre ++ (l, p) :: post))))
    as (st1 & Hrun1 & Hch1 & Hsize1 & _ & Hun); [done|lia|lia|done|done|].
  rewrite Hrun1 in Hbig. injection Hbig as <- _.
  exists (pre ++ post). split; [done|]. split.
  - rewrite Hsize1, Hsize, !length_app. simpl. lia.
  - unfold unlinked in Hun. destruct (last pre) as [pv|].
    + destruct Hun as (_ & Hh & _ & Hc). rewrite Hh, Hc.
      destruct post; [by left|done].
    + destruct Hun as (_ & Hh & Hc & _). right. congruence.
Qed.

Lemma swap_wellFormed (st : state P) ns fuel old new st' err :
  wellFormed st ns → swap fuel st old new = Some (st', err) →
  ∃ ns', wellFormed st' ns'.
Proof.
  intros (Hchain & Hsize & Hcache) Hrun.
  assert (Hbig : swap (fuel + S (length ns)) st old new = Some (st', err)).
  { unfold swap in *. destruct (size st <=? 0); [done|].
    eapply swapLoop_mono; [done|lia]. }
  destruct (Z.le_gt_cases (size st) 0) as [Hle|Hgt].
  { rewrite swap_empty in Hbig by done. injection Hbig as <- _.
    by exists ns. }
  destruct (first_match old ns)
    as [Hdiff|(pre & l & p & post & -> & Hdiff & Hsame)].
  { rewrite (swap_missing st ns) in Hbig by (done || lia).
    injection Hbig as <- _. by exists ns. }
  destruct (swap_found st pre l p post old new
              (fuel + S (length (pre ++ (l, p) :: post))))
    as (st1 & l' & Hrun1 & _ & Hch1 & Hsize1 & _ & Hsw);
    [done|lia|lia|done|done|].
  rewrite Hrun1 in Hbig. injection Hbig as <- _.
  exists (pre ++ (l', new) :: post). split; [done|]. split.
  - rewrite Hsize1, Hsize, !length_app. simpl. lia.
  - unfold swapped in Hsw. destruct (last pre) as [pv|].
    + destruct Hsw as (_ & Hh & Hc & _). by rewrite Hh, Hc.
    + destruct Hsw as (_ & Hh & Hc & _). right. congruence.
Qed.

Lemma getHead_wellFormed (st : state P) ns st' r :
  wellFormed st ns → getHead st = Some (st', r) → wellFormed st' ns.
Proof.
  intros Hwf Hrun.
  destruct (getHead_spec st ns Hwf)
    as (st1 & Hrun1 & Hheap & _ & Hnum & Hhead & _ & Hcache).
  rewrite Hrun1 in Hrun. injection Hrun as <- _.
  destruct Hwf as ([Hseg Hnd] & Hsize & _).
  split; [|split; [|done]].
  - split; [|done]. by rewrite Hheap, Hhead.
  - unfold size in *. by rewrite Hnum.
Qed.

(** A list changes by a call of [insert], [remove], [swap] or [getHead]. *)
Inductive listStep : state P → state P → Prop :=
| listStep_insert st p : listStep st (insert st p)
| listStep_remove st fuel target st' err :
    remove fuel st target = Some (st', err) → listStep st st'
| listStep_swap st fuel old new st' err :
    swap fuel st old new = Some (st', err) → listStep st st'
| listStep_getHead st st' r :
    getHead st = Some (st', r) → listStep st st'.

Lemma listStep_wellFormed st st' :
  (∃ ns, wellFormed st ns) → listStep st st' → ∃ ns, wellFormed st' ns.
Proof.
  intros [ns Hwf] Hstep.
  destruct Hstep as [st p|st fuel target st' err Hrun
                    |st fuel old new st' err Hrun|st st' r Hrun].
  - destruct (insert_wellFormed st ns p Hwf) as [l Hwf']. eauto.
  - eapply remove_wellFormed; eauto.
  - eapply swap_wellFormed; eauto.
  - exists ns. eapply getHead_wellFormed; eauto.
Qed.

Lemma listSteps_wellFormed st st' :
  (∃ ns, wellFormed st ns) → rtc listStep st st' → ∃ ns, wellFormed st' ns.
Proof. intros Hwf Hsteps. induction Hsteps; eauto using listStep_wellFormed. Qed.

End PartListOps.


Ltac concrete_chain :=
  split;
  [simpl; repeat (split; [reflexivity|]; eexists; split; [reflexivity|]);
   reflexivity
  |apply (bool_decide_unpack _); vm_compute; reflexivity].


(** [insert] puts the partition into a new node before the others: the
    list stays well formed with one node more, [clean] is called on
    nothing, and [getHead] then returns the partition and changes
    nothing. *)
Theorem insert_then_getHead {P : Type} `{PartList.Partition P}
    (st : PartList.state P) (ns : list (PartList.loc * P)) (p : P) :
  wellFormed st ns →
  ∃ l, (l ∉ dom (PartList.heap st))
       ∧ wellFormed (PartList.insert st p) ((l, p) :: ns)
       ∧ PartList.cleaned (PartList.insert st p) = PartList.cleaned st
       ∧ PartList.getHead (PartList.insert st p)
         = Some (PartList.insert st p, Some p).
Proof.
  intros Hwf. pose proof Hwf as (Hchain & Hsize & Hcache).
  destruct (insert_chain st ns p Hchain) as (l & Hl & Hheap & Hlst & Hcl & Hch).
  exists l. split; [done|].
  assert (Hwf' : wellFormed (PartList.insert st p) ((l, p) :: ns)).
  { split; [done|]. unfold PartList.size in *. rewrite Hlst. simpl.
    split; [lia|by right]. }
  split; [done|]. split; [done|].
  generalize dependent (PartList.insert st p). intros st1 Hheap Hlst _ _ _.
  unfold PartList.getHead, PartList.size in *. rewrite Hlst. cbn.
  rewrite (proj2 (Z.leb_gt _ _)) by lia.
  by rewrite Hheap, lookup_insert_eq.
Qed.


Lemma insert_then_getHead_witness :
  let p := λ t, mkFake t None in
  let st := listOf [p 1; p 2] in
  PartList.getHead (PartList.insert st (p 3))
  = Some (PartList.insert st (p 3), Some (p 3))
  ∧ PartList.size (PartList.insert st (p 3)) = 3.
Proof.
  intros p st.
  destruct (insert_then_getHead st [(2%positive, p 2); (1%positive, p 1)] (p 3))
    as (l & _ & (_ & Hsize & _) & _ & Hget).
  - split; [concrete_chain|]. split; [reflexivity|by right].
  - split; [exact Hget|]. rewrite Hsize. reflexivity.
Defined.

(** On a well-formed list [getHead] returns the partition of the first
    node, the one inserted last among those left, and nil when there is
    none; it changes no node, and the list stays well formed. *)
Theorem getHead_newest {P : Type} `{PartList.Partition P}
    (st : PartList.state P) (ns : list (PartList.loc * P)) :
  wellFormed st ns →
  ∃ st',
    PartList.getHead st = Some (st', snd <$> hd_error ns)
    ∧ wellFormed st' ns
    ∧ PartList.heap st' = PartList.heap st
    ∧ PartList.cleaned st' = PartList.cleaned st.
Proof.
  intros Hwf.
  destruct (getHead_spec st ns Hwf) as (st' & Hrun & Hheap & Hcl & _).
  exists st'. split; [done|].
  split; [by eapply getHead_wellFormed|done].
Qed.

Lemma getHead_newest_witness :
  let p := λ t, mkFake t None in
  ∃ st',
    PartList.getHead (listOf [p 1; p 2; p 3]) = Some (st', Some (p 3))
    ∧ PartList.heap st' = PartList.heap (listOf [p 1; p 2; p 3]).
Proof.
  intros p.
  destruct (getHead_newest (listOf [p 1; p 2; p 3])
              [(3%positive, p 3); (2%positive, p 2); (1%positive, p 1)])
    as (st' & Hrun & _ & Hheap & _).
  - split; [concrete_chain|]. split; [reflexivity|by right].
  - exists st'. by split.
Defined.

(** On a well-formed list and with fuel for the walk, [swap] returns an
    error and changes nothing when the list is empty, and when no node holds
    a partition with the minimum timestamp of [old].  Otherwise the first
    node with that minimum timestamp gives its place to a new node that
    holds [new]: the other nodes keep their order, [numPartitions] is as
    before, the result is nil, and [clean] is called on nothing. *)
Theorem swap_first_match {P : Type} `{PartList.Partition P}
    (st : PartList.state P) (ns : list (PartList.loc * P)) (old new : P)
    (fuel : nat) :
  chain st ns → PartList.size st = Z.of_nat (length ns) →
  (length ns < fuel)%nat →
  (ns = [] →
   PartList.swap fuel st old new = Some (st, Some "empty partition"%string))
  ∧ (ns ≠ [] → Forall (differs old) ns →
     PartList.swap fuel st old new
     = Some (st, Some "the given partition was not found"%string))
  ∧ (∀ pre l p post,
       ns = pre ++ (l, p) :: post → Forall (differs old) pre →
       PartList.minTimestamp p = PartList.minTimestamp old →
       ∃ st' l',
         PartList.swap fuel st old new = Some (st', None)
         ∧ (l' ∉ dom (PartList.heap st))
         ∧ chain st' (pre ++ (l', new) :: post)
         ∧ PartList.size st' = PartList.size st
         ∧ PartList.cleaned st' = PartList.cleaned st
         ∧ swapped st pre post l' new st').
Proof.
  intros Hchain Hsize Hfuel. split; [|split].
  - intros ->. apply swap_empty. simpl in Hsize. lia.
  - intros Hne Hdiff. eapply swap_missing; [done|done| |done].
    destruct ns; [done|]. simpl in Hsize. lia.
  - intros pre l p post -> Hdiff Hsame.
    apply (swap_found st pre l p post); [done|done| |done|done].
    rewrite length_app in Hsize. simpl in Hsize. lia.
Qed.

Lemma swap_first_match_witness :
  let p := λ t, mkFake t None in
  let disk := mkFake 2 (Some "on disk"%string) in
  let st := listOf [p 1; p 2; p 3] in
  ∃ st' l',
    PartList.swap 4 st (p 2) disk = Some (st', None)
    ∧ chain st' [(3%positive, p 3); (l', disk); (1%positive, p 1)]
    ∧ PartList.size st' = 3
    ∧ PartList.cleaned st' = [].
Proof.
  intros p disk st.
  set (ns := [(3%positive, p 3); (2%positive, p 2); (1%positive, p 1)]).
  assert (Hchain : chain st ns) by concrete_chain.
  destruct (swap_first_match st ns (p 2) disk 4
              Hchain eq_refl ltac:(simpl; lia)) as (_ & _ & Hsw).
  destruct (Hsw [(3%positive, p 3)] 2%positive (p 2) [(1%positive, p 1)])
    as (st' & l' & Hrun & _ & Hch & Hsize & Hcl & _);
    [reflexivity|repeat constructor; vm_compute; congruence|reflexivity|].
  exists st', l'. done.
Defined.

(** Every list built from the empty one by [insert], [remove], [swap] and
    [getHead] is well formed: following [next] from [head] ends at nil and
    meets no node twice, [size()] is the number of the nodes met, and the
    head cache is nil or [head]. *)
Theorem partitionList_wellFormed {P : Type} `{PartList.Partition P}
    (st : PartList.state P) :
  rtc listStep PartList.newPartitionList st → ∃ ns, wellFormed st ns.
Proof.
  apply listSteps_wellFormed. exists []. apply new_wellFormed.
Qed.

Lemma partitionList_wellFormed_witness :
  let p := λ t, mkFake t None in
  ∃ ns, wellFormed (listOf [p 1; p 2]) ns.
Proof.
  intros p. apply partitionList_wellFormed.
  eapply rtc_l; [apply (listStep_insert _ (p 1))|].
  eapply rtc_l; [apply (listStep_insert _ (p 2))|].
  apply rtc_refl.
Defined.

(** [remove] undoes [insert]: removing a partition with the minimum
    timestamp of the one just inserted unlinks the new node, whatever the
    other nodes hold; the nodes from [head] and [size()] are as before the
    [insert], and [clean] has been called on the inserted partition. *)
Theorem insert_then_remove {P : Type} `{PartList.Partition P}
    (st : PartList.state P) (ns : list (PartList.loc * P)) (p target : P)
    (fuel : nat) :
  wellFormed st ns → (S (length ns) < fuel)%nat →
  PartList.minTimestamp p = PartList.minTimestamp target →
  ∃ st',
    PartList.remove fuel (PartList.insert st p) target
    = Some (st', cleanFailed <$> PartList.clean p)
    ∧ wellFormed st' ns
    ∧ PartList.head (PartList.lst st') = PartList.head (PartList.lst st)
    ∧ PartList.cleaned st' = PartList.cleaned st ++ [p].
Proof.
  intros (Hchain & Hsize & Hcache) Hfuel Hsame.
  destruct (insert_chain st ns p Hchain) as (l & Hl & Hheap & Hlst & Hcl & Hch).
  destruct (remove_found (PartList.insert st p) [] l p ns target fuel)
    as (st' & Hrun & Hch' & Hsize' & Hcl' & Hun);
    [done|simpl; lia| |done|done|].
  { unfold PartList.size in *. rewrite Hlst. simpl. lia. }
  exists st'. split; [done|].
  unfold unlinked in Hun. simpl in Hun. destruct Hun as (_ & Hhead & Hcache' & _).
  pose proof (seg_first _ _ _ (proj1 Hchain)) as Hfirst.
  split; [|split; [congruence|by rewrite Hcl', Hcl]].
  split; [done|]. split; [|right; congruence].
  unfold PartList.size in *. rewrite Hsize', Hlst. simpl. lia.
Qed.

Lemma insert_then_remove_witness :
  let p := λ t, mkFake t None in
  let st := listOf [p 1; p 2] in
  ∃ st',
    PartList.remove 4 (PartList.insert st (p 2)) (p 2) = Some (st', None)
    ∧ wellFormed st' [(2%positive, p 2); (1%positive, p 1)]
    ∧ PartList.cleaned st' = [p 2].
Proof.
  intros p st.
  destruct (insert_then_remove st [(2%positive, p 2); (1%positive, p 1)]
              (p 2) (p 2) 4)
    as (st' & Hrun & Hwf & _ & Hcl).
  - split; [concrete_chain|]. split; [reflexivity|by right].
  - simpl. lia.
  - reflexivity.
  - exists st'. done.
Defined.

(** ** bstream.go: single bits, bytes and the fast paths *)

Section BitsAndBytes.
Import Go Bstream.

(** A bit of a number, by shifting the number or the mask. *)
Lemma bit_by_shift (x v : Z) :
  0 <= v < 64 →
  negb (Z.land x (shl64 1 v) =? 0)
  = (Z.land (shr64 x v) (wrap64 (shl64 1 1 - 1)) =? 1).
Proof.
  intros Hv. unfold shl64, shr64, wrap64.
  destruct (Z.ltb_spec v 64); [|lia]. change (1 <? 64) with true. cbn [negb].
  change ((Z.shiftl 1 1 mod 2 ^ 64 - 1) mod 2 ^ 64) with 1.
  rewrite Z.shiftl_1_l, Z.mod_small
    by (split; [apply Z.pow_nonneg; lia|apply Z.pow_lt_mono_r; lia]).
  assert (E1 : Z.land x (2 ^ v) = Z.b2z (Z.testbit x v) * 2 ^ v).
  { apply Z.bits_inj'. intros k Hk. rewrite Z.land_spec, Z.pow2_bits_eqb by lia.
    destruct (Z.eqb_spec v k) as [->|Hne].
    - rewrite andb_true_r. destruct (Z.testbit x k); simpl.
      + by rewrite Z.mul_1_l, Z.pow2_bits_true.
      + by rewrite Z.bits_0.
    - rewrite andb_false_r. destruct (Z.testbit x v); simpl.
      + rewrite Z.mul_1_l, Z.pow2_bits_false; [done|lia].
      + by rewrite Z.bits_0. }
  assert (E2 : Z.land (Z.shiftr x v) 1 = Z.b2z (Z.testbit x v)).
  { rewrite Z.land_comm. change 1 with (Z.ones 1). rewrite Z.land_comm.
    rewrite Z.land_ones by lia. change (2 ^ 1) with 2.
    rewrite <- Z.bit0_mod, Z.shiftr_spec by lia. by rewrite Z.add_0_l. }
  rewrite E1, E2. pose proof (Z.pow_pos_nonneg 2 v).
  destruct (Z.testbit x v); simpl; [|done].
  destruct (Z.eqb_spec (1 * 2 ^ v) 0); [lia|done].
Qed.

Lemma bit_by_shift_out (x v : Z) :
  64 <= v →
  negb (Z.land x (shl64 1 v) =? 0)
  = (Z.land (shr64 x v) (wrap64 (shl64 1 1 - 1)) =? 1).
Proof.
  intros Hv. unfold shl64, shr64. destruct (Z.ltb_spec v 64); [lia|].
  by rewrite Z.land_0_r.
Qed.

Lemma readBitFast_readBitsFast (r : bstreamReader) :
  0 < valid r →
  readBitFast r
  = ((λ v, v =? 1) <$> (readBitsFast r 1).1, (readBitsFast r 1).2).
Proof.
  intros Hv. unfold readBitFast, readBitsFast.
  destruct (Z.eqb_spec (valid r) 0); [lia|].
  destruct (Z.ltb_spec (valid r) 1); [lia|]. simpl. do 2 f_equal.
  assert (0 <= wrap8 (valid r - 1) < 256) as [? ?] by (apply Z.mod_pos_bound; lia).
  destruct (Z.lt_ge_cases (wrap8 (valid r - 1)) 64).
  - by apply bit_by_shift.
  - by apply bit_by_shift_out.
Qed.


Lemma loadNextBuffer_valid (r r' : bstreamReader) :
  loadNextBuffer r 1 = (true, r') → valid r' = 64 ∨ valid r' = 8.
Proof.
  unfold loadNextBuffer.
  destruct (Z.leb_spec (len (r_stream r)) (streamOffset r)); [done|].
  destruct (Z.ltb_spec (streamOffset r + 8) (len (r_stream r))).
  - intros [= <-]. by left.
  - change (wrap8 (1 / 8 + 1)) with 1.
    destruct (Z.ltb_spec (len (r_stream r)) (streamOffset r + 1)); [lia|].
    intros [= <-]. by right.
Qed.

Lemma readBit_readBits (r : bstreamReader) :
  0 <= valid r →
  readBit r = ((λ v, v =? 1) <$> (readBits r 1).1, (readBits r 1).2).
Proof.
  intros Hv. unfold readBit, readBits.
  destruct (Z.eqb_spec (valid r) 0) as [E|E].
  - destruct (loadNextBuffer r 1) as [[] r1] eqn:Hload; [|done]. cbn [negb].
    apply loadNextBuffer_valid in Hload.
    destruct (Z.leb_spec 1 (valid r1)); [|lia].
    apply readBitFast_readBitsFast. lia.
  - cbn [negb]. destruct (Z.leb_spec 1 (valid r)); [|lia].
    apply readBitFast_readBitsFast. lia.
Qed.

(** [writeBits] of one bit is [writeBit], of eight bits [writeByte]. *)
Lemma writeBits_1 (b : bstream) (bit : bool) :
  writeBits b (Z.b2z bit) 1 = writeBit b bit.
Proof.
  unfold writeBits.
  change (wrap64 (64 - wrap64 1)) with 63.
  assert (Hu : shl64 (Z.b2z bit) 63 = Z.b2z bit * 2 ^ 63).
  { rewrite shl64_mul by lia. apply Z.mod_small. destruct bit; simpl; lia. }
  rewrite Hu. rewrite writeBitsBytes_equation_1. simpl.
  cbn [mbind option_bind]. rewrite writeBitsTail_step by lia.
  assert (Hbit : (shr64 (Z.b2z bit * 2 ^ 63) 63 =? 1) = bit).
  { rewrite shr64_div by lia. rewrite Z.div_mul by lia. by destruct bit. }
  rewrite Hbit. destruct (writeBit b bit) as [b'|]; [|done].
  cbn [mbind option_bind]. change (1 - 1) with 0.
  by rewrite writeBitsTail_equation_1.
Qed.


Lemma writeBits_8 (b : bstream) (byt : Z) :
  0 <= byt < 256 → writeBits b byt 8 = writeByte b byt.
Proof.
  intros Hb. unfold writeBits.
  change (wrap64 (64 - wrap64 8)) with 56.
  assert (Hu : shl64 byt 56 = byt * 2 ^ 56).
  { rewrite shl64_mul by lia. apply Z.mod_small. lia. }
  rewrite Hu, writeBitsBytes_step. rewrite decide_True by lia.
  assert (Hbyt : wrap8 (shr64 (byt * 2 ^ 56) 56) = byt).
  { rewrite shr64_div by lia. rewrite Z.div_mul by lia.
    apply Z.mod_small. lia. }
  rewrite Hbyt. destruct (writeByte b byt) as [b'|]; [|done].
  cbn [mbind option_bind]. change (8 - 8) with 0.
  rewrite writeBitsBytes_step, decide_False by lia.
  cbn [mbind option_bind]. by rewrite writeBitsTail_step, decide_False by lia.
Qed.

(** What is written: a bit, a byte, or the low [n] bits of [u]. *)
Inductive item :=
| Bit (bit : bool)
| Byte (byt : Z)
| Bits (u n : Z).

Definition itemOK (i : item) : Prop :=
  match i with
  | Bit _ => True
  | Byte byt => 0 <= byt < 256
  | Bits u n => 1 <= n <= 64 ∧ 0 <= u < 2 ^ n
  end.

Definition writeItem (b : bstream) (i : item) : option bstream :=
  match i with
  | Bit bit => writeBit b bit
  | Byte byt => writeByte b byt
  | Bits u n => writeBits b u n
  end.

(** The read that takes an item back. *)
Definition readItem (r : bstreamReader) (i : item)
  : option item * bstreamReader :=
  match i with
  | Bit _ => let '(v, r) := readBit r in (Bit <$> v, r)
  | Byte _ => let '(v, r) := ReadByte r in (Byte <$> v, r)
  | Bits _ n => let '(v, r) := readBits r n in ((λ u, Bits u n) <$> v, r)
  end.

Fixpoint writeItems (b : bstream) (items : list item) : option bstream :=
  match items with
  | [] => Some b
  | i :: items => b ← writeItem b i; writeItems b items
  end.

(** Reading with the shapes of [items]: the items read, [None] at the first
    [io.EOF]. *)
Fixpoint readItems (r : bstreamReader) (items : list item)
  : option (list item) :=
  match items with
  | [] => Some []
  | i :: items =>
      let '(v, r) := readItem r i in
      v ← v; vs ← readItems r items; Some (v :: vs)
  end.

(** An item as a value and a width. *)
Definition pairOf (i : item) : Z * Z :=
  match i with
  | Bit bit => (Z.b2z bit, 1)
  | Byte byt => (byt, 8)
  | Bits u n => (u, n)
  end.

Lemma pairOf_fits (i : item) : itemOK i → fitsWidth (pairOf i).
Proof.
  destruct i as [[]|byt|u n]; unfold fitsWidth; simpl; lia.
Qed.

Lemma writeItem_writeBits (b : bstream) (i : item) :
  itemOK i → writeItem b i = writeBits b (pairOf i).1 (pairOf i).2.
Proof.
  destruct i as [bit|byt|u n]; simpl; intros Hi.
  - by rewrite writeBits_1.
  - by rewrite writeBits_8.
  - done.
Qed.

Lemma writeItems_writeAll (items : list item) : ∀ b,
  Forall itemOK items → writeItems b items = writeAll b (pairOf <$> items).
Proof.
  induction items as [|i items IH]; intros b Hok; [done|].
  apply Forall_cons in Hok as [Hi Hok]. rewrite fmap_cons. simpl.
  rewrite (writeItem_writeBits b i Hi). destruct (pairOf i) as [u n]. simpl.
  destruct (writeBits b u n) as [b'|]; [|done]. simpl. by apply IH.
Qed.

Lemma readItems_readAll (items : list item) : ∀ r,
  Forall itemOK items → sound r →
  width (pairOf <$> items) <= left r →
  readAll r (pairOf <$> items).*2 = Some (pairOf <$> items).*1 →
  readItems r items = Some items.
Proof.
  induction items as [|i items IH]; intros r Hok Hr Hleft Hread; [done|].
  apply Forall_cons in Hok as [Hi Hok].
  pose proof (pairOf_fits i Hi) as [Hn Hu].
  pose proof (width_nonneg (pairOf <$> items)
                (proj2 (Forall_fmap _ _ _) (Forall_impl _ _ _ Hok pairOf_fits)))
    as Hw.
  rewrite !fmap_cons in Hread. rewrite fmap_cons in Hleft.
  cbn [readAll width] in Hread, Hleft.
  destruct (readBits_sound r (pairOf i).2 Hr Hn ltac:(lia))
    as (r' & Hrun & Hr' & _ & Hl' & _).
  rewrite Hrun in Hread. cbn [mbind option_bind] in Hread.
  destruct (readAll r' _) as [vs|] eqn:Hrest; [|done].
  cbn [mbind option_bind] in Hread. injection Hread as Hv Hvs.
  assert (Hitem : readItem r i = (Some i, r')).
  { destruct i as [bit|byt|u n]; simpl in *.
    - rewrite readBit_readBits by (destruct Hr as (_ & _ & ? & _); lia).
      rewrite Hrun. simpl. rewrite Hv. by destruct bit.
    - unfold ReadByte. rewrite Hrun, Hv. simpl. do 3 f_equal.
      apply Z.mod_small. lia.
    - rewrite Hrun. simpl. by rewrite Hv. }
  cbn [readItems]. rewrite Hitem. cbn [mbind option_bind].
  rewrite (IH r'); [done|done|done|lia|by rewrite Hrest, Hvs].
Qed.


(** The reader over the bytes of a stream that holds [ps]. *)
Lemma written_reader (w : bstream) (ps : list (Z * Z)) :
  written w (packed ps) → bitlen w = width ps →
  let r := newBReader (bytes w) in
  sound r ∧ left r = width ps + count w ∧ rest r = packed ps * 2 ^ count w + 0.
Proof.
  intros (Hs & Hc & _ & Hbe) Hl r. unfold bitlen in Hl.
  pose proof (len_nonneg' (stream w)).
  split; [|split].
  - unfold sound, r, newBReader, bytes. simpl. repeat split; try done; lia.
  - unfold left, unread, r, newBReader, bytes. simpl. lia.
  - unfold rest, unread, r, newBReader, bytes. simpl.
    change (drop (Z.to_nat 0) ?l) with l. rewrite Hbe.
    change (0 mod 2 ^ 0) with 0. lia.
Qed.

Lemma writeAll_fresh (ps : list (Z * Z)) :
  Forall fitsWidth ps →
  ∃ w, writeAll (mkBstream [] 0) ps = Some w
       ∧ written w (packed ps) ∧ bitlen w = width ps.
Proof.
  intros Hps.
  assert (H0 : written (mkBstream [] 0) 0)
    by (unfold written; simpl; repeat split; try done; constructor).
  destruct (writeAll_written ps _ 0 Hps H0) as (w & Hw & Hwr & Hl).
  exists w. split; [done|]. split; [by rewrite Z.mul_0_l, Z.add_0_l in Hwr|].
  unfold bitlen in *. simpl in *. change (len []) with 0 in Hl. lia.
Qed.

(** The reader that the reads of the widths [ns] leave. *)
Fixpoint readsLeave (r : bstreamReader) (ns : list Z) : bstreamReader :=
  match ns with
  | [] => r
  | n :: ns => readsLeave (readBits r n).2 ns
  end.

Lemma readsLeave_sound ps : ∀ r c Y,
  Forall fitsWidth ps → sound r →
  0 <= c → 0 <= Y < 2 ^ c →
  left r = width ps + c → rest r = packed ps * 2 ^ c + Y →
  let r' := readsLeave r ps.*2 in
  sound r' ∧ left r' = c ∧ rest r' = Y.
Proof.
  induction ps as [|[u n] ps IH]; intros r c Y Hps Hr Hc HY Hleft Hrest.
  { simpl in *. split; [done|]. split; lia. }
  apply Forall_cons in Hps as [[Hn Hu] Hps]. simpl in Hn, Hu, Hleft, Hrest.
  pose proof (width_nonneg ps Hps) as Hw.
  pose proof (packed_bound ps Hps) as Hp.
  pose proof (pow2_pos c Hc).
  rewrite fmap_cons. cbn [readsLeave snd].
  destruct (readBits_sound r n Hr Hn ltac:(lia))
    as (r' & Hrun & Hr' & _ & Hl' & Hrest').
  rewrite Hrun. cbn [snd].
  assert (Hsplit : rest r = u * 2 ^ (width ps + c) + (packed ps * 2 ^ c + Y))
    by (rewrite Hrest, Z.pow_add_r by lia; lia).
  assert (Hlow : 0 <= packed ps * 2 ^ c + Y < 2 ^ (width ps + c)).
  { rewrite Z.pow_add_r by lia. split; [nia|].
    apply Z.lt_le_trans with ((packed ps + 1) * 2 ^ c); nia. }
  replace (left r - n) with (width ps + c) in * by lia.
  rewrite Hsplit, mod_low in Hrest' by lia.
  by apply (IH r' c Y).
Qed.

(** A reader without a bit left returns [io.EOF] and stays as it is. *)
Lemma read_at_end (r : bstreamReader) (n : Z) :
  sound r → left r = 0 →
  readBits r n = (None, r) ∧ readBit r = (None, r) ∧ ReadByte r = (None, r).
Proof.
  intros (_ & Hoff & Hv & _) Hleft. unfold left, unread in Hleft.
  assert (Hload : ∀ k, loadNextBuffer r k = (false, r)).
  { intros k. unfold loadNextBuffer.
    destruct (Z.leb_spec (len (r_stream r)) (streamOffset r)); [done|lia]. }
  assert (Hv0 : valid r = 0) by lia.
  assert (Hbits : ∀ k, readBits r k = (None, r)).
  { intros k. unfold readBits. by rewrite Hv0, Hload. }
  split; [done|]. split.
  - unfold readBit. by rewrite Hv0, Hload.
  - unfold ReadByte. by rewrite Hbits.
Qed.

End BitsAndBytes.

(** [readBit] returns the bit that [readBits(1)] returns, and leaves the
    reader as [readBits(1)] leaves it; so does it return [io.EOF]. *)
Theorem readBit_as_readBits (r : Bstream.bstreamReader) :
  0 <= Bstream.valid r →
  Bstream.readBit r
  = ((λ v, v =? 1) <$> (Bstream.readBits r 1).1, (Bstream.readBits r 1).2).
Proof. apply readBit_readBits. Qed.

Lemma readBit_as_readBits_witness :
  let r := Bstream.newBReader [160; 1] in
  Bstream.readBit r
  = ((λ v, v =? 1) <$> (Bstream.readBits r 1).1, (Bstream.readBits r 1).2).
Proof. intros r. apply (readBit_as_readBits r). simpl. lia. Defined.

(** The fast paths keep their contract: a caller that tries
    [readBitsFast] and, on [io.EOF], calls [readBits] gets what [readBits]
    alone returns, value and reader; the same holds of [readBitFast] and
    [readBit]. *)
Theorem fast_path_retry (r : Bstream.bstreamReader) (n : Z) :
  1 <= n →
  match Bstream.readBitsFast r n with
  | (Some v, r') => (Some v, r')
  | (None, r') => Bstream.readBits r' n
  end = Bstream.readBits r n
  ∧ match Bstream.readBitFast r with
    | (Some v, r') => (Some v, r')
    | (None, r') => Bstream.readBit r'
    end = Bstream.readBit r.
Proof.
  intros Hn. split.
  - unfold Bstream.readBits at 2.
    unfold Bstream.readBitsFast at 1.
    destruct (Z.ltb_spec (Bstream.valid r) n) as [Hlt|Hge].
    + by unfold Bstream.readBits.
    + destruct (Z.eqb_spec (Bstream.valid r) 0); [lia|]. cbn [negb].
      destruct (Z.leb_spec n (Bstream.valid r)); [|lia].
      unfold Bstream.readBitsFast.
      by destruct (Z.ltb_spec (Bstream.valid r) n); [lia|].
  - unfold Bstream.readBit at 2. unfold Bstream.readBitFast at 1.
    destruct (Z.eqb_spec (Bstream.valid r) 0) as [E|E].
    + unfold Bstream.readBit. by rewrite E.
    + cbn [negb]. unfold Bstream.readBitFast.
      by destruct (Z.eqb_spec (Bstream.valid r) 0).
Qed.

Lemma fast_path_retry_witness :
  let r := Bstream.newBReader [160; 1] in
  match Bstream.readBitsFast r 3 with
  | (Some v, r') => (Some v, r')
  | (None, r') => Bstream.readBits r' 3
  end = Bstream.readBits r 3
  ∧ match Bstream.readBitFast r with
    | (Some v, r') => (Some v, r')
    | (None, r') => Bstream.readBit r'
    end = Bstream.readBit r.
Proof. intros r. apply (fast_path_retry r 3). lia. Defined.

(** Bits written with [writeBit], bytes written with [writeByte] and values
    written with [writeBits], in any order into an empty stream, are read
    back in that order by [readBit], [ReadByte] and [readBits] over the
    bytes of the stream; no write fails and no read returns [io.EOF].  A
    stream that was [reset] takes the writes as an empty one does, whatever
    it held. *)
Theorem items_roundtrip (items : list item) :
  Forall itemOK items →
  (∃ w, writeItems (Bstream.mkBstream [] 0) items = Some w
        ∧ readItems (Bstream.newBReader (Bstream.bytes w)) items = Some items)
  ∧ (∀ b, writeItems (Bstream.reset b) items
          = writeItems (Bstream.mkBstream [] 0) items).
Proof.
  intros Hok. split; [|done].
  assert (Hps : Forall fitsWidth (pairOf <$> items)).
  { apply Forall_fmap. eapply Forall_impl; [done|]. apply pairOf_fits. }
  destruct (writeAll_fresh _ Hps) as (w & Hw & Hwr & Hl).
  exists w. split; [by rewrite writeItems_writeAll|].
  destruct (written_reader w _ Hwr Hl) as (Hr & Hleft & Hrest).
  pose proof Hwr as (_ & Hc & _).
  apply readItems_readAll; [done|done|lia|].
  apply (readAll_sound _ _ (Bstream.count w) 0); try done; try lia.
Qed.

Lemma items_roundtrip_witness :
  let items := [Bit true; Bit false; Byte 200; Bits 5 3; Byte 7; Bit true;
                Bits (2 ^ 64 - 1) 64] in
  (∃ w, writeItems (Bstream.mkBstream [] 0) items = Some w
        ∧ readItems (Bstream.newBReader (Bstream.bytes w)) items = Some items)
  ∧ (∀ b, writeItems (Bstream.reset b) items
          = writeItems (Bstream.mkBstream [] 0) items).
Proof.
  apply items_roundtrip.
  repeat (apply Forall_cons; split;
          [first [exact I|vm_compute; repeat split; congruence]|]).
  constructor.
Defined.

(** The layout of the stream: after writing the pairs [ps] into an empty
    stream, the bytes read as one big-endian number are the values, each on
    its width and the first in the highest bits, followed by [count] zero
    bits; 8 times the number of bytes is the sum of the widths plus
    [count], and [count] is at most 8. *)
Theorem stream_layout (ps : list (Z * Z)) :
  Forall fitsWidth ps →
  ∃ w, Bstream.writeAll (Bstream.mkBstream [] 0) ps = Some w
       ∧ isBytes (Bstream.bytes w)
       ∧ 0 <= Bstream.count w <= 8
       ∧ 8 * Go.len (Bstream.bytes w) = width ps + Bstream.count w
       ∧ be (Bstream.bytes w) = packed ps * 2 ^ Bstream.count w.
Proof.
  intros Hps. destruct (writeAll_fresh ps Hps) as (w & Hw & (Hs & Hc & _ & Hbe) & Hl).
  exists w. unfold bitlen, Bstream.bytes in *. repeat split; try done; lia.
Qed.

Lemma stream_layout_witness :
  let ps := [(5, 3); (255, 8); (1, 1)] in
  ∃ w, Bstream.writeAll (Bstream.mkBstream [] 0) ps = Some w
       ∧ isBytes (Bstream.bytes w)
       ∧ 0 <= Bstream.count w <= 8
       ∧ 8 * Go.len (Bstream.bytes w) = width ps + Bstream.count w
       ∧ be (Bstream.bytes w) = packed ps * 2 ^ Bstream.count w.
Proof.
  apply stream_layout.
  repeat (constructor; [split; vm_compute; split; congruence|]). constructor.
Defined.

(** The end of the stream: once the values written into an empty stream are
    read back, the bits left are the [count] zero bits of the last byte,
    which read as 0; with none of them left every read returns [io.EOF]
    and leaves the reader as it is. *)
Theorem read_to_the_end (ps : list (Z * Z)) :
  Forall fitsWidth ps →
  ∃ w, Bstream.writeAll (Bstream.mkBstream [] 0) ps = Some w
       ∧ let r := readsLeave (Bstream.newBReader (Bstream.bytes w)) ps.*2 in
         left r = Bstream.count w
         ∧ (∀ n, 1 <= n <= Bstream.count w →
              (Bstream.readBits r n).1 = Some 0)
         ∧ (Bstream.count w = 0 →
            ∀ n, Bstream.readBits r n = (None, r)
                 ∧ Bstream.readBit r = (None, r)
                 ∧ Bstream.ReadByte r = (None, r)).
Proof.
  intros Hps. destruct (writeAll_fresh ps Hps) as (w & Hw & Hwr & Hl).
  exists w. split; [done|].
  destruct (written_reader w _ Hwr Hl) as (Hr & Hleft & Hrest).
  pose proof Hwr as (_ & Hc & _).
  destruct (readsLeave_sound ps _ (Bstream.count w) 0 Hps Hr) as (Hr' & Hl' & Hrest');
    [lia|split; [lia|apply Z.pow_pos_nonneg; lia]|done|done|].
  intros r. fold r in Hr', Hl', Hrest'. split; [done|]. split.
  - intros n Hn.
    destruct (readBits_sound r n Hr' ltac:(lia) ltac:(lia)) as (r1 & -> & _).
    cbn [fst]. by rewrite Hrest', Zdiv_0_l.
  - intros Hc0 n. apply read_at_end; [done|lia].
Qed.

Lemma read_to_the_end_witness :
  let ps := [(5, 3); (255, 8); (1, 1); (9, 4)] in
  ∃ w, Bstream.writeAll (Bstream.mkBstream [] 0) ps = Some w
       ∧ let r := readsLeave (Bstream.newBReader (Bstream.bytes w)) ps.*2 in
         left r = Bstream.count w
         ∧ (∀ n, 1 <= n <= Bstream.count w →
              (Bstream.readBits r n).1 = Some 0)
         ∧ (Bstream.count w = 0 →
            ∀ n, Bstream.readBits r n = (None, r)
                 ∧ Bstream.readBit r = (None, r)
                 ∧ Bstream.ReadByte r = (None, r)).
Proof.
  apply read_to_the_end.
  repeat (constructor; [split; vm_compute; split; congruence|]). constructor.
Defined.

(** No bit left after 16 bits on two bytes: the third read is [io.EOF]. *)
Example read_at_the_end :
  let r := readsLeave (Bstream.newBReader [191; 249]) [3; 8; 1; 4] in
  Bstream.readBits r 1 = (None, r).
Proof. vm_compute. reflexivity. Qed.

(** ** memory_partition.go: the life of a partition *)

Section PartitionLife.
Import Go MemPart.
Context `{SortSlice} {WAL : Type}.
Variable wal_append : WAL → Z → list Row → WAL * option error.
Variable clock : nat → Z.

(** No stored point lies after the maximum. *)
Definition belowMax (m : memoryPartition WAL) : Prop :=
  allStored (λ p, Timestamp p <= maxT m) (metrics m).

(** Before the first accepted batch the bounds are those of the zero
    value. *)
Definition unset (m : memoryPartition WAL) : Prop :=
  once m = false → minT m = 0 ∧ maxT m = 0.

Lemma allStored_weaken (Q Q' : DataPoint → Prop) ms :
  (∀ p, Q p → Q' p) → allStored Q ms → allStored Q' ms.
Proof. intros HQ Hms k mt p Hk Hp. eapply HQ, Hms; eauto. Qed.

Lemma insertRowSpec_below minT precision st row B :
  let st' := insertRowSpec clock minT precision st row in
  allStored (λ p, Timestamp p <= Z.max B (l_maxTimestamp st)) (l_metrics st) →
  allStored (λ p, Timestamp p <= Z.max B (l_maxTimestamp st')) (l_metrics st').
Proof.
  intros st' Hst. unfold st', insertRowSpec. case_decide as Hout; [done|]. simpl.
  apply allStored_store.
  - eapply allStored_weaken; [|exact Hst]. simpl. intros. lia.
  - intros p. rewrite stored_insertPoint. intros [->|Hp]%elem_of_cons.
    + simpl. lia.
    + pose proof (stored_seriesAt _ _ _ p Hst Hp) as Hle. simpl in Hle. lia.
Qed.

Lemma foldl_insertRowSpec_below minT precision rows B : ∀ st,
  let st' := foldl (insertRowSpec clock minT precision) st rows in
  allStored (λ p, Timestamp p <= Z.max B (l_maxTimestamp st)) (l_metrics st) →
  allStored (λ p, Timestamp p <= Z.max B (l_maxTimestamp st')) (l_metrics st').
Proof.
  induction rows as [|row rows IH]; intros st; simpl; [done|].
  intros Hst. apply IH. by apply insertRowSpec_below.
Qed.

Lemma insertRows_belowMax tick m rows tick' m' res :
  partOK m → belowMax m →
  insertRows wal_append clock tick m rows = Some (tick', m', res) →
  belowMax m' ∧ maxT m <= maxT m'.
Proof.
  intros (Hms & _) Hbelow Hrun.
  destruct rows as [|first rows]; [by injection Hrun as _ <- _|].
  destruct (wal_append (wal m) operationInsert (first :: rows)) as [w [err|]] eqn:Hwal.
  { unfold insertRows in Hrun. rewrite Hwal in Hrun. by injection Hrun as _ <- _. }
  rewrite (insertRows_accepted _ _ _ _ _ _ w Hms Hwal) in Hrun.
  injection Hrun as _ <- _.
  set (minT' := if once m then minT m else batchMin first (first :: rows)) in *.
  set (st0 := mkLoop tick (metrics m) [] (Timestamp (Point first)) 0).
  unfold belowMax. cbn [maxT metrics]. split; [|lia].
  apply (foldl_insertRowSpec_below minT' (timestampPrecision m) (first :: rows)
           (maxT m) st0).
  eapply allStored_weaken; [|exact Hbelow]. simpl. intros. lia.
Qed.

Lemma insertRows_unset tick m rows tick' m' res :
  unset m → insertRows wal_append clock tick m rows = Some (tick', m', res) →
  unset m'.
Proof.
  intros Hun Hrun. destruct rows as [|first rows]; [by injection Hrun as _ <- _|].
  unfold insertRows in Hrun.
  destruct (wal_append (wal m) operationInsert (first :: rows)) as [w [err|]];
    [by injection Hrun as _ <- _|].
  destruct (insertLoop _ _ _ _ _) as [st|]; [|done].
  injection Hrun as _ <- _. by intros ?.
Qed.

(** The span of a partition, as [active] has it before the wrap-around. *)
Definition span (m : memoryPartition WAL) : Z := maxT m - minT m + 1.

Lemma step_life m m' :
  partOK m → belowMax m → unset m → step wal_append clock m m' →
  belowMax m' ∧ unset m' ∧ maxT m <= maxT m' ∧ span m <= span m'
  ∧ (once m = true → once m' = true ∧ minT m' = minT m).
Proof.
  intros Hok Hbelow Hun Hstep.
  pose proof (step_partOK _ _ _ _ Hok Hstep) as (_ & _ & Hmm' & _).
  destruct Hstep as [tick m rows tick' m' res Hrun | m metric labels s e pts m' Hrun].
  - destruct (insertRows_belowMax _ _ _ _ _ _ Hok Hbelow Hrun) as [Hb' Hmax].
    pose proof (insertRows_unset _ _ _ _ _ _ Hun Hrun) as Hun'.
    pose proof (insertRows_once _ _ _ _ _ _ _ _ Hrun) as Honce.
    split; [done|]. split; [done|]. split; [done|]. split; [|done].
    unfold span. destruct (once m) eqn:E.
    + destruct (Honce eq_refl) as [_ ->]. lia.
    + destruct (Hun E) as [-> ->]. lia.
  - apply selectDataPoints_spec in Hrun as [_ ->].
    unfold belowMax, unset, span. simpl.
    split; [|split; [exact Hun|split; [lia|split; [lia|done]]]].
    destruct (metrics m !! _) eqn:E; [done|].
    apply allStored_store; [done|].
    rewrite stored_seriesAt_new by done. by intros p ?%elem_of_nil.
Qed.

Lemma steps_life m m' :
  partOK m → belowMax m → unset m → rtc (step wal_append clock) m m' →
  belowMax m' ∧ unset m' ∧ maxT m <= maxT m' ∧ span m <= span m'
  ∧ (once m = true → once m' = true ∧ minT m' = minT m).
Proof.
  intros Hok Hbelow Hun Hsteps.
  induction Hsteps as [m|m1 m2 m3 Hstep _ IH].
  { split; [done|]. split; [done|]. by repeat split. }
  destruct (step_life _ _ Hok Hbelow Hun Hstep) as (Hb2 & Hu2 & Hmax2 & Hsp2 & Hfix2).
  destruct (IH (step_partOK _ _ _ _ Hok Hstep) Hb2 Hu2)
    as (Hb3 & Hu3 & Hmax3 & Hsp3 & Hfix3).
  split; [done|]. split; [done|]. split; [lia|]. split; [lia|].
  intros E. destruct (Hfix2 E) as [E2 Hmin2]. destruct (Hfix3 E2) as [E3 Hmin3].
  split; [done|congruence].
Qed.

Lemma new_life (w : WAL) duration precision :
  belowMax (newMemoryPartition w duration precision)
  ∧ unset (newMemoryPartition w duration precision).
Proof.
  split; [|done]. intros k mt p Hk. simpl in Hk. by rewrite lookup_empty in Hk.
Qed.

Lemma reachable_life m :
  reachable wal_append clock m → partOK m ∧ belowMax m ∧ unset m.
Proof.
  intros Hreach. split; [by eapply reachable_partOK|].
  destruct Hreach as (w & d & p & Hsteps).
  destruct (new_life w d p) as [Hb Hu].
  destruct (steps_life _ _ (proj1 (new_partOK w d p)) Hb Hu Hsteps)
    as (Hb' & Hu' & _).
  done.
Qed.

Lemma wrapInt64_small z : - 2 ^ 63 <= z < 2 ^ 63 → wrapInt64 z = z.
Proof.
  intros Hz. unfold wrapInt64. rewrite Z.mod_small; lia.
Qed.

End PartitionLife.

Section PartitionExtras.
Import Go MemPart.
Context `{SortSlice} {WAL : Type}.
Variable wal_append : WAL → Z → list Row → WAL * option error.
Variable clock : nat → Z.

(** Every series of a partition the code can build keeps its points in
    order: [size] is the length of the in-order list, the timestamps of
    that list ascend strictly, [minTimestamp] and [maxTimestamp] are those
    of its first and last point and bound all of them, and the out-of-order
    list is empty as long as the in-order list is. *)
Theorem series_in_order (m : memoryPartition WAL) (k : string)
    (mt : memoryMetric) :
  reachable wal_append clock m → metrics m !! k = Some mt →
  seriesOK mt
  ∧ Forall (λ q, minTimestamp mt <= Timestamp q <= maxTimestamp mt) (points mt).
Proof.
  intros (Hms & _)%reachable_partOK Hk.
  split; [by eapply Hms|]. apply series_bounds. by eapply Hms.
Qed.

(** The maximum timestamp of a partition never decreases, and once the
    first accepted batch has fixed the minimum timestamp no call changes
    it. *)
Theorem minimum_is_immutable (m m' : memoryPartition WAL) :
  reachable wal_append clock m → rtc (step wal_append clock) m m' →
  maxTimestampOf m <= maxTimestampOf m'
  ∧ (once m = true → once m' = true ∧ minTimestampOf m' = minTimestampOf m).
Proof.
  intros (Hok & Hb & Hu)%reachable_life Hsteps.
  destruct (steps_life _ _ _ _ Hok Hb Hu Hsteps) as (_ & _ & Hmax & _ & Hfix).
  done.
Qed.


(** A partition that is no longer active does not become active again:
    the span from the minimum to the maximum timestamp only grows.  The
    span of the later partition is taken to fit an [int64]. *)
Theorem inactive_stays_inactive (m m' : memoryPartition WAL) :
  reachable wal_append clock m → rtc (step wal_append clock) m m' →
  maxTimestampOf m' - minTimestampOf m' + 1 < 2 ^ 63 →
  active m = false → active m' = false.
Proof.
  intros Hreach Hsteps Hfit.
  pose proof (reachable_life _ _ _ Hreach) as (Hok & Hb & Hu).
  destruct (steps_life _ _ _ _ Hok Hb Hu Hsteps) as (_ & _ & _ & Hspan & _).
  assert (Hdur : partitionDuration m' = partitionDuration m).
  { clear -Hsteps. induction Hsteps as [|m1 m2 m3 Hstep _ IH]; [done|].
    rewrite IH. clear IH.
    destruct Hstep as [tick m rows tick' m' res Hrun | m metric labels s e pts m' Hrun].
    - destruct rows as [|first rows]; [by injection Hrun as _ <- _|].
      unfold insertRows in Hrun.
      destruct (wal_append (wal m) operationInsert (first :: rows)) as [w [err|]];
        [by injection Hrun as _ <- _|].
      destruct (insertLoop _ _ _ _ _) as [st|]; [|done].
      by injection Hrun as _ <- _.
    - by apply selectDataPoints_spec in Hrun as [_ ->]. }
  pose proof (steps_partOK _ _ _ _ Hok Hsteps) as (_ & _ & Hmm' & _).
  destruct Hok as (_ & _ & Hmm & _).
  unfold active, span, maxTimestampOf, minTimestampOf in *. rewrite Hdur.
  rewrite !(wrapInt64_small (maxT m - minT m)) by lia.
  rewrite !(wrapInt64_small (maxT m' - minT m')) by lia.
  rewrite !wrapInt64_small by lia.
  intros Hin%Z.ltb_ge. apply Z.ltb_ge. lia.
Qed.


(** The least timestamp of a batch. *)
Lemma batchMin_least first rows :
  Forall (λ r, batchMin first rows <= Timestamp (Point r)) rows
  ∧ (batchMin first rows = Timestamp (Point first)
     ∨ ∃ r, r ∈ rows ∧ batchMin first rows = Timestamp (Point r)).
Proof.
  unfold batchMin. generalize (Timestamp (Point first)) as z.
  induction rows as [|r rows IH]; intros z; simpl; [by split; [|left]|].
  set (z' := if Timestamp (Point r) <? z then Timestamp (Point r) else z).
  destruct (IH z') as [Hall Hex].
  assert (Hle : ∀ y, foldl (λ min row, if Timestamp (Point row) <? min
                               then Timestamp (Point row) else min) y rows <= y).
  { clear. induction rows as [|r rows IH]; intros y; simpl; [lia|].
    destruct (Z.ltb_spec (Timestamp (Point r)) y); etrans; try apply IH; lia. }
  split.
  - constructor; [|done]. specialize (Hle z'). unfold z' in *.
    destruct (Z.ltb_spec (Timestamp (Point r)) z); lia.
  - destruct Hex as [Hex|(r' & Hin & Hex)].
    + unfold z' in Hex. destruct (Z.ltb_spec (Timestamp (Point r)) z).
      * right. exists r. split; [left|done].
      * by left.
    + right. exists r'. split; [by right|done].
Qed.

Lemma filter_below_none (z : Z) (rows : list Row) :
  Forall (λ r, z <= Timestamp (Point r)) rows →
  filter (λ r, Timestamp (Point r) < z) rows = [].
Proof.
  induction 1 as [|r rs Hr _ IH]; [done|].
  rewrite filter_cons, IH. case_decide; [lia|done].
Qed.

Lemma foldl_insertRowSpec_count minT precision rows : ∀ st,
  let st' := foldl (insertRowSpec clock minT precision) st rows in
  l_rowsNum st' + len (l_outdated st')
  = l_rowsNum st + len (l_outdated st) + len rows.
Proof.
  induction rows as [|row rows IH]; intros st; simpl.
  - change (len []) with 0. lia.
  - rewrite IH. unfold insertRowSpec.
    replace (len (row :: rows)) with (1 + len rows)
      by (unfold len; simpl length; lia).
    case_decide; simpl; rewrite ?len_app; change (len [row]) with 1; lia.
Qed.

(** An accepted batch is split in two: the rows below the minimum
    timestamp are returned, in the order of the batch, and [size()] grows
    by the number of the others.  The first accepted batch fixes the
    minimum at its least timestamp, as the rows have it before any is
    stamped, and returns no row. *)
Theorem batch_accounting (tick : nat) (m : memoryPartition WAL)
    (rows : list Row) (w : WAL) :
  reachable wal_append clock m → rows ≠ [] →
  wal_append (wal m) operationInsert rows = (w, None) →
  ∃ tick' m' outdated,
    insertRows wal_append clock tick m rows = Some (tick', m', Ok outdated)
    ∧ outdated
      = filter (λ r, Timestamp (Point r) < minTimestampOf m') rows
    ∧ sizeOf m' = sizeOf m + len rows - len outdated
    ∧ once m' = true
    ∧ (once m = false →
       outdated = []
       ∧ Forall (λ r, minTimestampOf m' <= Timestamp (Point r)) rows
       ∧ ∃ r, r ∈ rows ∧ minTimestampOf m' = Timestamp (Point r)).
Proof.
  intros (Hms & _)%reachable_partOK Hne Hwal.
  destruct rows as [|first rows]; [done|].
  pose proof (insertRows_accepted wal_append clock tick m first rows w Hms Hwal)
    as Hrun.
  cbv zeta in Hrun.
  set (minT' := if once m then minT m else batchMin first (first :: rows)) in *.
  set (st0 := mkLoop tick (metrics m) [] (Timestamp (Point first)) 0) in *.
  set (st := foldl _ st0 (first :: rows)) in *.
  eexists _, _, _. split; [exact Hrun|].
  destruct (foldl_insertRowSpec clock minT' (timestampPrecision m)
              (first :: rows) st0) as (_ & _ & Hout & _).
  pose proof (foldl_insertRowSpec_count minT' (timestampPrecision m)
                (first :: rows) st0) as Hcount.
  fold st in Hout, Hcount. simpl in Hout, Hcount.
  unfold sizeOf, minTimestampOf. cbn [numPoints minT once].
  split; [exact Hout|]. change (len []) with 0 in Hcount.
  split; [lia|]. split; [done|].
  intros E. unfold minT' in *. rewrite E in *.
  destruct (batchMin_least first (first :: rows)) as [Hall Hex].
  split; [|split; [done|]].
  - rewrite Hout. by apply filter_below_none.
  - destruct Hex as [Hex|Hex]; [|done]. exists first. split; [left|done].
Qed.


(** A series without points answers every range with no point. *)
Lemma selectPoints_new key start end_ :
  selectPoints (mkMetric key 0 0 0 [] []) start end_ = Some [].
Proof.
  unfold selectPoints. simpl. destruct (end_ <=? 0) eqn:E; [done|].
  apply Z.leb_gt in E. destruct (Z.ltb_spec 0 end_); [|lia].
  unfold sort_Search. rewrite searchLoop_step, decide_False by lia.
  by destruct (start <=? 0).
Qed.

(** A query is a read, but for one thing: for a series that the partition
    does not hold, [getMetric] stores an empty one, and the result is
    empty.  The counters, the bounds and every series held are as before,
    and the same query on the partition the first one leaves returns the
    same points and changes nothing more. *)
Theorem query_is_a_read (m : memoryPartition WAL) (metric : string)
    (labels : list Labels.Label) (start end_ : Z) :
  let key := Labels.metricKey metric labels in
  (metrics m !! key = None →
   selectDataPoints m metric labels start end_
   = Some ([], mkPartition (numPoints m) (minT m) (maxT m)
                 (<[key := mkMetric key 0 0 0 [] []]> (metrics m)) (wal m)
                 (partitionDuration m) (timestampPrecision m) (once m)))
  ∧ (∀ pts m',
       selectDataPoints m metric labels start end_ = Some (pts, m') →
       sizeOf m' = sizeOf m
       ∧ minTimestampOf m' = minTimestampOf m
       ∧ maxTimestampOf m' = maxTimestampOf m
       ∧ once m' = once m ∧ wal m' = wal m
       ∧ (∀ k mt, metrics m !! k = Some mt → metrics m' !! k = Some mt)
       ∧ (∀ k, k ≠ key → metrics m' !! k = metrics m !! k)
       ∧ selectDataPoints m' metric labels start end_ = Some (pts, m')).
Proof.
  intros key. split.
  - intros Hk. unfold selectDataPoints. rewrite getMetric_spec. fold key.
    unfold seriesAt. rewrite Hk. simpl. by rewrite selectPoints_new.
  - intros pts m' Hrun.
    pose proof Hrun as [Hsel ->]%selectDataPoints_spec. fold key in Hsel |- *.
    unfold sizeOf, minTimestampOf, maxTimestampOf. simpl.
    do 5 (split; [done|]).
    destruct (metrics m !! key) as [mt0|] eqn:E.
    + split; [done|]. split; [done|].
      unfold selectDataPoints. rewrite getMetric_spec. simpl. fold key.
      by rewrite E, Hsel.
    + split; [|split].
      * intros k mt Hk. rewrite lookup_insert_ne; [done|]. congruence.
      * intros k Hne. by rewrite lookup_insert_ne.
      * set (s0 := seriesAt (metrics m) key) in *.
        assert (Hs0 : seriesAt (<[key := s0]> (metrics m)) key = s0)
          by (unfold seriesAt at 1; by rewrite lookup_insert_eq).
        unfold selectDataPoints. rewrite getMetric_spec. fold key. simpl.
        by rewrite Hs0, lookup_insert_eq, Hsel.
Qed.


(** Insert, then select.  A row with a timestamp other than 0, not below
    the minimum and after the last in-order point of its series, is
    accepted as a batch of its own, none of it is outdated, and a query of
    its metric and labels over a range that holds its timestamp returns
    what the series had in the range, followed by the point of the row. *)
Theorem inserted_row_is_selected (tick : nat) (m : memoryPartition WAL)
    (r : Row) (w : WAL) (start end_ : Z) :
  let series := seriesAt (metrics m) (Labels.metricKey (Metric r) (Labels r)) in
  reachable wal_append clock m →
  wal_append (wal m) operationInsert [r] = (w, None) →
  Timestamp (Point r) ≠ 0 →
  (once m = true → minTimestampOf m <= Timestamp (Point r)) →
  (∀ q, last (points series) = Some q → Timestamp q < Timestamp (Point r)) →
  start <= Timestamp (Point r) < end_ →
  ∃ tick' m' m'',
    insertRows wal_append clock tick m [r] = Some (tick', m', Ok [])
    ∧ selectDataPoints m' (Metric r) (Labels r) start end_
      = Some (inWindow start end_ (points series) ++ [Point r], m'').
Proof.
  intros series (Hms & _)%reachable_partOK Hwal Hts Hmin Hlast Hrange.
  pose proof (insertRows_accepted wal_append clock tick m r [] w Hms Hwal)
    as Hrun.
  cbv zeta in Hrun.
  set (minT' := if once m then minT m else batchMin r [r]) in *.
  assert (Hnot : ¬ Timestamp (Point r) < minT').
  { unfold minT'. destruct (once m) eqn:E.
    - specialize (Hmin eq_refl). unfold minTimestampOf in Hmin. lia.
    - unfold batchMin. simpl. destruct (_ <? _); lia. }
  set (series' := insertPointSpec series (Point r)).
  set (st0 := mkLoop tick (metrics m) [] (Timestamp (Point r)) 0) in *.
  assert (Hst : foldl (insertRowSpec clock minT' (timestampPrecision m)) st0 [r]
                = mkLoop tick
                    (<[Labels.metricKey (Metric r) (Labels r) := series']>
                       (metrics m))
                    [] (Z.max (Timestamp (Point r)) (Timestamp (Point r)))
                    (0 + 1)).
  { simpl. unfold insertRowSpec. rewrite decide_False by done.
    unfold stamp. simpl.
    destruct (Z.eqb_spec (Timestamp (Point r)) 0) as [|_]; [done|].
    simpl. fold series. by destruct (Point r). }
  rewrite Hst in Hrun. cbn [l_tick l_metrics l_outdated l_rowsNum l_maxTimestamp] in Hrun.
  assert (Hok : seriesOK series') by (by apply insertPoint_ok, seriesAt_ok).
  assert (Hpts : points series' = points series ++ [Point r]).
  { unfold series', insertPointSpec.
    destruct (last (points series)) as [q|] eqn:E; [|done].
    specialize (Hlast q eq_refl).
    by destruct (Z.ltb_spec (Timestamp q) (Timestamp (Point r))); [|lia]. }
  eexists _, _, _. split; [exact Hrun|].
  unfold selectDataPoints. rewrite getMetric_spec. cbn [metrics].
  assert (Hs : seriesAt (<[Labels.metricKey (Metric r) (Labels r) := series']>
                           (metrics m))
                 (Labels.metricKey (Metric r) (Labels r)) = series')
    by (unfold seriesAt; by rewrite lookup_insert_eq).
  rewrite Hs.
  rewrite selectPoints_window by (done || lia). cbn [mbind option_bind].
  do 2 f_equal. rewrite Hpts. unfold inWindow.
  rewrite filter_app, filter_cons, filter_nil. by rewrite decide_True.
Qed.

(** The order of the labels does not matter to a query: label lists that
    are permutations of one another, the valid labels having distinct
    names, address the same series. *)
Theorem query_label_order (m : memoryPartition WAL) (metric : string)
    (labels labels' : list Labels.Label) (start end_ : Z) :
  labels' ≡ₚ labels →
  NoDup (Labels.Name <$> filter valid labels) →
  selectDataPoints m metric labels' start end_
  = selectDataPoints m metric labels start end_.
Proof.
  intros HP Hnd.
  assert (Hkey : Labels.metricKey metric labels' = Labels.metricKey metric labels).
  { destruct (decide (labels = [])) as [->|N1].
    { by apply Permutation_nil_r in HP as ->. }
    assert (NP : labels' ≠ []) by (intros ->; by apply Permutation_nil_l in HP).
    rewrite !metricKey_bytes by done. do 2 f_equal.
    rewrite !key_bytes_of_valid. do 2 f_equal.
    apply sorted_valid_unique; by rewrite HP. }
  unfold selectDataPoints. by rewrite Hkey.
Qed.

End PartitionExtras.

(** [encodeAllPoints] sorts the out-of-order list of the series where it
    is, whether the encoder fails or not, and changes nothing else of the
    series: the in-order list, which alone a query reads, holds what it
    held. *)
Theorem encodeAllPoints_in_place `{Go.SortSlice} {Encoder : Type}
    (encodePoint : Encoder → MemPart.DataPoint → Encoder * option MemPart.error)
    (m : MemPart.memoryMetric) (enc : Encoder) (start end_ : Z) :
  let m' := (MemPart.encodeAllPoints encodePoint m enc).1.1 in
  MemPart.points m' = MemPart.points m
  ∧ MemPart.size m' = MemPart.size m
  ∧ MemPart.minTimestamp m' = MemPart.minTimestamp m
  ∧ MemPart.maxTimestamp m' = MemPart.maxTimestamp m
  ∧ MemPart.outOfOrderPoints m' ≡ₚ MemPart.outOfOrderPoints m
  ∧ StronglySorted tsLe (MemPart.outOfOrderPoints m')
  ∧ MemPart.selectPoints m' start end_ = MemPart.selectPoints m start end_.
Proof.
  intros m'. unfold m'. rewrite encodeAllPoints_finish. simpl.
  do 4 (split; [done|]). split; [apply Go.sort_Slice_perm|].
  split; [apply sorted_outOfOrder|done].
Qed.

(** Runs for the partition: the partition after a further batch. *)
Definition andThen (m : MemPart.memoryPartition unit) (rows : list MemPart.Row)
  : MemPart.memoryPartition unit :=
  match MemPart.insertRows (H := insertion_SortSlice) nopAppend lateClock 0 m rows with
  | Some (_, m', _) => m'
  | None => m
  end.

Lemma andThen_step m rows :
  rtc (step (H := insertion_SortSlice) nopAppend lateClock) m (andThen m rows).
Proof.
  unfold andThen.
  destruct (MemPart.insertRows nopAppend lateClock 0 m rows) as [[[t m'] res]|] eqn:E.
  - eapply rtc_once, step_insert, E.
  - apply rtc_refl.
Qed.

Lemma series_in_order_witness :
  let mt := MemPart.mkMetric "m1" 2 5 7 [MemPart.mkPoint 5 0; MemPart.mkPoint 7 0]
              [MemPart.mkPoint 3 0] in
  seriesOK mt
  ∧ Forall (λ q, MemPart.minTimestamp mt <= MemPart.Timestamp q
                 <= MemPart.maxTimestamp mt) (MemPart.points mt).
Proof.
  intros mt.
  apply (series_in_order (H := insertion_SortSlice) nopAppend lateClock
           (after [row "m1" 5; row "m1" 3; row "m1" 7]) "m1" mt).
  - apply after_reachable.
  - reflexivity.
Defined.

Lemma minimum_is_immutable_witness :
  let m := after [row "m1" 100] in
  let m' := andThen m [row "m1" 50; row "m1" 120] in
  MemPart.maxTimestampOf m <= MemPart.maxTimestampOf m'
  ∧ (MemPart.once m = true →
     MemPart.once m' = true ∧ MemPart.minTimestampOf m' = MemPart.minTimestampOf m).
Proof.
  intros m m'.
  apply (minimum_is_immutable (H := insertion_SortSlice) nopAppend lateClock).
  - apply after_reachable.
  - apply andThen_step.
Defined.


Lemma inactive_stays_inactive_witness :
  let m := after [row "m1" 1; row "m1" 5000] in
  MemPart.active (andThen m [row "m1" 6000]) = false.
Proof.
  intros m.
  apply (inactive_stays_inactive (H := insertion_SortSlice) nopAppend lateClock m).
  - apply after_reachable.
  - apply andThen_step.
  - vm_compute. reflexivity.
  - reflexivity.
Defined.

Lemma batch_accounting_witness :
  let m := after [row "m1" 100] in
  let rows := [row "m1" 50; row "m1" 120] in
  ∃ tick' m' outdated,
    MemPart.insertRows (H := insertion_SortSlice) nopAppend lateClock 0 m rows
    = Some (tick', m', MemPart.Ok outdated)
    ∧ outdated
      = filter (λ r, MemPart.Timestamp (MemPart.Point r) < MemPart.minTimestampOf m') rows
    ∧ MemPart.sizeOf m' = MemPart.sizeOf m + Go.len rows - Go.len outdated
    ∧ MemPart.once m' = true
    ∧ (MemPart.once m = false →
       outdated = []
       ∧ Forall (λ r, MemPart.minTimestampOf m'
                      <= MemPart.Timestamp (MemPart.Point r)) rows
       ∧ ∃ r, r ∈ rows
              ∧ MemPart.minTimestampOf m' = MemPart.Timestamp (MemPart.Point r)).
Proof.
  apply (batch_accounting (H := insertion_SortSlice) nopAppend lateClock 0
           (after [row "m1" 100]) [row "m1" 50; row "m1" 120] tt).
  - apply after_reachable.
  - discriminate.
  - reflexivity.
Defined.

Lemma query_is_a_read_witness :
  let m := after [row "m1" 100] in
  ∃ m',
    MemPart.selectDataPoints (H := insertion_SortSlice) m "m2" [] 0 200
    = Some ([], m')
    ∧ MemPart.metrics m' !! "m1" = MemPart.metrics m !! "m1"
    ∧ MemPart.selectDataPoints (H := insertion_SortSlice) m' "m2" [] 0 200
      = Some ([], m').
Proof.
  intros m.
  destruct (query_is_a_read (H := insertion_SortSlice) m "m2" [] 0 200)
    as [Hnew Hread].
  eexists. split; [apply Hnew; reflexivity|].
  destruct (Hread _ _ (Hnew eq_refl)) as (_ & _ & _ & _ & _ & _ & Hother & Hagain).
  split; [by apply Hother|exact Hagain].
Defined.

Lemma inserted_row_is_selected_witness :
  let m := after [row "m1" 5] in
  ∃ tick' m' m'',
    MemPart.insertRows (H := insertion_SortSlice) nopAppend lateClock 0 m
      [row "m1" 7] = Some (tick', m', MemPart.Ok [])
    ∧ MemPart.selectDataPoints m' "m1" [] 6 8
      = Some ([MemPart.mkPoint 7 0], m'').
Proof.
  intros m.
  apply (inserted_row_is_selected (H := insertion_SortSlice) nopAppend lateClock
           0 m (row "m1" 7) tt 6 8).
  - apply after_reachable.
  - reflexivity.
  - discriminate.
  - intros _. vm_compute. discriminate.
  - intros q [= <-]. reflexivity.
  - simpl. lia.
Defined.

Lemma query_label_order_witness :
  let host := Labels.mkLabel "host" "a" in
  let region := Labels.mkLabel "region" "b" in
  MemPart.selectDataPoints (H := insertion_SortSlice) (after [row "cpu" 5])
    "cpu" [region; host] 0 10
  = MemPart.selectDataPoints (after [row "cpu" 5]) "cpu" [host; region] 0 10.
Proof.
  intros host region. apply query_label_order.
  - apply perm_swap.
  - vm_compute. repeat constructor; rewrite ?elem_of_cons, ?elem_of_nil;
      intuition discriminate.
Defined.

(** ** disk_partition.go: queries on a flushed partition *)

Section DiskSelect.
Import Go DiskPart.
Context `{SortSlice} {Decoder : Type}.
Variable newSeriesDecoder : list Z → Decoder + string.
Variable decodePoint : Decoder → Decoder * (MemPart.DataPoint + string).

(** The decoder hands out the points [pts], one call after the other. *)
Fixpoint yields (decoder : Decoder) (pts : list MemPart.DataPoint) : Prop :=
  match pts with
  | [] => True
  | p :: pts =>
      ∃ decoder', decodePoint decoder = (decoder', inl p) ∧ yields decoder' pts
  end.

(** The points up to the first one at or after [end_]. *)
Fixpoint upTo (end_ : Z) (pts : list MemPart.DataPoint) : list MemPart.DataPoint :=
  match pts with
  | [] => []
  | p :: pts => if end_ <=? MemPart.Timestamp p then [] else p :: upTo end_ pts
  end.

(** What the loop keeps of the points it is handed. *)
Fixpoint kept (start end_ : Z) (pts : list MemPart.DataPoint)
  : list MemPart.DataPoint :=
  match pts with
  | [] => []
  | p :: pts =>
      if MemPart.Timestamp p <? start then kept start end_ pts
      else if end_ <=? MemPart.Timestamp p then []
      else p :: kept start end_ pts
  end.

Lemma decodeLoop_yields d name start end_ pts : ∀ decoder acc,
  yields decoder pts →
  decodeLoop Decoder decodePoint d name start end_ (length pts) decoder acc
  = inl (acc ++ kept start end_ pts).
Proof.
  induction pts as [|p pts IH]; intros decoder acc Hy; simpl.
  - by rewrite app_nil_r.
  - destruct Hy as (decoder' & -> & Hy).
    destruct (MemPart.Timestamp p <? start); [by apply IH|].
    destruct (end_ <=? MemPart.Timestamp p); [by rewrite app_nil_r|].
    rewrite (IH _ _ Hy). by rewrite <- app_assoc.
Qed.

Lemma kept_upTo start end_ pts :
  start <= end_ →
  kept start end_ pts
  = filter (λ p, start <= MemPart.Timestamp p) (upTo end_ pts).
Proof.
  intros Hse. induction pts as [|p pts IH]; [done|]. simpl.
  destruct (Z.ltb_spec (MemPart.Timestamp p) start);
    destruct (Z.leb_spec end_ (MemPart.Timestamp p)); try lia; try done.
  - by rewrite filter_cons, decide_False by lia.
  - by rewrite filter_cons, decide_True, IH by lia.
Qed.

Lemma kept_sorted start end_ pts :
  StronglySorted tsLe pts → kept start end_ pts = inWindow start end_ pts.
Proof.
  induction 1 as [|p pts Hs IH Hp]; [done|]. simpl. rewrite inWindow_cons.
  destruct (Z.ltb_spec (MemPart.Timestamp p) start).
  { by rewrite decide_False by lia. }
  destruct (Z.leb_spec end_ (MemPart.Timestamp p)).
  - rewrite decide_False by lia. symmetry. apply inWindow_none.
    eapply Forall_impl; [exact Hp|]. unfold tsLe. simpl. intros. lia.
  - by rewrite decide_True, IH by lia.
Qed.

Lemma copy_points (pts : list MemPart.DataPoint) :
  (λ p, MemPart.mkPoint (MemPart.Timestamp p) (MemPart.Value p)) <$> pts = pts.
Proof.
  induction pts as [|[t v] pts IH]; [done|]. by rewrite fmap_cons, IH.
Qed.


(** The decoder hands out [pts] and is then [decoder']. *)
Fixpoint leaves (decoder : Decoder) (pts : list MemPart.DataPoint)
    (decoder' : Decoder) : Prop :=
  match pts with
  | [] => decoder = decoder'
  | p :: pts =>
      ∃ next, decodePoint decoder = (next, inl p) ∧ leaves next pts decoder'
  end.

(** A call of [decodePoint] that fails before the loop is left. *)
Lemma decodeLoop_fails d name start end_ pts : ∀ decoder acc todo decoder' last err,
  leaves decoder pts decoder' → decodePoint decoder' = (last, inr err) →
  Forall (λ p, MemPart.Timestamp p < start ∨ MemPart.Timestamp p < end_) pts →
  decodeLoop Decoder decodePoint d name start end_ (length pts + S todo)
    decoder acc
  = inr (FailedToDecodePoint name (dirPath d) (Callee err)).
Proof.
  induction pts as [|p pts IH]; intros decoder acc todo decoder' last err Hl Herr Hin.
  - simpl in *. subst. by rewrite Herr.
  - destruct Hl as (next & Hp & Hl). apply Forall_cons in Hin as [Hp' Hin].
    cbn [length Nat.add decodeLoop]. rewrite Hp.
    destruct (Z.ltb_spec (MemPart.Timestamp p) start); [by eapply IH|].
    destruct (Z.leb_spec end_ (MemPart.Timestamp p)); [lia|]. by eapply IH.
Qed.

End DiskSelect.

(** What a recording encoder is handed by [encodeAllPoints]. *)
Lemma recorded_merge `{Go.SortSlice} (mt : MemPart.memoryMetric) :
  (MemPart.encodeAllPoints recorder mt []).1.2
  = list_merge tsLe (MemPart.points mt)
      (Go.sort_Slice (λ a b, MemPart.Timestamp a <? MemPart.Timestamp b)
         (MemPart.outOfOrderPoints mt)).
Proof.
  rewrite encodeAllPoints_finish. simpl. rewrite finish_mergeLoop.
  rewrite drainLoop_all by done. simpl.
  generalize (list_merge tsLe (MemPart.points mt)
                (Go.sort_Slice (λ a b, MemPart.Timestamp a <? MemPart.Timestamp b)
                   (MemPart.outOfOrderPoints mt))) as l.
  assert (G : ∀ (l acc : list MemPart.DataPoint),
             foldl (λ e p, (recorder e p).1) acc l = acc ++ l).
  { induction l as [|p l IH]; intros acc; simpl; [by rewrite app_nil_r|].
    rewrite IH. by rewrite <- app_assoc. }
  intros l. apply (G l []).
Qed.

(** A query on a disk partition that is not expired and holds the series:
    when the decoder hands out the points of the series, as many as the
    metadata say, the result holds those with [start <= t], up to the
    first point at or after [end_], where the loop leaves; for points in
    non-decreasing order of time these are the points with
    [start <= t < end_], for every range. *)
Theorem disk_select_window `{Go.SortSlice} {Decoder : Type}
    (newSeriesDecoder : list Z → Decoder + string)
    (decodePoint : Decoder → Decoder * (MemPart.DataPoint + string))
    (d : DiskPart.diskPartition) (now : Z) (metric : string)
    (labels : list Labels.Label) (start end_ : Z)
    (mt : DiskPart.diskMetric) (decoder : Decoder)
    (pts : list MemPart.DataPoint) :
  DiskPart.expired d now = false →
  DiskPart.Metrics (DiskPart.d_meta d) !! Labels.metricKey metric labels
  = Some mt →
  0 <= DiskPart.Offset mt →
  newSeriesDecoder (drop (Z.to_nat (DiskPart.Offset mt)) (DiskPart.mappedFile d))
  = inl decoder →
  yields decodePoint decoder pts →
  DiskPart.NumDataPoints mt = Go.len pts →
  let result := DiskPart.selectDataPoints Decoder newSeriesDecoder decodePoint
                  d now metric labels start end_ in
  (start <= end_ →
   result = inl (filter (λ p, start <= MemPart.Timestamp p) (upTo end_ pts)))
  ∧ (StronglySorted tsLe pts → result = inl (inWindow start end_ pts)).
Proof.
  intros Hexp Hmt Hoff Hdec Hy Hnum result.
  assert (Hres : result = inl (kept start end_ pts)).
  { unfold result, DiskPart.selectDataPoints.
    rewrite Hexp, Hmt. destruct (Z.ltb_spec (DiskPart.Offset mt) 0); [lia|].
    rewrite Hdec, Hnum. unfold Go.len. rewrite Nat2Z.id.
    rewrite (decodeLoop_yields decodePoint d _ start end_ pts decoder [] Hy).
    simpl. by rewrite copy_points. }
  split.
  - intros Hse. by rewrite Hres, kept_upTo.
  - intros Hs. by rewrite Hres, kept_sorted.
Qed.

(** A decoder over a list of points. *)
Definition listDecoder (pts : list MemPart.DataPoint)
  : list MemPart.DataPoint * (MemPart.DataPoint + string) :=
  match pts with
  | [] => ([], inr "EOF"%string)
  | p :: pts => (pts, inl p)
  end.

Lemma listDecoder_yields (pts : list MemPart.DataPoint) :
  yields listDecoder pts pts.
Proof. induction pts as [|p pts IH]; simpl; eauto. Qed.

(** A partition with one series of three points, created at time 0 and
    kept for an hour. *)
Definition onDisk : DiskPart.diskPartition :=
  DiskPart.mkDisk "/data/p-1-5"
    (DiskPart.mkMeta 1 5 3
       {["cpu" := DiskPart.mkDiskMetric "cpu" 0 1 5 3]} 0)
    [0; 0; 0; 0] 3600000000000.

Lemma disk_select_window_witness :
  let pt := λ ts, MemPart.mkPoint ts 0 in
  let result := DiskPart.selectDataPoints (H := insertion_SortSlice) _
                  (λ _, inl [pt 1; pt 3; pt 5]) listDecoder
                  onDisk 1000 "cpu" [] 2 5 in
  (2 <= 5 →
   result = inl (filter (λ p, 2 <= MemPart.Timestamp p) (upTo 5 [pt 1; pt 3; pt 5])))
  ∧ (StronglySorted tsLe [pt 1; pt 3; pt 5] →
     result = inl (inWindow 2 5 [pt 1; pt 3; pt 5])).
Proof.
  intros pt.
  apply (disk_select_window (H := insertion_SortSlice)
           (λ _, inl [pt 1; pt 3; pt 5]) listDecoder onDisk 1000 "cpu" [] 2 5
           (DiskPart.mkDiskMetric "cpu" 0 1 5 3) [pt 1; pt 3; pt 5]).
  - reflexivity.
  - reflexivity.
  - simpl. lia.
  - reflexivity.
  - apply listDecoder_yields.
  - reflexivity.
Defined.

Example disk_select_points :
  let pt := λ ts, MemPart.mkPoint ts 0 in
  DiskPart.selectDataPoints (H := insertion_SortSlice) _
    (λ _, inl [pt 1; pt 3; pt 5]) listDecoder onDisk 1000 "cpu" [] 2 5
  = inl [pt 3].
Proof. vm_compute. reflexivity. Qed.

(** From memory to disk.  For a series whose in-order points do not
    decrease in time, let the decoder hand out what [encodeAllPoints] hands
    to an encoder that keeps it.  Then a query on the disk partition
    returns, in non-decreasing order of time, the points of the series with
    [start <= t < end_], those of the out-of-order list among them, which
    no query on the memory partition returns. *)
Theorem flushed_series_is_selected `{Go.SortSlice} {Decoder : Type}
    (newSeriesDecoder : list Z → Decoder + string)
    (decodePoint : Decoder → Decoder * (MemPart.DataPoint + string))
    (series : MemPart.memoryMetric)
    (d : DiskPart.diskPartition) (now : Z) (metric : string)
    (labels : list Labels.Label) (start end_ : Z)
    (mt : DiskPart.diskMetric) (decoder : Decoder) :
  let fed := (MemPart.encodeAllPoints recorder series []).1.2 in
  StronglySorted tsLe (MemPart.points series) →
  DiskPart.expired d now = false →
  DiskPart.Metrics (DiskPart.d_meta d) !! Labels.metricKey metric labels
  = Some mt →
  0 <= DiskPart.Offset mt →
  newSeriesDecoder (drop (Z.to_nat (DiskPart.Offset mt)) (DiskPart.mappedFile d))
  = inl decoder →
  yields decodePoint decoder fed →
  DiskPart.NumDataPoints mt = Go.len fed →
  ∃ pts,
    DiskPart.selectDataPoints Decoder newSeriesDecoder decodePoint
      d now metric labels start end_ = inl pts
    ∧ StronglySorted tsLe pts
    ∧ pts ≡ₚ inWindow start end_
               (MemPart.points series ++ MemPart.outOfOrderPoints series).
Proof.
  intros fed Hpts Hexp Hmt Hoff Hdec Hy Hnum.
  assert (Hfed : fed = list_merge tsLe (MemPart.points series)
                         (Go.sort_Slice (λ a b, MemPart.Timestamp a <? MemPart.Timestamp b)
                            (MemPart.outOfOrderPoints series)))
    by apply recorded_merge.
  assert (Hsorted : StronglySorted tsLe fed).
  { rewrite Hfed. apply Sorted_StronglySorted; [apply _|].
    apply Sorted_list_merge; [apply _| |]; apply StronglySorted_Sorted; [done|].
    apply sorted_outOfOrder. }
  exists (inWindow start end_ fed). split; [|split].
  - unfold DiskPart.selectDataPoints.
    rewrite Hexp, Hmt. destruct (Z.ltb_spec (DiskPart.Offset mt) 0); [lia|].
    rewrite Hdec, Hnum. unfold Go.len. rewrite Nat2Z.id.
    rewrite (decodeLoop_yields decodePoint d _ start end_ fed decoder [] Hy).
    simpl. by rewrite copy_points, kept_sorted.
  - unfold inWindow. by apply StronglySorted_filter.
  - unfold inWindow. apply filter_Permutation.
    rewrite Hfed, merge_Permutation. by rewrite Go.sort_Slice_perm.
Qed.

Lemma flushed_series_is_selected_witness :
  let pt := λ ts, MemPart.mkPoint ts 0 in
  let series := MemPart.mkMetric "cpu" 2 1 5 [pt 1; pt 5] [pt 3] in
  ∃ pts,
    DiskPart.selectDataPoints (H := insertion_SortSlice) _
      (λ _, inl [pt 1; pt 3; pt 5]) listDecoder onDisk 1000 "cpu" [] 2 5
    = inl pts
    ∧ StronglySorted tsLe pts
    ∧ pts ≡ₚ inWindow 2 5 (MemPart.points series ++ MemPart.outOfOrderPoints series).
Proof.
  intros pt series.
  apply (flushed_series_is_selected (H := insertion_SortSlice)
           (λ _, inl [pt 1; pt 3; pt 5]) listDecoder series onDisk 1000 "cpu" []
           2 5 (DiskPart.mkDiskMetric "cpu" 0 1 5 3) [pt 1; pt 3; pt 5]).
  - unfold tsLe.
    repeat (constructor; [|repeat (constructor; [simpl; lia|]); constructor]).
    constructor.
  - reflexivity.
  - reflexivity.
  - simpl. lia.
  - reflexivity.
  - apply listDecoder_yields.
  - reflexivity.
Defined.

(** The errors of a query on a disk partition: an expired partition
    answers with an error that wraps [ErrNoDataPoints], a key that the
    metadata do not hold with [ErrNoDataPoints] itself, a negative offset
    with the error of [Seek]; and when [decodePoint] fails before the loop
    has met a point at or after [end_], the result is that error, wrapped,
    and none of the points decoded so far. *)
Theorem disk_select_errors `{Go.SortSlice} {Decoder : Type}
    (newSeriesDecoder : list Z → Decoder + string)
    (decodePoint : Decoder → Decoder * (MemPart.DataPoint + string))
    (d : DiskPart.diskPartition) (now : Z) (metric : string)
    (labels : list Labels.Label) (start end_ : Z) :
  let key := Labels.metricKey metric labels in
  let result := DiskPart.selectDataPoints Decoder newSeriesDecoder decodePoint
                  d now metric labels start end_ in
  (DiskPart.expired d now = true →
   result = inr (DiskPart.Expired DiskPart.ErrNoDataPoints))
  ∧ (DiskPart.expired d now = false →
     (DiskPart.Metrics (DiskPart.d_meta d) !! key = None →
      result = inr DiskPart.ErrNoDataPoints)
     ∧ ∀ mt, DiskPart.Metrics (DiskPart.d_meta d) !! key = Some mt →
         (DiskPart.Offset mt < 0 →
          result = inr (DiskPart.FailedToSeek
                          (DiskPart.Callee "bytes.Reader.Seek: negative position")))
         ∧ ∀ decoder pts decoder' last err,
             0 <= DiskPart.Offset mt →
             newSeriesDecoder (drop (Z.to_nat (DiskPart.Offset mt))
                                 (DiskPart.mappedFile d)) = inl decoder →
             leaves decodePoint decoder pts decoder' →
             decodePoint decoder' = (last, inr err) →
             Forall (λ p, MemPart.Timestamp p < start
                          ∨ MemPart.Timestamp p < end_) pts →
             Go.len pts < DiskPart.NumDataPoints mt →
             result = inr (DiskPart.FailedToDecodePoint key (DiskPart.dirPath d)
                             (DiskPart.Callee err))).
Proof.
  intros key result. unfold result, DiskPart.selectDataPoints. fold key.
  split; [by intros ->|]. intros ->. split; [by intros ->|].
  intros mt ->. split.
  - intros Hoff. by destruct (Z.ltb_spec (DiskPart.Offset mt) 0); [|lia].
  - intros decoder pts decoder' last err Hoff Hdec Hl Herr Hin Hlen.
    destruct (Z.ltb_spec (DiskPart.Offset mt) 0); [lia|]. rewrite Hdec.
    unfold Go.len in Hlen.
    replace (Z.to_nat (DiskPart.NumDataPoints mt))
      with (length pts + S (Z.to_nat (DiskPart.NumDataPoints mt) - length pts - 1))%nat
      by lia.
    by rewrite (decodeLoop_fails decodePoint d key start end_ pts decoder []
                  _ decoder' last err Hl Herr Hin).
Qed.

Lemma disk_select_errors_witness :
  let pt := λ ts, MemPart.mkPoint ts 0 in
  DiskPart.selectDataPoints (H := insertion_SortSlice) _
    (λ _, inl [pt 1; pt 3]) listDecoder onDisk 1000 "cpu" [] 2 5
  = inr (DiskPart.FailedToDecodePoint "cpu" "/data/p-1-5" (DiskPart.Callee "EOF"))
  ∧ DiskPart.selectDataPoints (H := insertion_SortSlice) _
      (λ _, inl [pt 1; pt 3]) listDecoder onDisk 1000 "mem" [] 2 5
    = inr DiskPart.ErrNoDataPoints
  ∧ DiskPart.selectDataPoints (H := insertion_SortSlice) _
      (λ _, inl [pt 1; pt 3]) listDecoder onDisk 3600000001000 "cpu" [] 2 5
    = inr (DiskPart.Expired DiskPart.ErrNoDataPoints).
Proof.
  intros pt. split; [|split].
  - destruct (disk_select_errors (H := insertion_SortSlice)
                (λ _, inl [pt 1; pt 3]) listDecoder onDisk 1000 "cpu" [] 2 5)
      as [_ Hrest].
    destruct (Hrest eq_refl) as [_ Hmt].
    destruct (Hmt (DiskPart.mkDiskMetric "cpu" 0 1 5 3) eq_refl) as [_ Hfail].
    apply (Hfail [pt 1; pt 3] [pt 1; pt 3] [] [] "EOF"%string).
    + simpl. lia.
    + reflexivity.
    + simpl. eauto.
    + reflexivity.
    + repeat constructor; simpl; lia.
    + reflexivity.
  - destruct (disk_select_errors (H := insertion_SortSlice)
                (λ _, inl [pt 1; pt 3]) listDecoder onDisk 1000 "mem" [] 2 5)
      as [_ Hrest].
    by apply (Hrest eq_refl).
  - destruct (disk_select_errors (H := insertion_SortSlice)
                (λ _, inl [pt 1; pt 3]) listDecoder onDisk 3600000001000 "cpu" [] 2 5)
      as [Hexp _].
    by apply Hexp.
Defined.

(** ** partition_list.go: the iterator *)

Section Iterate.
Import PartList.
Context {P : Type} `{Partition P}.

(** [for iterator.next() { ... iterator.value() ... }]: the values the loop
    sees and the iterator it leaves, with [fuel] as in [removeLoop]. *)
Fixpoint iterate (fuel : nat) (st : state P) (it : cursor)
  : option (list (option P) * cursor) :=
  match fuel with
  | O => None
  | S fuel =>
      '(ok, it) ← iteratorNext st it;
      if negb ok then Some ([], it)
      else
        v ← iteratorValue st it;
        '(vs, it) ← iterate fuel st it;
        Some (v :: vs, it)
  end.

Lemma iterate_seg (st : state P) ns : ∀ it from fuel,
  at_ st it from → seg (heap st) from ns None → (length ns < fuel)%nat →
  iterate fuel st it = Some (Some <$> ns.*2, CNil).
Proof.
  induction ns as [|n ns IH]; intros it from fuel Hat Hseg Hfuel;
    (destruct fuel as [|fuel]; [simpl in Hfuel; lia|]);
    cbn [iterate]; rewrite (iteratorNext_at st it from Hat).
  - simpl in Hseg. subst from. done.
  - destruct Hseg as (-> & nx & Hn & Hseg). cbn. rewrite Hn. cbn.
    rewrite (IH (CNode n.1) nx fuel); [done| |done|simpl in Hfuel; lia].
    simpl. eauto.
Qed.

Lemma inserts_wellFormed (ps : list P) :
  ∃ ns, wellFormed (foldl insert newPartitionList ps) ns ∧ ns.*2 = reverse ps
        ∧ cleaned (foldl insert newPartitionList ps) = [].
Proof.
  induction ps as [|p ps IH] using rev_ind.
  - exists []. split; [apply new_wellFormed|done].
  - destruct IH as (ns & Hwf & Hns & Hcl). rewrite foldl_app. simpl.
    destruct (insert_chain _ ns p (proj1 Hwf)) as (l & _ & _ & _ & Hcl' & _).
    destruct (insert_wellFormed _ ns p Hwf) as (l' & Hwf').
    exists ((l', p) :: ns). split; [done|].
    split; [by rewrite reverse_snoc, fmap_cons, Hns|congruence].
Qed.

End Iterate.

(** The iterator visits every partition of the list once, from [head] on:
    for a list built from the empty one by [insert], [remove], [swap] and
    [getHead], whose nodes from [head] are [ns], the loop
    [for iterator.next()] sees the partitions of [ns] in their order, none
    of them nil, and leaves an iterator for which [next] stays false and
    [value] is nil.  After inserts alone the order is that of the newest
    insert first. *)
Theorem iterator_visits_all {P : Type} `{PartList.Partition P}
    (st : PartList.state P) :
  rtc listStep PartList.newPartitionList st →
  ∃ ns, chain st ns ∧ PartList.size st = Z.of_nat (length ns)
    ∧ (∀ fuel, (length ns < fuel)%nat →
         iterate fuel st (PartList.newIterator st)
         = Some (Some <$> ns.*2, PartList.CNil))
    ∧ PartList.iteratorNext st PartList.CNil = Some (false, PartList.CNil)
    ∧ PartList.iteratorValue st PartList.CNil = Some None
    ∧ ∀ ps, st = foldl PartList.insert PartList.newPartitionList ps →
        ns.*2 = reverse ps.
Proof.
  intros Hsteps.
  destruct (listSteps_wellFormed _ _ (ex_intro _ [] new_wellFormed) Hsteps)
    as (ns & Hwf).
  exists ns. destruct Hwf as (Hchain & Hsize & _).
  split; [done|]. split; [done|]. split.
  { intros fuel Hfuel.
    apply (iterate_seg st ns _ (PartList.head (PartList.lst st)));
      [done|apply Hchain|done]. }
  split; [done|]. split; [done|].
  intros ps ->. destruct (inserts_wellFormed ps) as (ns' & Hwf' & Hns & _).
  by rewrite (chain_unique _ _ _ Hchain (proj1 Hwf')).
Qed.

Lemma iterator_visits_all_witness :
  let p := λ t, mkFake t None in
  let st := listOf [p 1; p 2; p 3] in
  iterate 4 st (PartList.newIterator st)
  = Some ([Some (p 3); Some (p 2); Some (p 1)], PartList.CNil).
Proof.
  intros p st.
  assert (Hreach : rtc listStep PartList.newPartitionList st).
  { unfold st, listOf. simpl.
    eapply rtc_l; [apply listStep_insert|].
    eapply rtc_l; [apply listStep_insert|].
    eapply rtc_l; [apply listStep_insert|]. apply rtc_refl. }
  destruct (iterator_visits_all st Hreach) as (ns & Hchain & _ & Hit & _ & _ & Hns).
  rewrite (Hit 4%nat).
  - by rewrite (Hns [p 1; p 2; p 3] eq_refl).
  - specialize (Hns [p 1; p 2; p 3] eq_refl). apply (f_equal length) in Hns.
    rewrite length_fmap in Hns. rewrite Hns. vm_compute. lia.
Defined.
